(** * OpenModes: the Cython numeric core ([core_cython.pyx])

    A shallow embedding of [triangle_face_to_rwg], [dot_product_complex_real],
    [cexp], [source_integral_plane_wave] and [voltage_plane_wave], and the
    properties of the face-to-RWG transform and of the plane-wave excitation
    vector proved on it.

    Modelling conventions.
    - [double] is modelled twice.  In the first part it is the type [R] of
      real numbers and [double complex] the type [C] of pairs of reals:
      the statements of that part are about exact arithmetic, which the
      code follows up to rounding as long as nothing overflows.  In the part
      on IEEE arithmetic ([Gen], [Ieee]) the same program is run on binary64
      numbers, with their rounding, signed zeros, infinities and NaN: the
      statements there hold of the doubles the code computes.
    - A typed memoryview ([int[:]], [double[:, :]], [complex[:, :, :, :]], ...)
      is a buffer together with a base offset, a shape and strides.  Every
      function of the source is compiled with [boundscheck(False)] and
      [wraparound(False)], so an indexed access is plain strided address
      arithmetic.  An access that leaves the buffer has no defined result:
      it is [None] in the [option] monad.
    - The two [prange] loops run their iterations in an order, and on worker
      threads, chosen by the OpenMP runtime: the order and the thread of each
      iteration are an explicit schedule argument, and so is the content of
      memory that the source leaves uninitialised ([np.empty], [malloc]). *)

From Stdlib Require Import Reals List ZArith Lia Lra Bool Permutation PeanoNat.
From Stdlib Require Import SpecFloat FunctionalExtensionality.
Import ListNotations.

Set Implicit Arguments.

(* ================================================================= *)
(** ** The option monad: a step either returns or has no defined result *)

Definition bind {A B : Type} (o : option A) (k : A -> option B) : option B :=
  match o with
  | Some a => k a
  | None => None
  end.

Notation "x <- e ;; k" := (bind e (fun x => k))
  (at level 61, e at next level, right associativity).

(** A [for] loop whose body may fail, over an explicit list of iterations. *)
Fixpoint foldM {S X : Type} (body : X -> S -> option S) (l : list X) (s : S)
  : option S :=
  match l with
  | [] => Some s
  | x :: l' => s' <- body x s ;; foldM body l' s'
  end.

(** [for k in range(n)] *)
Definition for_range {S : Type} (n : nat) (body : nat -> S -> option S) (s : S)
  : option S :=
  foldM body (seq 0 n) s.

(** Collect the results of a fallible computation over a list. *)
Fixpoint mapM {X Y : Type} (f : X -> option Y) (l : list X) : option (list Y) :=
  match l with
  | [] => Some []
  | x :: l' => y <- f x ;; ys <- mapM f l' ;; Some (y :: ys)
  end.

(* ================================================================= *)
(** ** Machine integers *)

(** [cdef int n = a.shape[0]]: a [Py_ssize_t] stored into a 32-bit [int]. *)
Definition c_int (z : Z) : Z := ((z + 2147483648) mod 4294967296 - 2147483648)%Z.

(* ================================================================= *)
(** ** Complex numbers over the reals *)

Record C : Type := mkC { Re : R; Im : R }.

Definition C0 : C := mkC 0 0.
Definition C1 : C := mkC 1 0.
(** [_Complex_I] *)
Definition Ci : C := mkC 0 1.
(** conversion of a [double] to [double complex] *)
Definition RtoC (x : R) : C := mkC x 0.

Definition creal (z : C) : R := Re z.
Definition cimag (z : C) : R := Im z.

Definition Cadd (a b : C) : C := mkC (Re a + Re b) (Im a + Im b).
Definition Csub (a b : C) : C := mkC (Re a - Re b) (Im a - Im b).
Definition Copp (a : C) : C := mkC (- Re a) (- Im a).
Definition Cmul (a b : C) : C :=
  mkC (Re a * Re b - Im a * Im b) (Re a * Im b + Im a * Re b).

Declare Scope C_scope.
Delimit Scope C_scope with C.
Bind Scope C_scope with C.
Infix "+" := Cadd : C_scope.
Infix "-" := Csub : C_scope.
Infix "*" := Cmul : C_scope.
Notation "- x" := (Copp x) : C_scope.

(** [cexp]: the complex exponential synthesised from the real [exp], [cos]
    and [sin] of [libc.math]. *)
Definition cexp (z : C) : C :=
  (RtoC (exp (creal z)) * (RtoC (cos (cimag z)) + Ci * RtoC (sin (cimag z))))%C.

(* ================================================================= *)
(** ** Buffers and typed memoryviews *)

Record view : Type := mkView {
  v_base : Z;              (* offset of element [0, ..., 0] in the buffer *)
  v_shape : list Z;
  v_strides : list Z       (* in elements *)
}.

Record memview (A : Type) : Type := mkMv {
  mv_buf : list A;
  mv_view : view
}.

Fixpoint dot_idx (idx strides : list Z) : Z :=
  match idx, strides with
  | i :: idx', s :: strides' => (i * s + dot_idx idx' strides')%Z
  | _, _ => 0%Z
  end.

Definition offset (v : view) (idx : list Z) : Z :=
  (v_base v + dot_idx idx (v_strides v))%Z.

(** [a.shape[k]] *)
Definition shape (v : view) (k : nat) : Z := nth k (v_shape v) 0%Z.

Definition buf_read {A : Type} (buf : list A) (off : Z) : option A :=
  if (off <? 0)%Z then None else nth_error buf (Z.to_nat off).

Fixpoint list_set {A : Type} (l : list A) (k : nat) (x : A) : list A :=
  match l, k with
  | [], _ => []
  | _ :: l', O => x :: l'
  | y :: l', S k' => y :: list_set l' k' x
  end.

Definition buf_write {A : Type} (buf : list A) (off : Z) (x : A)
  : option (list A) :=
  if ((0 <=? off) && (off <? Z.of_nat (length buf)))%Z
  then Some (list_set buf (Z.to_nat off) x)
  else None.

(** [a[i, j, ...]] with bounds checking and wrap-around disabled. *)
Definition mv_get {A : Type} (a : memview A) (idx : list Z) : option A :=
  buf_read (mv_buf a) (offset (mv_view a) idx).

(** The value read at an index, for statements: total, with a default that
    is never met where the read is defined. *)
Definition mv_at {A : Type} (d : A) (a : memview A) (idx : list Z) : A :=
  match mv_get a idx with
  | Some x => x
  | None => d
  end.

(** [a[i, ...]] seen as a view of one dimension less (a slice). *)
Definition slice0 (v : view) (i : Z) : view :=
  mkView (v_base v + i * nth 0 (v_strides v) 0)%Z
         (tl (v_shape v)) (tl (v_strides v)).

(** A C-contiguous view of the given shape, starting at offset 0. *)
Fixpoint c_strides (shp : list Z) : list Z :=
  match shp with
  | [] => []
  | _ :: shp' => fold_right Z.mul 1%Z shp' :: c_strides shp'
  end.

Definition c_view (shp : list Z) : view := mkView 0 shp (c_strides shp).

(** Extent of the offsets a view can produce from in-shape indices. *)
Fixpoint span_lo (shp strides : list Z) : Z :=
  match shp, strides with
  | n :: shp', s :: strides' => (Z.min 0 ((n - 1) * s) + span_lo shp' strides')%Z
  | _, _ => 0%Z
  end.

Fixpoint span_hi (shp strides : list Z) : Z :=
  match shp, strides with
  | n :: shp', s :: strides' => (Z.max 0 ((n - 1) * s) + span_hi shp' strides')%Z
  | _, _ => 0%Z
  end.

(** A well-formed memoryview of [nd] dimensions: extents that fit an [int],
    and every in-shape index addresses a cell of the buffer (no index is
    in-shape when an extent is 0). *)
Definition mv_okb {A : Type} (nd : nat) (a : memview A) : bool :=
  let v := mv_view a in
  (length (v_shape v) =? nd)%nat && (length (v_strides v) =? nd)%nat &&
  forallb (fun n => (0 <=? n)%Z && (n <? 2147483648)%Z) (v_shape v) &&
  (existsb (fun n => (n =? 0)%Z) (v_shape v) ||
   ((0 <=? v_base v + span_lo (v_shape v) (v_strides v))%Z &&
    (v_base v + span_hi (v_shape v) (v_strides v)
       <? Z.of_nat (length (mv_buf a)))%Z)).

(** An index within the shape. *)
Fixpoint in_shape (shp idx : list Z) : Prop :=
  match shp, idx with
  | [], [] => True
  | n :: shp', i :: idx' => (0 <= i < n)%Z /\ in_shape shp' idx'
  | _, _ => False
  end.

(** Matrices returned as NumPy arrays: lists of rows. *)
Definition matrix : Type := list (list C).

Definition mat_get (M : matrix) (m n : nat) : C := nth n (nth m M []) C0.

Definition mat_set (M : matrix) (m n : nat) (x : C) : matrix :=
  list_set M m (list_set (nth m M []) n x).

Definition mat_dims (M : matrix) (r c : nat) : Prop :=
  length M = r /\ Forall (fun row => length row = c) M.

(** [np.empty([r, c])]: an [r] by [c] array of whatever the memory held. *)
Definition np_empty2 (junk : nat -> nat -> C) (r c : nat) : matrix :=
  map (fun i => map (junk i) (seq 0 c)) (seq 0 r).

(** [np.zeros(n)] *)
Definition np_zeros {A : Type} (zero : A) (n : nat) : list A := repeat zero n.

(* ================================================================= *)
(** ** [triangle_face_to_rwg] *)

Section Converter.

Variables basis_tri_p basis_tri_m basis_node_p basis_node_m : memview Z.
Variable vector_face : memview C.
Variable scalar_face : memview C.

(** The body of the inner loop, for observer [m] and source [n]. *)
Definition rwg_inner (m : nat) (p_p p_m ip_p ip_m : Z) (n : nat)
           (st : matrix * matrix) : option (matrix * matrix) :=
  let '(vector_rwg, scalar_rwg) := st in
  q_p <- mv_get basis_tri_p [Z.of_nat n] ;;
  q_m <- mv_get basis_tri_m [Z.of_nat n] ;;
  iq_p <- mv_get basis_node_p [Z.of_nat n] ;;
  iq_m <- mv_get basis_node_m [Z.of_nat n] ;;
  v_pp <- mv_get vector_face [p_p; q_p; ip_p; iq_p] ;;
  v_pm <- mv_get vector_face [p_p; q_m; ip_p; iq_m] ;;
  v_mp <- mv_get vector_face [p_m; q_p; ip_m; iq_p] ;;
  v_mm <- mv_get vector_face [p_m; q_m; ip_m; iq_m] ;;
  s_mp <- mv_get scalar_face [p_m; q_p] ;;
  s_mm <- mv_get scalar_face [p_m; q_m] ;;
  s_pp <- mv_get scalar_face [p_p; q_p] ;;
  s_pm <- mv_get scalar_face [p_p; q_m] ;;
  Some (mat_set vector_rwg m n (v_pp - v_pm - v_mp + v_mm)%C,
        mat_set scalar_rwg m n (- s_mp + s_mm + s_pp - s_pm)%C).

(** The body of the outer loop, for observer [m]. *)
Definition rwg_outer (nb : nat) (m : nat) (st : matrix * matrix)
  : option (matrix * matrix) :=
  p_p <- mv_get basis_tri_p [Z.of_nat m] ;;
  p_m <- mv_get basis_tri_m [Z.of_nat m] ;;
  ip_p <- mv_get basis_node_p [Z.of_nat m] ;;
  ip_m <- mv_get basis_node_m [Z.of_nat m] ;;
  for_range nb (rwg_inner m p_p p_m ip_p ip_m) st.

(** [junk_v] and [junk_s] are the contents of the memory that [np.empty]
    hands out for the two results.  A negative extent makes [np.empty]
    raise. *)
Definition triangle_face_to_rwg (junk_v junk_s : nat -> nat -> C)
  : option (matrix * matrix) :=
  let num_triangles := c_int (shape (mv_view vector_face) 0) in  (* unused *)
  let num_basis := c_int (shape (mv_view basis_tri_p) 0) in
  if (num_basis <? 0)%Z then None else
  let vector_rwg := np_empty2 junk_v (Z.to_nat num_basis) (Z.to_nat num_basis) in
  let scalar_rwg := np_empty2 junk_s (Z.to_nat num_basis) (Z.to_nat num_basis) in
  for_range (Z.to_nat num_basis) (rwg_outer (Z.to_nat num_basis))
            (vector_rwg, scalar_rwg).

(** *** The signed combination of §4.3, written from the specification *)

Definition num_basis : nat := Z.to_nat (shape (mv_view basis_tri_p) 0).

Definition tri_plus (m : nat) : Z := mv_at 0%Z basis_tri_p [Z.of_nat m].
Definition tri_minus (m : nat) : Z := mv_at 0%Z basis_tri_m [Z.of_nat m].
Definition node_plus (m : nat) : Z := mv_at 0%Z basis_node_p [Z.of_nat m].
Definition node_minus (m : nat) : Z := mv_at 0%Z basis_node_m [Z.of_nat m].

Definition vface (p q i j : Z) : C := mv_at C0 vector_face [p; q; i; j].
Definition sface (p q : Z) : C := mv_at C0 scalar_face [p; q].

Definition vector_rwg_spec (m n : nat) : C :=
  (vface (tri_plus m) (tri_plus n) (node_plus m) (node_plus n)
   - vface (tri_plus m) (tri_minus n) (node_plus m) (node_minus n)
   - vface (tri_minus m) (tri_plus n) (node_minus m) (node_plus n)
   + vface (tri_minus m) (tri_minus n) (node_minus m) (node_minus n))%C.

Definition scalar_rwg_spec (m n : nat) : C :=
  (- sface (tri_minus m) (tri_plus n) + sface (tri_minus m) (tri_minus n)
   + sface (tri_plus m) (tri_plus n) - sface (tri_plus m) (tri_minus n))%C.

(** Every read the converter performs lands inside its buffer. *)
Definition table_reads_ok : Prop :=
  forall m, (m < num_basis)%nat ->
    mv_get basis_tri_p [Z.of_nat m] <> None /\
    mv_get basis_tri_m [Z.of_nat m] <> None /\
    mv_get basis_node_p [Z.of_nat m] <> None /\
    mv_get basis_node_m [Z.of_nat m] <> None.

Definition face_reads_ok : Prop :=
  forall m n, (m < num_basis)%nat -> (n < num_basis)%nat ->
    forall p i, (p, i) = (tri_plus m, node_plus m) \/
                (p, i) = (tri_minus m, node_minus m) ->
    forall q j, (q, j) = (tri_plus n, node_plus n) \/
                (q, j) = (tri_minus n, node_minus n) ->
    mv_get vector_face [p; q; i; j] <> None /\
    mv_get scalar_face [p; q] <> None.

(** Every index of the table is within the extents of the face tensors. *)
Definition table_in_range : Prop :=
  forall m, (m < num_basis)%nat ->
    forall p i, (p, i) = (tri_plus m, node_plus m) \/
                (p, i) = (tri_minus m, node_minus m) ->
    (0 <= p < shape (mv_view vector_face) 0)%Z /\
    (0 <= p < shape (mv_view vector_face) 1)%Z /\
    (0 <= i < shape (mv_view vector_face) 2)%Z /\
    (0 <= i < shape (mv_view vector_face) 3)%Z /\
    (0 <= p < shape (mv_view scalar_face) 0)%Z /\
    (0 <= p < shape (mv_view scalar_face) 1)%Z.

End Converter.

(** The four arrays of the basis index table: well-formed, of one length. *)
Definition table_views_ok (tp tm np nm : memview Z) : Prop :=
  mv_okb 1 tp = true /\ mv_okb 1 tm = true /\
  mv_okb 1 np = true /\ mv_okb 1 nm = true /\
  shape (mv_view tm) 0 = shape (mv_view tp) 0 /\
  shape (mv_view np) 0 = shape (mv_view tp) 0 /\
  shape (mv_view nm) 0 = shape (mv_view tp) 0.

(* ================================================================= *)
(** ** [dot_product_complex_real] *)

(** A raw pointer: a buffer and the offset of the element pointed to. *)
Definition ptr (A : Type) : Type := (list A * Z)%type.

Definition ptr_read {A : Type} (p : ptr A) (k : Z) : option A :=
  buf_read (fst p) (snd p + k)%Z.

(** [&a[i, ...]] *)
Definition mv_ptr {A : Type} (a : memview A) (idx : list Z) : ptr A :=
  (mv_buf a, offset (mv_view a) idx).

(** [&t[0]] for a local C array [t]. *)
Definition local_ptr {A : Type} (t : list A) : ptr A := (t, 0%Z).

Definition dot_product_complex_real (length : Z) (a : ptr C) (b : ptr R)
  : option C :=
  for_range (Z.to_nat length)
    (fun counter result =>
       x <- ptr_read a (Z.of_nat counter) ;;
       y <- ptr_read b (Z.of_nat counter) ;;
       Some (result + x * RtoC y)%C)
    (RtoC 0).

(* ================================================================= *)
(** ** [source_integral_plane_wave] *)

(** The three values of a loop [for index in range(3)]. *)
Definition range3 : list nat := [0; 1; 2]%nat.

Section Integrator.

Variables xi_eta_o weights_o nodes_o : memview R.
Variables jk_inc e_inc : memview C.
(** The view through which the result is written; its buffer is threaded
    through the computation. *)
Variable I : view.

(** [I[:] = 0.0] *)
Definition clear_I (Ibuf : list C) : option (list C) :=
  for_range (Z.to_nat (shape I 0))
    (fun k buf => buf_write buf (offset I [Z.of_nat k]) (RtoC 0))
    Ibuf.

(** One quadrature point.  The local arrays [r_o], [rho_o] and [e_r] are
    filled before they are read, with indices that are always 0, 1 or 2. *)
Definition quad_point (count_o : nat) (Ibuf : list C) : option (list C) :=
  w_o <- mv_get weights_o [Z.of_nat count_o] ;;
  xi_o <- mv_get xi_eta_o [Z.of_nat count_o; 0%Z] ;;
  eta_o <- mv_get xi_eta_o [Z.of_nat count_o; 1%Z] ;;
  let zeta_o := (1 - eta_o - xi_o)%R in
  r_o <- mapM (fun index_a =>
                 n0 <- mv_get nodes_o [0%Z; Z.of_nat index_a] ;;
                 n1 <- mv_get nodes_o [1%Z; Z.of_nat index_a] ;;
                 n2 <- mv_get nodes_o [2%Z; Z.of_nat index_a] ;;
                 Some (xi_o * n0 + eta_o * n1 + zeta_o * n2)%R) range3 ;;
  rho_o <- mapM (fun index_a =>
                   mapM (fun index_b =>
                           n <- mv_get nodes_o [Z.of_nat index_a; Z.of_nat index_b] ;;
                           Some (nth index_b r_o 0 - n)%R) range3) range3 ;;
  jkr <- dot_product_complex_real 3 (mv_ptr jk_inc [0%Z]) (local_ptr r_o) ;;
  let exp_jkr := cexp (- jkr)%C in
  e_r <- mapM (fun index_a =>
                 e <- mv_get e_inc [Z.of_nat index_a] ;;
                 Some (exp_jkr * e)%C) range3 ;;
  foldM (fun index_a buf =>
           d <- dot_product_complex_real 3 (local_ptr e_r)
                  (local_ptr (nth index_a rho_o [])) ;;
           cur <- buf_read buf (offset I [Z.of_nat index_a]) ;;
           buf_write buf (offset I [Z.of_nat index_a]) (cur + d * RtoC w_o)%C)
        range3 Ibuf.

Definition source_integral_plane_wave (Ibuf : list C) : option (list C) :=
  let n_o := c_int (shape (mv_view xi_eta_o) 0) in
  Ibuf0 <- clear_I Ibuf ;;
  for_range (Z.to_nat n_o) quad_point Ibuf0.

End Integrator.

(* ================================================================= *)
(** ** [voltage_plane_wave] *)

(** What the OpenMP runtime and the allocator decide: the number of worker
    threads, the content of the [malloc]'ed scratch storage, the order and
    thread of the iterations of the first [prange], the order of the
    iterations of the second. *)
Record omp_env : Type := mkEnv {
  n_threads : Z;
  malloc_junk : list R;
  sched_tri : list (nat * Z);
  sched_basis : list nat
}.

(** [V_face]: a C-contiguous [num_triangles] by 3 view. *)
Definition V_face_view (num_triangles : Z) : view := c_view [num_triangles; 3%Z].

(** [nodes_p]: the storage seen as [n_threads] blocks of 3 by 3. *)
Definition nodes_p_view (nt : Z) : view := c_view [nt; 3%Z; 3%Z].

Section Assembler.

Variables nodes : memview R.
Variable triangle_nodes : memview Z.
Variables basis_tri_p basis_tri_m basis_node_p basis_node_m : memview Z.
Variables xi_eta_eval weights : memview R.
Variables e_inc jk_inc : memview C.

(** Iteration [p] of the first [prange], run by thread [thread_id], on the
    scratch storage and the buffer of [V_face]. *)
Definition tri_iter (nt num_triangles : Z) (it : nat * Z)
           (st : list R * list C) : option (list R * list C) :=
  let '(p, thread_id) := it in
  let '(storage, V_face) := st in
  storage' <-
    foldM (fun m sto =>
             foldM (fun q sto' =>
                      which <- mv_get triangle_nodes [Z.of_nat p; Z.of_nat m] ;;
                      x <- mv_get nodes [which; Z.of_nat q] ;;
                      buf_write sto'
                        (offset (nodes_p_view nt)
                                [thread_id; Z.of_nat m; Z.of_nat q]) x)
                   range3 sto)
          range3 storage ;;
  V_face' <-
    source_integral_plane_wave xi_eta_eval weights
      (mkMv storage' (slice0 (nodes_p_view nt) thread_id))
      jk_inc e_inc
      (slice0 (V_face_view num_triangles) (Z.of_nat p)) V_face ;;
  Some (storage', V_face').

(** Iteration [m] of the second [prange]. *)
Definition basis_iter (num_triangles : Z) (V_face : list C) (m : nat)
           (V : list C) : option (list C) :=
  p_p <- mv_get basis_tri_p [Z.of_nat m] ;;
  p_m <- mv_get basis_tri_m [Z.of_nat m] ;;
  ip_p <- mv_get basis_node_p [Z.of_nat m] ;;
  ip_m <- mv_get basis_node_m [Z.of_nat m] ;;
  a <- mv_get (mkMv V_face (V_face_view num_triangles)) [p_p; ip_p] ;;
  b <- mv_get (mkMv V_face (V_face_view num_triangles)) [p_m; ip_m] ;;
  buf_write V (Z.of_nat m) (a - b)%C.

Definition voltage_plane_wave (env : omp_env) : option (list C) :=
  let num_triangles := c_int (shape (mv_view triangle_nodes) 0) in
  let num_basis := c_int (shape (mv_view basis_tri_p) 0) in
  if ((num_basis <? 0) || (num_triangles <? 0))%Z then None else
  let V := np_zeros C0 (Z.to_nat num_basis) in
  let V_face := np_zeros C0 (Z.to_nat num_triangles * 3) in
  let nodes_p_storage := malloc_junk env in
  st <- foldM (tri_iter (n_threads env) num_triangles) (sched_tri env)
              (nodes_p_storage, V_face) ;;
  foldM (basis_iter num_triangles (snd st)) (sched_basis env) V.

End Assembler.

(** A schedule the runtime may choose: every iteration exactly once, each on
    one of the worker threads; the storage has 9 cells per thread. *)
Definition env_ok (num_triangles num_basis : nat) (env : omp_env) : Prop :=
  (0 < n_threads env)%Z /\
  length (malloc_junk env) = (Z.to_nat (n_threads env) * 9)%nat /\
  Permutation (map fst (sched_tri env)) (seq 0 num_triangles) /\
  Forall (fun it => 0 <= snd it < n_threads env)%Z (sched_tri env) /\
  Permutation (sched_basis env) (seq 0 num_basis).

(* ================================================================= *)
(** ** The source integral, written from the specification (§4.1) *)

(** Sum of [f 0], ..., [f (n - 1)]. *)
Fixpoint Csum (f : nat -> C) (n : nat) : C :=
  match n with
  | O => C0
  | S k => (Csum f k + f k)%C
  end.

Section IntegralSpec.

Variables xi_eta_o weights_o nodes_o : memview R.
Variables jk_inc e_inc : memview C.

(** Number of quadrature points. *)
Definition n_quad : nat := Z.to_nat (shape (mv_view xi_eta_o) 0).

Definition q_xi (k : nat) : R := mv_at 0%R xi_eta_o [Z.of_nat k; 0%Z].
Definition q_eta (k : nat) : R := mv_at 0%R xi_eta_o [Z.of_nat k; 1%Z].
Definition q_w (k : nat) : R := mv_at 0%R weights_o [Z.of_nat k].
(** Cartesian component [b] of node [a] of the triangle. *)
Definition node (a b : nat) : R := mv_at 0%R nodes_o [Z.of_nat a; Z.of_nat b].
Definition jk (b : nat) : C := mv_at C0 jk_inc [Z.of_nat b].
Definition e_amp (b : nat) : C := mv_at C0 e_inc [Z.of_nat b].

(** The position of quadrature point [k]: the barycentric combination of
    the three nodes, with third coordinate [1 - xi - eta]. *)
Definition r_pt (k b : nat) : R :=
  (q_xi k * node 0 b + q_eta k * node 1 b
   + (1 - q_xi k - q_eta k) * node 2 b)%R.

(** The vector from vertex [a] to the point. *)
Definition rho (k a b : nat) : R := (r_pt k b - node a b)%R.

(** [jk_inc . r] *)
Definition jk_dot_r (k : nat) : C :=
  (jk 0 * RtoC (r_pt k 0) + jk 1 * RtoC (r_pt k 1) + jk 2 * RtoC (r_pt k 2))%C.

(** The local field [e_r = exp(-(jk_inc . r)) * e_inc]. *)
Definition e_r (k b : nat) : C := (cexp (- jk_dot_r k) * e_amp b)%C.

(** The local field with the exponent read as written in the
    specification, [exp(-j.(jk_inc . r)) * e_inc]. *)
Definition e_r_literal (k b : nat) : C := (cexp (- (Ci * jk_dot_r k)) * e_amp b)%C.

(** [(rho[a] . field) * w] at quadrature point [k]. *)
Definition contribution (field : nat -> nat -> C) (a k : nat) : C :=
  ((RtoC (rho k a 0) * field k 0 + RtoC (rho k a 1) * field k 1
    + RtoC (rho k a 2) * field k 2) * RtoC (q_w k))%C.

Definition integral_spec (a : nat) : C := Csum (contribution e_r a) n_quad.

Definition integral_spec_literal (a : nat) : C :=
  Csum (contribution e_r_literal a) n_quad.

End IntegralSpec.

(** A quadrature rule: two coordinates and one weight per point. *)
Definition quadrature_ok (xi_eta weights : memview R) : Prop :=
  mv_okb 2 xi_eta = true /\ shape (mv_view xi_eta) 1 = 2%Z /\
  mv_okb 1 weights = true /\
  shape (mv_view weights) 0 = shape (mv_view xi_eta) 0.

(** A triangle: 3 nodes of 3 coordinates each. *)
Definition triangle_ok (nodes_o : memview R) : Prop :=
  mv_okb 2 nodes_o = true /\
  shape (mv_view nodes_o) 0 = 3%Z /\ shape (mv_view nodes_o) 1 = 3%Z.

(** An incident plane wave: a contiguous [jk_inc] and an [e_inc] of 3
    components each. *)
Definition field_ok (jk_inc e_inc : memview C) : Prop :=
  mv_okb 1 jk_inc = true /\ shape (mv_view jk_inc) 0 = 3%Z /\
  v_strides (mv_view jk_inc) = [1%Z] /\
  mv_okb 1 e_inc = true /\ shape (mv_view e_inc) 0 = 3%Z.

(** What the integrator requires of its arguments. *)
Definition integrator_args_ok (xi_eta_o weights_o nodes_o : memview R)
           (jk_inc e_inc : memview C) : Prop :=
  quadrature_ok xi_eta_o weights_o /\ triangle_ok nodes_o /\
  field_ok jk_inc e_inc.

(** The result view: 3 cells of the buffer, at distinct offsets. *)
Definition result_view_ok (I : view) (Ibuf : list C) : Prop :=
  v_shape I = [3%Z] /\ length (v_strides I) = 1%nat /\
  nth 0 (v_strides I) 0%Z <> 0%Z /\
  forall a, (0 <= a < 3)%Z -> (0 <= offset I [a] < Z.of_nat (length Ibuf))%Z.

(** The cells of the view [I] hold [acc] in [buf], which is [buf0] outside
    the view. *)
Definition view_holds (I : view) (buf0 : list C) (acc : nat -> C) (buf : list C)
  : Prop :=
  length buf = length buf0 /\
  (forall a, (a < 3)%nat -> buf_read buf (offset I [Z.of_nat a]) = Some (acc a)) /\
  (forall j, (forall a, (a < 3)%nat -> Z.of_nat j <> offset I [Z.of_nat a]) ->
     nth_error buf j = nth_error buf0 j).

(* ================================================================= *)
(** ** The excitation vector, written from the specification (§4.2) *)

(** The integrator run on its own, writing into a fresh vector of 3 cells. *)
Definition integrator_result (xi_eta_o weights_o nodes_o : memview R)
           (jk_inc e_inc : memview C) : option (list C) :=
  source_integral_plane_wave xi_eta_o weights_o nodes_o jk_inc e_inc
    (c_view [3%Z]) [C0; C0; C0].

Section VoltageSpec.

Variables nodes : memview R.
Variable triangle_nodes : memview Z.
Variables basis_tri_p basis_tri_m basis_node_p basis_node_m : memview Z.
Variables xi_eta_eval weights : memview R.
Variables e_inc jk_inc : memview C.

Definition num_triangles : nat := Z.to_nat (shape (mv_view triangle_nodes) 0).

(** Coordinate [q] of node [m] of triangle [p]. *)
Definition tri_node (p m q : nat) : R :=
  mv_at 0%R nodes [mv_at 0%Z triangle_nodes [Z.of_nat p; Z.of_nat m]; Z.of_nat q].

(** The node coordinates of triangle [p], as a 3 by 3 array. *)
Definition gather_nodes (p : nat) : memview R :=
  mkMv (flat_map (fun m => map (tri_node p m) range3) range3)
       (c_view [3%Z; 3%Z]).

(** [V_face[p, :]]: the integrator's result for triangle [p]. *)
Definition V_face_row (p : Z) : option (list C) :=
  integrator_result xi_eta_eval weights (gather_nodes (Z.to_nat p)) jk_inc e_inc.

(** [V_face[p, a]] in closed form. *)
Definition V_face_spec (p a : Z) : C :=
  integral_spec xi_eta_eval weights (gather_nodes (Z.to_nat p)) jk_inc e_inc
                (Z.to_nat a).

(** The mesh: triangles of 3 nodes, nodes of 3 coordinates, every node
    index of a triangle within the node array. *)
Definition mesh_ok : Prop :=
  mv_okb 2 nodes = true /\ shape (mv_view nodes) 1 = 3%Z /\
  mv_okb 2 triangle_nodes = true /\ shape (mv_view triangle_nodes) 1 = 3%Z /\
  forall p m, (p < num_triangles)%nat -> (m < 3)%nat ->
    (0 <= mv_at 0%Z triangle_nodes [Z.of_nat p; Z.of_nat m]
        < shape (mv_view nodes) 0)%Z.

(** The basis index table: four arrays of one length, triangle indices
    within the mesh and local node indices within 0..2. *)
Definition basis_ok : Prop :=
  table_views_ok basis_tri_p basis_tri_m basis_node_p basis_node_m /\
  forall m, (m < num_basis basis_tri_p)%nat ->
    (0 <= tri_plus basis_tri_p m < Z.of_nat num_triangles)%Z /\
    (0 <= tri_minus basis_tri_m m < Z.of_nat num_triangles)%Z /\
    (0 <= node_plus basis_node_p m < 3)%Z /\
    (0 <= node_minus basis_node_m m < 3)%Z.

Definition assembler_args_ok : Prop :=
  mesh_ok /\ basis_ok /\ quadrature_ok xi_eta_eval weights /\
  field_ok jk_inc e_inc.

End VoltageSpec.

(* ================================================================= *)
(** ** The mathematical complex exponential: the sum of the power series *)

Fixpoint Cpow (z : C) (n : nat) : C :=
  match n with
  | O => C1
  | S k => (z * Cpow z k)%C
  end.

(** [z^n / n!] *)
Definition exp_term (z : C) (n : nat) : C :=
  (RtoC (/ INR (fact n)) * Cpow z n)%C.

(** [1 + z + z^2/2! + ... + z^N/N!] *)
Definition exp_partial (z : C) (N : nat) : C := Csum (exp_term z) (S N).

(** Convergence of a sequence of complex numbers: of both parts. *)
Definition Ccv (u : nat -> C) (l : C) : Prop :=
  Un_cv (fun n => Re (u n)) (Re l) /\ Un_cv (fun n => Im (u n)) (Im l).

(** [l] is the complex exponential of [z]: the sum of the series of the
    [z^n / n!]. *)
Definition is_Cexp (z l : C) : Prop := Ccv (exp_partial z) l.

(** The real and imaginary parts of the terms of [exp(j y)]. *)
Definition cre (y : R) (j : nat) : R := Re (exp_term (mkC 0 y) j).
Definition cim (y : R) (j : nat) : R := Im (exp_term (mkC 0 y) j).

(* ================================================================= *)
(** ** Exchanging the plus and minus data of one basis function *)

(** The primed table is the first one with [tri_plus]/[tri_minus] and
    [node_plus]/[node_minus] exchanged at index [m0] and nowhere else. *)
Definition swapped_at (m0 : nat) (tp tm np nm tp' tm' np' nm' : memview Z)
  : Prop :=
  num_basis tp' = num_basis tp /\
  tri_plus tp' m0 = tri_minus tm m0 /\ tri_minus tm' m0 = tri_plus tp m0 /\
  node_plus np' m0 = node_minus nm m0 /\ node_minus nm' m0 = node_plus np m0 /\
  forall k, k <> m0 ->
    tri_plus tp' k = tri_plus tp k /\ tri_minus tm' k = tri_minus tm k /\
    node_plus np' k = node_plus np k /\ node_minus nm' k = node_minus nm k.

(* ================================================================= *)
(** ** Concrete data *)

(** A C-contiguous array of the given shape over the listed cells. *)
Definition mv_c {A : Type} (shp : list Z) (cells : list A) : memview A :=
  mkMv cells (c_view shp).

Module Plate.

(** The unit square plate of §8: two triangles sharing the diagonal from
    node 0 to node 2, and the one basis function of that edge. *)
Definition nodes : memview R :=
  mv_c [4; 3]%Z [0; 0; 0;  1; 0; 0;  1; 1; 0;  0; 1; 0]%R.
Definition triangle_nodes : memview Z :=
  mv_c [2; 3]%Z [0; 1; 2;  0; 2; 3]%Z.
Definition basis_tri_p : memview Z := mv_c [1%Z] [0%Z].
Definition basis_tri_m : memview Z := mv_c [1%Z] [1%Z].
Definition basis_node_p : memview Z := mv_c [1%Z] [1%Z].
Definition basis_node_m : memview Z := mv_c [1%Z] [2%Z].

(** One-point rule: centroid, weight the area of the reference triangle. *)
Definition xi_eta : memview R := mv_c [1; 2]%Z [1 / 3; 1 / 3]%R.
Definition weights : memview R := mv_c [1%Z] [1 / 2]%R.
(** The rule with no point. *)
Definition xi_eta_empty : memview R := mv_c [0; 2]%Z [].
Definition weights_empty : memview R := mv_c [0%Z] [].

(** A wave travelling along z with [k0 = 1], polarised along x. *)
Definition jk_inc : memview C := mv_c [3%Z] [C0; C0; Ci].
Definition e_inc : memview C := mv_c [3%Z] [C1; C0; C0].
Definition e_inc2 : memview C := mv_c [3%Z] [C0; C1; C0].
Definition e_inc12 : memview C := mv_c [3%Z] [C1; C1; C0].
Definition e_zero : memview C := mv_c [3%Z] [C0; C0; C0].

(** Two worker threads; the second triangle is integrated first, by
    thread 1. *)
Definition env : omp_env :=
  mkEnv 2 (repeat 7%R 18) [(1%nat, 1%Z); (0%nat, 0%Z)] [0%nat].
(** One worker thread, iterations in index order. *)
Definition env_serial : omp_env :=
  mkEnv 1 (repeat 0%R 9) [(0%nat, 0%Z); (1%nat, 0%Z)] [0%nat].

(** Face tensors for the two triangles: cell [k] of the buffer of
    [vector_face] holds the number [k * k]. *)
Definition vector_face : memview C :=
  mv_c [2; 2; 3; 3]%Z (map (fun k => RtoC (IZR (Z.of_nat (k * k)))) (seq 0 36)).
Definition scalar_face : memview C :=
  mv_c [2; 2]%Z [RtoC 1; C0; C0; C0].

(** The table with the roles of the two triangles exchanged. *)
Definition swapped_tri_p : memview Z := basis_tri_m.
Definition swapped_tri_m : memview Z := basis_tri_p.
Definition swapped_node_p : memview Z := basis_node_m.
Definition swapped_node_m : memview Z := basis_node_p.

(** A table whose plus node index, 3, is outside the extent 3 of the node
    axes of [vector_face]. *)
Definition bad_node_p : memview Z := mv_c [1%Z] [3%Z].
Definition bad_node_m : memview Z := mv_c [1%Z] [0%Z].

Definition junk (i j : nat) : C := RtoC 5.
Definition junk' (i j : nat) : C := Ci.

(** A wave travelling along x with [k0 = PI], one quadrature point at the
    first node of the triangle (1,0,0), (0,0,0), (0,1,0). *)
Definition tri_x : memview R := mv_c [3; 3]%Z [1; 0; 0;  0; 0; 0;  0; 1; 0]%R.
Definition xi_eta_node0 : memview R := mv_c [1; 2]%Z [1; 0]%R.
Definition weights_one : memview R := mv_c [1%Z] [1%R].
Definition jk_x : memview C := mv_c [3%Z] [mkC 0 PI; C0; C0].

End Plate.

(* ================================================================= *)
(** ** Loop invariants *)

(** Double loop of the converter: the rows before [m] are final, and so are
    the first [n] cells of row [m]. *)
Definition rwg_invariant (tp tm np nm : memview Z) (vf sf : memview C)
           (m n : nat) (st : matrix * matrix) : Prop :=
  mat_dims (fst st) (num_basis tp) (num_basis tp) /\
  mat_dims (snd st) (num_basis tp) (num_basis tp) /\
  forall i j, (i < num_basis tp)%nat -> (j < num_basis tp)%nat ->
    (i < m \/ (i = m /\ j < n))%nat ->
    mat_get (fst st) i j = vector_rwg_spec tp tm np nm vf i j /\
    mat_get (snd st) i j = scalar_rwg_spec tp tm sf i j.

(** The position of a quadrature point as the code computes it. *)
Definition r_code (nodes_o : memview R) (xi eta : R) (b : nat) : R :=
  (xi * node nodes_o 0 b + eta * node nodes_o 1 b
   + (1 - eta - xi) * node nodes_o 2 b)%R.

(** First parallel loop, after the iterations [done]: the rows of the
    triangles in [done] hold the integrals. *)
Definition region1_invariant (nodes : memview R) (triangle_nodes : memview Z)
           (xi_eta weights : memview R) (e_inc jk_inc : memview C)
           (nt : Z) (done : list (nat * Z)) (st : list R * list C) : Prop :=
  length (fst st) = (Z.to_nat nt * 9)%nat /\
  length (snd st) = (num_triangles triangle_nodes * 3)%nat /\
  forall p a, In p (map fst done) -> (a < 3)%nat ->
    buf_read (snd st) (3 * Z.of_nat p + Z.of_nat a)
    = Some (V_face_spec nodes triangle_nodes xi_eta weights e_inc jk_inc
                        (Z.of_nat p) (Z.of_nat a)).

(** The excitation value of basis function [m], from the specification. *)
Definition V_spec (nodes : memview R) (triangle_nodes : memview Z)
           (tp tm np nm : memview Z) (xi_eta weights : memview R)
           (e_inc jk_inc : memview C) (m : nat) : C :=
  (V_face_spec nodes triangle_nodes xi_eta weights e_inc jk_inc
               (tri_plus tp m) (node_plus np m)
   - V_face_spec nodes triangle_nodes xi_eta weights e_inc jk_inc
                 (tri_minus tm m) (node_minus nm m))%C.

(** Second parallel loop, after the iterations [done]. *)
Definition region2_invariant (nodes : memview R) (triangle_nodes : memview Z)
           (tp tm np nm : memview Z) (xi_eta weights : memview R)
           (e_inc jk_inc : memview C) (done : list nat) (V : list C) : Prop :=
  length V = num_basis tp /\
  forall m, In m done ->
    nth_error V m
    = Some (V_spec nodes triangle_nodes tp tm np nm xi_eta weights e_inc jk_inc m).

(** The coefficients [x^k / k!] of the real exponential series, and the
    remainder of the finite Cauchy product of that series with a series of
    terms [c]. *)
Definition exp_coeff (x : R) (k : nat) : R := (/ INR (fact k) * x ^ k)%R.

Definition cauchy_rest (x : R) (c : nat -> R) (N : nat) : R :=
  sum_f_R0 (fun k => sum_f_R0 (fun l => (exp_coeff x (S (l + k)) * c (N - l)%nat)%R)
                              (pred (N - k))) (pred N).

(* ================================================================= *)
(** * The program over an abstract arithmetic *)

(** The excitation code is written once more, over an arithmetic that is a
    parameter: the type of [double], the type of [double complex] and the
    operations the source applies to them.  Instantiated with the real
    numbers it is the program above, word for word; instantiated with IEEE
    754 binary64 it is the program the machine runs.

    A complex value of the source plays one of two roles: it belongs to the
    phase ([jk_inc], [jkr], [exp_jkr]) or it is linear in the field
    amplitude ([e_inc], [e_r], [I], [V_face], [V]).  The only operation that
    crosses the roles is the product [exp_jkr * e_inc[index_a]]. *)
Inductive role : Type := Phase | Field.

Record arith : Type := mkArith {
  dbl : Type;                                   (* double *)
  cpx : role -> Type;                           (* double complex *)
  d_zero : dbl;
  d_one : dbl;                                  (* 1.0 *)
  d_add : dbl -> dbl -> dbl;
  d_sub : dbl -> dbl -> dbl;
  d_mul : dbl -> dbl -> dbl;
  c_zero : forall r, cpx r;                     (* 0.0 as a complex *)
  c_add : forall r, cpx r -> cpx r -> cpx r;
  c_sub : forall r, cpx r -> cpx r -> cpx r;
  c_neg : cpx Phase -> cpx Phase;
  c_mul_d : forall r, cpx r -> dbl -> cpx r;    (* complex * double *)
  c_exp : cpx Phase -> cpx Phase;               (* cexp *)
  c_mul : cpx Phase -> cpx Field -> cpx Field   (* complex * complex *)
}.

Module Gen.

Section Program.

Variable A : arith.

Definition dot_product_complex_real (r : role) (length : Z)
           (a : ptr (cpx A r)) (b : ptr (dbl A)) : option (cpx A r) :=
  for_range (Z.to_nat length)
    (fun counter result =>
       x <- ptr_read a (Z.of_nat counter) ;;
       y <- ptr_read b (Z.of_nat counter) ;;
       Some (c_add A r result (c_mul_d A r x y)))
    (c_zero A r).

Section Integrator.

Variables xi_eta_o weights_o nodes_o : memview (dbl A).
Variable jk_inc : memview (cpx A Phase).
Variable e_inc : memview (cpx A Field).
Variable I : view.

(** [I[:] = 0.0] *)
Definition clear_I (Ibuf : list (cpx A Field)) : option (list (cpx A Field)) :=
  for_range (Z.to_nat (shape I 0))
    (fun k buf => buf_write buf (offset I [Z.of_nat k]) (c_zero A Field))
    Ibuf.

Definition quad_point (count_o : nat) (Ibuf : list (cpx A Field))
  : option (list (cpx A Field)) :=
  w_o <- mv_get weights_o [Z.of_nat count_o] ;;
  xi_o <- mv_get xi_eta_o [Z.of_nat count_o; 0%Z] ;;
  eta_o <- mv_get xi_eta_o [Z.of_nat count_o; 1%Z] ;;
  let zeta_o := d_sub A (d_sub A (d_one A) eta_o) xi_o in
  r_o <- mapM (fun index_a =>
                 n0 <- mv_get nodes_o [0%Z; Z.of_nat index_a] ;;
                 n1 <- mv_get nodes_o [1%Z; Z.of_nat index_a] ;;
                 n2 <- mv_get nodes_o [2%Z; Z.of_nat index_a] ;;
                 Some (d_add A (d_add A (d_mul A xi_o n0) (d_mul A eta_o n1))
                             (d_mul A zeta_o n2))) range3 ;;
  rho_o <- mapM (fun index_a =>
                   mapM (fun index_b =>
                           n <- mv_get nodes_o [Z.of_nat index_a; Z.of_nat index_b] ;;
                           Some (d_sub A (nth index_b r_o (d_zero A)) n)) range3)
                range3 ;;
  jkr <- dot_product_complex_real Phase 3 (mv_ptr jk_inc [0%Z]) (local_ptr r_o) ;;
  let exp_jkr := c_exp A (c_neg A jkr) in
  e_r <- mapM (fun index_a =>
                 e <- mv_get e_inc [Z.of_nat index_a] ;;
                 Some (c_mul A exp_jkr e)) range3 ;;
  foldM (fun index_a buf =>
           d <- dot_product_complex_real Field 3 (local_ptr e_r)
                  (local_ptr (nth index_a rho_o [])) ;;
           cur <- buf_read buf (offset I [Z.of_nat index_a]) ;;
           buf_write buf (offset I [Z.of_nat index_a])
                     (c_add A Field cur (c_mul_d A Field d w_o)))
        range3 Ibuf.

Definition source_integral_plane_wave (Ibuf : list (cpx A Field))
  : option (list (cpx A Field)) :=
  let n_o := c_int (shape (mv_view xi_eta_o) 0) in
  Ibuf0 <- clear_I Ibuf ;;
  for_range (Z.to_nat n_o) quad_point Ibuf0.

End Integrator.

Section Assembler.

Variables nodes : memview (dbl A).
Variable triangle_nodes : memview Z.
Variables basis_tri_p basis_tri_m basis_node_p basis_node_m : memview Z.
Variables xi_eta_eval weights : memview (dbl A).
Variable e_inc : memview (cpx A Field).
Variable jk_inc : memview (cpx A Phase).

Definition tri_iter (nt num_triangles : Z) (it : nat * Z)
           (st : list (dbl A) * list (cpx A Field))
  : option (list (dbl A) * list (cpx A Field)) :=
  let '(p, thread_id) := it in
  let '(storage, V_face) := st in
  storage' <-
    foldM (fun m sto =>
             foldM (fun q sto' =>
                      which <- mv_get triangle_nodes [Z.of_nat p; Z.of_nat m] ;;
                      x <- mv_get nodes [which; Z.of_nat q] ;;
                      buf_write sto'
                        (offset (nodes_p_view nt)
                                [thread_id; Z.of_nat m; Z.of_nat q]) x)
                   range3 sto)
          range3 storage ;;
  V_face' <-
    source_integral_plane_wave xi_eta_eval weights
      (mkMv storage' (slice0 (nodes_p_view nt) thread_id))
      jk_inc e_inc
      (slice0 (V_face_view num_triangles) (Z.of_nat p)) V_face ;;
  Some (storage', V_face').

Definition basis_iter (num_triangles : Z) (V_face : list (cpx A Field))
           (m : nat) (V : list (cpx A Field)) : option (list (cpx A Field)) :=
  p_p <- mv_get basis_tri_p [Z.of_nat m] ;;
  p_m <- mv_get basis_tri_m [Z.of_nat m] ;;
  ip_p <- mv_get basis_node_p [Z.of_nat m] ;;
  ip_m <- mv_get basis_node_m [Z.of_nat m] ;;
  a <- mv_get (mkMv V_face (V_face_view num_triangles)) [p_p; ip_p] ;;
  b <- mv_get (mkMv V_face (V_face_view num_triangles)) [p_m; ip_m] ;;
  buf_write V (Z.of_nat m) (c_sub A Field a b).

(** The number of threads, the content of the [malloc]'ed storage and the
    two schedules are those of an [omp_env], passed one by one because the
    storage holds values of the arithmetic. *)
Definition voltage_plane_wave (nt : Z) (nodes_p_storage : list (dbl A))
           (sched_tri : list (nat * Z)) (sched_basis : list nat)
  : option (list (cpx A Field)) :=
  let num_triangles := c_int (shape (mv_view triangle_nodes) 0) in
  let num_basis := c_int (shape (mv_view basis_tri_p) 0) in
  if ((num_basis <? 0) || (num_triangles <? 0))%Z then None else
  let V := np_zeros (c_zero A Field) (Z.to_nat num_basis) in
  let V_face := np_zeros (c_zero A Field) (Z.to_nat num_triangles * 3) in
  st <- foldM (tri_iter nt num_triangles) sched_tri
              (nodes_p_storage, V_face) ;;
  foldM (basis_iter num_triangles (snd st)) sched_basis V.

End Assembler.

End Program.

End Gen.

(** The arithmetic of the real numbers: the model of the first part. *)
Definition real_arith : arith :=
  @mkArith R (fun _ => C) 0%R 1%R Rplus Rminus Rmult
          (fun _ => RtoC 0) (fun _ => Cadd) (fun _ => Csub) Copp
          (fun _ x y => (x * RtoC y)%C) cexp Cmul.

(* ================================================================= *)
(** * IEEE 754 arithmetic *)

(** [double] is binary64 with rounding to nearest, ties to even, as the
    Standard Library specifies it ([spec_float], 53 bits of precision,
    infinities at exponent 1024); NaN carries no payload and no sign.
    [double complex] is a pair of doubles.  A [double] operand of a complex
    operation is converted to [double complex], with imaginary part [+0],
    and the product of two complex numbers is the one of C99, Annex G: the
    four products and two sums of the textbook formula, recomputed from
    boxed infinities when both parts come out as NaN.  No operation is
    fused or reassociated.  [exp], [cos] and [sin] are those of the
    platform's [libm], a parameter.  The statements proved on this model
    are about zeros, infinities and NaN; none states the sign of a zero. *)
Module Ieee.

Definition double : Type := spec_float.

Definition prec : Z := 53.
Definition emax : Z := 1024.

Definition dadd : double -> double -> double := SFadd prec emax.
Definition dsub : double -> double -> double := SFsub prec emax.
Definition dmul : double -> double -> double := SFmul prec emax.
Definition ddiv : double -> double -> double := SFdiv prec emax.
Definition dneg : double -> double := SFopp.

(** The double nearest to an integer. *)
Definition of_Z (z : Z) : double := binary_normalize prec emax z 0 false.

Definition zero : double := S754_zero false.
Definition one : double := of_Z 1.
Definition infinity : double := S754_infinity false.
Definition nan : double := S754_nan.

Definition is_inf (x : double) : bool :=
  match x with S754_infinity _ => true | _ => false end.
Definition is_nan (x : double) : bool :=
  match x with S754_nan => true | _ => false end.
Definition is_finite (x : double) : bool :=
  match x with S754_zero _ | S754_finite _ _ _ => true | _ => false end.
Definition is_zero (x : double) : bool :=
  match x with S754_zero _ => true | _ => false end.

Definition sign (x : double) : bool :=
  match x with
  | S754_zero s | S754_infinity s | S754_finite s _ _ => s
  | S754_nan => false
  end.

(** [copysign(x, y)] *)
Definition copysign (x y : double) : double :=
  if sign y then SFopp (SFabs x) else SFabs x.

Record complex : Type := mkComplex { re : double; im : double }.

(** conversion of a [double] to [double complex] *)
Definition of_double (x : double) : complex := mkComplex x zero.

(** [_Complex_I] *)
Definition Complex_I : complex := mkComplex zero one.

Definition cadd (z w : complex) : complex :=
  mkComplex (dadd (re z) (re w)) (dadd (im z) (im w)).
Definition csub (z w : complex) : complex :=
  mkComplex (dsub (re z) (re w)) (dsub (im z) (im w)).
Definition cneg (z : complex) : complex :=
  mkComplex (dneg (re z)) (dneg (im z)).

(** C99, G.5.1: [(a + ib) * (c + id)]. *)
Definition cmul (z w : complex) : complex :=
  let a := re z in
  let b := im z in
  let c := re w in
  let d := im w in
  let ac := dmul a c in
  let bd := dmul b d in
  let ad := dmul a d in
  let bc := dmul b c in
  let x := dsub ac bd in
  let y := dadd ad bc in
  if is_nan x && is_nan y then
    let box v := copysign (if is_inf v then one else zero) v in
    let unnan v := if is_nan v then copysign zero v else v in
    (* the first factor is infinite *)
    let r1 := is_inf a || is_inf b in
    let a1 := if r1 then box a else a in
    let b1 := if r1 then box b else b in
    let c1 := if r1 then unnan c else c in
    let d1 := if r1 then unnan d else d in
    (* the second factor is infinite *)
    let r2 := is_inf c1 || is_inf d1 in
    let c2 := if r2 then box c1 else c1 in
    let d2 := if r2 then box d1 else d1 in
    let a2 := if r2 then unnan a1 else a1 in
    let b2 := if r2 then unnan b1 else b1 in
    (* an intermediate product has overflowed *)
    let r3 := negb (r1 || r2) &&
              (is_inf ac || is_inf bd || is_inf ad || is_inf bc) in
    let a3 := if r3 then unnan a2 else a2 in
    let b3 := if r3 then unnan b2 else b2 in
    let c3 := if r3 then unnan c2 else c2 in
    let d3 := if r3 then unnan d2 else d2 in
    if r1 || r2 || r3 then
      mkComplex (dmul infinity (dsub (dmul a3 c3) (dmul b3 d3)))
                (dmul infinity (dadd (dmul a3 d3) (dmul b3 c3)))
    else mkComplex x y
  else mkComplex x y.

(** [exp], [cos] and [sin] of [libc.math]. *)
Record libm : Type := mkLibm {
  m_exp : double -> double;
  m_cos : double -> double;
  m_sin : double -> double
}.

(** What is used of them: the values at the zeros that C99, F.9
    prescribes, [exp(+-0) = 1], [cos(+-0) = 1] and [sin(+-0) = +-0], and the
    overflow and the underflow of [exp], rounded to nearest: [exp x] is
    [+inf] from 710 on, as [exp 710 > 2^1024], and [+0] up to -746, as
    [exp (-746) < 2^-1075]. *)
Definition libm_ok (M : libm) : Prop :=
  (forall x, SFleb (of_Z 710) x = true -> m_exp M x = infinity) /\
  (forall x, SFleb x (of_Z (-746)) = true -> m_exp M x = zero) /\
  (forall s, m_exp M (S754_zero s) = one) /\
  (forall s, m_cos M (S754_zero s) = one) /\
  (forall s, m_sin M (S754_zero s) = S754_zero s).

(** A [libm] with the prescribed values written out; for a [libm] that
    satisfies [libm_ok] it is that [libm]. *)
Definition at_special_values (M : libm) : libm :=
  mkLibm (fun x => if SFleb (of_Z 710) x then infinity
                   else if SFleb x (of_Z (-746)) then zero
                   else match x with
                        | S754_zero _ => one
                        | _ => m_exp M x
                        end)
         (fun y => match y with
                   | S754_zero _ => one
                   | _ => m_cos M y
                   end)
         (fun y => match y with
                   | S754_zero s => S754_zero s
                   | _ => m_sin M y
                   end).

(** [cexp], line for line. *)
Definition cexp (M : libm) (z : complex) : complex :=
  cmul (of_double (m_exp M (re z)))
       (cadd (of_double (m_cos M (im z)))
             (cmul Complex_I (of_double (m_sin M (im z))))).

Definition arith_of (M : libm) : arith :=
  @mkArith double (fun _ => complex) zero one dadd dsub dmul
           (fun _ => of_double zero) (fun _ => cadd) (fun _ => csub) cneg
           (fun _ z y => cmul z (of_double y)) (cexp M) cmul.

(** A part that is a zero or NaN, a complex number whose two parts are. *)
Definition zero_or_nan_part (x : double) : bool := is_zero x || is_nan x.
Definition zero_or_nan (z : complex) : bool :=
  zero_or_nan_part (re z) && zero_or_nan_part (im z).

Definition czero (z : complex) : bool := is_zero (re z) && is_zero (im z).
Definition cfinite (z : complex) : bool := is_finite (re z) && is_finite (im z).
Definition cnan (z : complex) : bool := is_nan (re z) && is_nan (im z).

(** [voltage_plane_wave] on doubles. *)
Definition voltage_plane_wave (M : libm)
           (nodes : memview double) (triangle_nodes : memview Z)
           (basis_tri_p basis_tri_m basis_node_p basis_node_m : memview Z)
           (xi_eta_eval weights : memview double)
           (e_inc jk_inc : memview complex)
           (nt : Z) (nodes_p_storage : list double)
           (sched_tri : list (nat * Z)) (sched_basis : list nat)
  : option (list complex) :=
  Gen.voltage_plane_wave (arith_of M) nodes triangle_nodes
    basis_tri_p basis_tri_m basis_node_p basis_node_m
    xi_eta_eval weights e_inc jk_inc nt nodes_p_storage sched_tri sched_basis.

End Ieee.

(* ================================================================= *)
(** ** Two runs of the program, side by side *)

(** Two results that are both undefined, or both defined and related. *)
Definition option_rel {X Y : Type} (P : X -> Y -> Prop)
           (o : option X) (o' : option Y) : Prop :=
  match o, o' with
  | Some x, Some y => P x y
  | None, None => True
  | _, _ => False
  end.

(** Two memoryviews of one layout with related cells. *)
Definition mv_rel {X Y : Type} (P : X -> Y -> Prop)
           (a : memview X) (a' : memview Y) : Prop :=
  mv_view a = mv_view a' /\ Forall2 P (mv_buf a) (mv_buf a').

(** Two arrays of one layout: the same view over buffers of one length. *)
Definition same_shape {X Y : Type} (a : memview X) (a' : memview Y) : Prop :=
  mv_rel (fun _ _ => True) a a'.

(** A relation between the values of two arithmetics that every operation
    preserves. *)
Definition ops_related (A1 A2 : arith) (RD : dbl A1 -> dbl A2 -> Prop)
           (RK : forall r, cpx A1 r -> cpx A2 r -> Prop) : Prop :=
  RD (d_zero A1) (d_zero A2) /\
  RD (d_one A1) (d_one A2) /\
  (forall x x' y y', RD x x' -> RD y y' -> RD (d_add A1 x y) (d_add A2 x' y')) /\
  (forall x x' y y', RD x x' -> RD y y' -> RD (d_sub A1 x y) (d_sub A2 x' y')) /\
  (forall x x' y y', RD x x' -> RD y y' -> RD (d_mul A1 x y) (d_mul A2 x' y')) /\
  (forall r, RK r (c_zero A1 r) (c_zero A2 r)) /\
  (forall r x x' y y', RK r x x' -> RK r y y' ->
     RK r (c_add A1 r x y) (c_add A2 r x' y')) /\
  (forall r x x' y y', RK r x x' -> RK r y y' ->
     RK r (c_sub A1 r x y) (c_sub A2 r x' y')) /\
  (forall x x', RK Phase x x' -> RK Phase (c_neg A1 x) (c_neg A2 x')) /\
  (forall r x x' y y', RK r x x' -> RD y y' ->
     RK r (c_mul_d A1 r x y) (c_mul_d A2 r x' y')) /\
  (forall x x', RK Phase x x' -> RK Phase (c_exp A1 x) (c_exp A2 x')) /\
  (forall p p' f f', RK Phase p p' -> RK Field f f' ->
     RK Field (c_mul A1 p f) (c_mul A2 p' f')).

(** The scratch storage and [V_face] of two runs. *)
Definition state_rel (A1 A2 : arith) (RD : dbl A1 -> dbl A2 -> Prop)
           (RK : forall r, cpx A1 r -> cpx A2 r -> Prop)
           (st : list (dbl A1) * list (cpx A1 Field))
           (st' : list (dbl A2) * list (cpx A2 Field)) : Prop :=
  Forall2 RD (fst st) (fst st') /\ Forall2 (RK Field) (snd st) (snd st').

(** The relation that follows a zero field through a run on doubles, next to
    any run on the reals: nothing is said of a double or of a phase, and a
    field value on the doubles has parts that are zeros or NaN. *)
Definition any_double (x : Ieee.double) (y : R) : Prop := True.
Definition zero_field (r : role) (z : Ieee.complex) (w : C) : Prop :=
  match r with
  | Phase => True
  | Field => Ieee.zero_or_nan z = true
  end.

(** Nothing is said of any value: the two runs only go the same way. *)
Definition any_complex (r : role) (z : Ieee.complex) (w : C) : Prop := True.

(* ================================================================= *)
(** ** Further concrete data *)

Module Cases.

(** The triangle [Plate.tri_x] moved by the vector (1, 2, 0). *)
Definition shift (b : nat) : R :=
  match b with 0%nat => 1%R | 1%nat => 2%R | _ => 0%R end.
Definition tri_x_shifted : memview R :=
  mv_c [3; 3]%Z [2; 2; 0;  1; 2; 0;  1; 3; 0]%R.

(** The field amplitude [Plate.e_inc] multiplied by [j]. *)
Definition e_inc_j : memview C := mv_c [3%Z] [Ci; C0; C0].

(** The two one-point rules [Plate.xi_eta_node0] and [Plate.xi_eta], one
    after the other. *)
Definition xi_eta_both : memview R := mv_c [2; 2]%Z [1; 0;  1 / 3; 1 / 3]%R.
Definition weights_both : memview R := mv_c [2%Z] [1; 1 / 2]%R.

(** Face tensors that are symmetric under the exchange of observer and
    source: [vector_face[p, q, i, j] = vector_face[q, p, j, i]] and
    [scalar_face[p, q] = scalar_face[q, p]]. *)
Definition sym_cells : list C :=
  map (fun k => RtoC (IZR k))
    [0; 1; 2; 1; 3; 5; 2; 5; 8;
     10; 11; 12; 11; 13; 15; 12; 15; 18;
     10; 11; 12; 11; 13; 15; 12; 15; 18;
     120; 121; 122; 121; 123; 125; 122; 125; 128]%Z.
Definition sym_vector_face : memview C := mv_c [2; 2; 3; 3]%Z sym_cells.
Definition sym_scalar_face : memview C :=
  mv_c [2; 2]%Z [RtoC 1; RtoC 2; RtoC 2; RtoC 3].

(** The combination [j * Plate face + 2 * symmetric face], cell by cell. *)
Definition mix (xy : C * C) : C := (Ci * fst xy + RtoC 2 * snd xy)%C.
Definition mixed_vector_face : memview C :=
  mv_c [2; 2; 3; 3]%Z (map mix (combine (mv_buf Plate.vector_face) sym_cells)).
Definition mixed_scalar_face : memview C :=
  mv_c [2; 2]%Z (map mix (combine (mv_buf Plate.scalar_face)
                                  (mv_buf sym_scalar_face))).

(** A table of two basis functions on the plate; the second one has its
    plus and minus halves on the same triangle and the same node. *)
Definition two_tri_p : memview Z := mv_c [2%Z] [0%Z; 1%Z].
Definition two_tri_m : memview Z := mv_c [2%Z] [1%Z; 1%Z].
Definition two_node_p : memview Z := mv_c [2%Z] [1%Z; 2%Z].
Definition two_node_m : memview Z := mv_c [2%Z] [2%Z; 2%Z].
Definition env_two : omp_env :=
  mkEnv 1 (repeat 0%R 9) [(1%nat, 0%Z); (0%nat, 0%Z)] [1%nat; 0%nat].

(** An empty table, and the view of a table of [2^31] entries. *)
Definition no_basis : memview Z := mv_c [0%Z] [].
Definition huge_table : memview Z := mv_c [2147483648%Z] [].

(** A mesh without triangles, and a schedule for it. *)
Definition no_triangles : memview Z := mv_c [0; 3]%Z [].
Definition env_no_triangles : omp_env := mkEnv 1 (repeat 0%R 9) [] [0%nat].

(** The nodes of the plate moved by [shift]. *)
Definition nodes_shifted : memview R :=
  mv_c [4; 3]%Z [1; 2; 0;  2; 2; 0;  2; 3; 0;  1; 3; 0]%R.

(** The nodes of the plate with node 1, a corner of triangle 0 only, moved;
    and a basis function with both halves on triangle 1. *)
Definition nodes_moved : memview R :=
  mv_c [4; 3]%Z [0; 0; 0;  1; -1; 0;  1; 1; 0;  0; 1; 0]%R.
Definition inner_tri : memview Z := mv_c [1%Z] [1%Z].
Definition inner_node_p : memview Z := mv_c [1%Z] [1%Z].
Definition inner_node_m : memview Z := mv_c [1%Z] [2%Z].

(** A table of two basis functions across the diagonal of the plate, and
    the same table with the plus and minus data of function 0 exchanged. *)
Definition pair_tri_p : memview Z := mv_c [2%Z] [0%Z; 1%Z].
Definition pair_tri_m : memview Z := mv_c [2%Z] [1%Z; 0%Z].
Definition pair_node_p : memview Z := mv_c [2%Z] [1%Z; 0%Z].
Definition pair_node_m : memview Z := mv_c [2%Z] [2%Z; 1%Z].
Definition pair_swapped_tri_p : memview Z := mv_c [2%Z] [1%Z; 1%Z].
Definition pair_swapped_tri_m : memview Z := mv_c [2%Z] [0%Z; 0%Z].
Definition pair_swapped_node_p : memview Z := mv_c [2%Z] [2%Z; 0%Z].
Definition pair_swapped_node_m : memview Z := mv_c [2%Z] [1%Z; 1%Z].
Definition env_pair : omp_env :=
  mkEnv 2 (repeat 7%R 18) [(1%nat, 1%Z); (0%nat, 0%Z)] [0%nat; 1%nat].

(** A coarse [libm]: right at zero, at the infinities and where [exp]
    overflows or underflows, and constant in between. *)
Definition exp_coarse (x : Ieee.double) : Ieee.double :=
  if SFleb (Ieee.of_Z 710) x then Ieee.infinity
  else if SFleb x (Ieee.of_Z (-746)) then Ieee.zero
  else if Ieee.is_nan x then Ieee.nan
  else Ieee.one.
Definition cos_coarse (x : Ieee.double) : Ieee.double :=
  if Ieee.is_finite x then Ieee.one else Ieee.nan.
Definition sin_coarse (x : Ieee.double) : Ieee.double :=
  match x with
  | S754_zero s => S754_zero s
  | S754_finite _ _ _ => Ieee.zero
  | _ => Ieee.nan
  end.
Definition libm_coarse : Ieee.libm :=
  Ieee.mkLibm exp_coarse cos_coarse sin_coarse.

(** The plate in doubles, a zero field, and the wave vector
    [jk_inc = (-2000, 0, 0)]: the field grows like [exp(2000 x)]. *)
Definition nodes_d : memview Ieee.double :=
  mv_c [4; 3]%Z (map Ieee.of_Z [0; 0; 0;  1; 0; 0;  1; 1; 0;  0; 1; 0]%Z).
Definition third : Ieee.double := Ieee.ddiv (Ieee.of_Z 1) (Ieee.of_Z 3).
Definition half : Ieee.double := Ieee.ddiv (Ieee.of_Z 1) (Ieee.of_Z 2).
Definition xi_eta_d : memview Ieee.double := mv_c [1; 2]%Z [third; third].
Definition weights_d : memview Ieee.double := mv_c [1%Z] [half].
Definition e_zero_d : memview Ieee.complex :=
  mv_c [3%Z] (repeat (Ieee.of_double Ieee.zero) 3).
Definition jk_growing_d : memview Ieee.complex :=
  mv_c [3%Z] [Ieee.of_double (Ieee.of_Z (-2000));
              Ieee.of_double Ieee.zero; Ieee.of_double Ieee.zero].
Definition jk_inc_d : memview Ieee.complex :=
  mv_c [3%Z] [Ieee.of_double Ieee.zero; Ieee.of_double Ieee.zero;
              Ieee.Complex_I].
Definition junk_d : list Ieee.double := repeat (Ieee.of_Z 7) 18.
(** The field amplitude (1, 0, 0) in doubles. *)
Definition e_unit_d : memview Ieee.complex :=
  mv_c [3%Z] [Ieee.of_double Ieee.one; Ieee.of_double Ieee.zero;
              Ieee.of_double Ieee.zero].

End Cases.

(* ================================================================= *)
(** * Proofs *)

Unset Implicit Arguments.

(** ** Loops *)

Lemma bind_some {A B : Type} {o : option A} {k : A -> option B} {a : A} :
  o = Some a -> bind o k = k a.
Proof. intros ->. reflexivity. Qed.

(** Total-correctness rule for a loop over a list: the invariant is indexed
    by the iterations already done. *)
Lemma foldM_inv {S X : Type} (P : list X -> S -> Prop)
      (body : X -> S -> option S) (l : list X) (s : S) :
  P [] s ->
  (forall done x t, (exists rest, l = done ++ x :: rest) -> P done t ->
     exists t', body x t = Some t' /\ P (done ++ [x]) t') ->
  exists s', foldM body l s = Some s' /\ P l s'.
Proof.
  intros H0 Hstep.
  assert (G : forall todo done t, l = done ++ todo -> P done t ->
              exists s', foldM body todo t = Some s' /\ P l s').
  { induction todo as [|x todo IH]; intros done t El HP.
    - rewrite app_nil_r in El. subst done. exists t. split; [reflexivity|assumption].
    - destruct (Hstep done x t) as [t' [Eb HP']]; [exists todo; exact El|exact HP|].
      simpl. rewrite Eb. simpl.
      apply (IH (done ++ [x])); [|exact HP'].
      rewrite <- app_assoc. exact El. }
  apply (G l [] s); [reflexivity|exact H0].
Qed.

Lemma seq_split_at (a n : nat) (done rest : list nat) (x : nat) :
  seq a n = done ++ x :: rest -> x = (a + length done)%nat /\ (length done < n)%nat.
Proof.
  intros E.
  assert (L : length (seq a n) = length (done ++ x :: rest)) by (rewrite E; reflexivity).
  rewrite length_seq, length_app in L. simpl in L.
  assert (Hn : nth_error (seq a n) (length done) = Some x).
  { rewrite E. rewrite nth_error_app2 by lia. rewrite Nat.sub_diag. reflexivity. }
  apply nth_error_nth with (d := 0%nat) in Hn.
  rewrite seq_nth in Hn by lia. split; lia.
Qed.

(** Total-correctness rule for [for k in range(n)]. *)
Lemma for_range_inv {S : Type} (P : nat -> S -> Prop)
      (n : nat) (body : nat -> S -> option S) (s : S) :
  P 0%nat s ->
  (forall k t, (k < n)%nat -> P k t ->
     exists t', body k t = Some t' /\ P (Datatypes.S k) t') ->
  exists s', for_range n body s = Some s' /\ P n s'.
Proof.
  intros H0 Hstep. unfold for_range.
  destruct (foldM_inv (fun done t => P (length done) t) body (seq 0 n) s) as [s' [E HP]].
  - exact H0.
  - intros done x t [rest El] HP.
    destruct (seq_split_at _ _ _ _ _ El) as [-> Hlt]. simpl.
    destruct (Hstep (length done) t Hlt HP) as [t' [Eb HP']].
    exists t'. split; [exact Eb|].
    rewrite length_app. simpl. rewrite Nat.add_1_r. exact HP'.
  - exists s'. split; [exact E|]. rewrite length_seq in HP. exact HP.
Qed.

(** ** Machine integers *)

Lemma c_int_small (z : Z) : (0 <= z < 2147483648)%Z -> c_int z = z.
Proof.
  intros H. unfold c_int. rewrite Z.mod_small by lia. lia.
Qed.

(** ** Buffers *)

Lemma list_set_length {A : Type} (l : list A) (k : nat) (x : A) :
  length (list_set l k x) = length l.
Proof.
  revert k; induction l as [|y l IH]; intros [|k]; simpl; auto.
Qed.

Lemma nth_error_list_set_eq {A : Type} (l : list A) (k : nat) (x : A) :
  (k < length l)%nat -> nth_error (list_set l k x) k = Some x.
Proof.
  revert k; induction l as [|y l IH]; intros [|k] H; simpl in *; try lia; auto.
  apply IH. lia.
Qed.

Lemma nth_error_list_set_neq {A : Type} (l : list A) (k j : nat) (x : A) :
  j <> k -> nth_error (list_set l k x) j = nth_error l j.
Proof.
  revert k j; induction l as [|y l IH]; intros [|k] [|j] H; simpl; auto; try lia.
Qed.

Lemma nth_list_set_eq {A : Type} (l : list A) (k : nat) (x d : A) :
  (k < length l)%nat -> nth k (list_set l k x) d = x.
Proof.
  intros H. apply nth_error_nth. apply nth_error_list_set_eq. exact H.
Qed.

Lemma nth_list_set_neq {A : Type} (l : list A) (k j : nat) (x d : A) :
  j <> k -> nth j (list_set l k x) d = nth j l d.
Proof.
  revert k j; induction l as [|y l IH]; intros [|k] [|j] H; simpl; auto; try lia.
Qed.

Lemma list_ext_nth_error {A : Type} (l1 l2 : list A) :
  length l1 = length l2 ->
  (forall m, (m < length l1)%nat -> nth_error l1 m = nth_error l2 m) ->
  l1 = l2.
Proof.
  revert l2. induction l1 as [|x l1 IH]; intros [|y l2] Hl H; simpl in Hl;
    try discriminate; [reflexivity|].
  f_equal.
  - specialize (H 0%nat ltac:(simpl; lia)). simpl in H. congruence.
  - apply IH; [lia|]. intros m Hm. apply (H (S m)). simpl. lia.
Qed.

Lemma list_ext_nth {A : Type} (d : A) (l1 l2 : list A) :
  length l1 = length l2 ->
  (forall m, (m < length l1)%nat -> nth m l1 d = nth m l2 d) ->
  l1 = l2.
Proof.
  intros Hl H. apply list_ext_nth_error; [exact Hl|].
  intros m Hm. rewrite (nth_error_nth' l1 d Hm).
  rewrite (nth_error_nth' l2 d) by lia. f_equal. apply H. exact Hm.
Qed.

Lemma buf_read_some {A : Type} (buf : list A) (off : Z) :
  (0 <= off < Z.of_nat (length buf))%Z -> exists x, buf_read buf off = Some x.
Proof.
  intros H. unfold buf_read.
  destruct (off <? 0)%Z eqn:E; [apply Z.ltb_lt in E; lia|].
  destruct (nth_error buf (Z.to_nat off)) eqn:En; [eauto|].
  apply nth_error_None in En. lia.
Qed.

Lemma buf_read_nth {A : Type} (buf : list A) (k : nat) :
  buf_read buf (Z.of_nat k) = nth_error buf k.
Proof.
  unfold buf_read. destruct (Z.of_nat k <? 0)%Z eqn:E; [apply Z.ltb_lt in E; lia|].
  rewrite Nat2Z.id. reflexivity.
Qed.

Lemma buf_write_some {A : Type} (buf : list A) (off : Z) (x : A) :
  (0 <= off < Z.of_nat (length buf))%Z ->
  buf_write buf off x = Some (list_set buf (Z.to_nat off) x).
Proof.
  intros H. unfold buf_write.
  destruct (0 <=? off)%Z eqn:E1; [|apply Z.leb_gt in E1; lia].
  destruct (off <? Z.of_nat (length buf))%Z eqn:E2; [|apply Z.ltb_ge in E2; lia].
  reflexivity.
Qed.

(** ** Well-formed memoryviews *)

Lemma dot_idx_span (shp : list Z) :
  forall strides idx, length strides = length shp -> in_shape shp idx ->
    (span_lo shp strides <= dot_idx idx strides <= span_hi shp strides)%Z.
Proof.
  induction shp as [|n shp IH]; intros strides idx Hl Hin.
  - destruct idx; simpl in Hin; [|contradiction].
    destruct strides; simpl in *; lia.
  - destruct idx as [|i idx]; simpl in Hin; [contradiction|].
    destruct strides as [|s strides]; simpl in Hl; [discriminate|].
    destruct Hin as [Hi Hin]. injection Hl as Hl.
    specialize (IH strides idx Hl Hin). simpl.
    assert (Z.min 0 ((n - 1) * s) <= i * s <= Z.max 0 ((n - 1) * s))%Z.
    { destruct (Z.le_gt_cases 0 s).
      - rewrite Z.min_l, Z.max_r by nia. nia.
      - rewrite Z.min_r, Z.max_l by nia. nia. }
    lia.
Qed.

Lemma in_shape_no_zero (shp idx : list Z) :
  in_shape shp idx -> existsb (fun n => (n =? 0)%Z) shp = false.
Proof.
  revert idx; induction shp as [|n shp IH]; intros idx H; simpl; [reflexivity|].
  destruct idx as [|i idx]; simpl in H; [contradiction|].
  destruct H as [Hi H]. rewrite (IH idx H).
  destruct (n =? 0)%Z eqn:E; [apply Z.eqb_eq in E; lia|reflexivity].
Qed.

Lemma mv_okb_get {A : Type} (nd : nat) (a : memview A) (idx : list Z) :
  mv_okb nd a = true -> in_shape (v_shape (mv_view a)) idx ->
  exists x, mv_get a idx = Some x.
Proof.
  unfold mv_okb. intros H Hin.
  apply andb_prop in H as [H Hspan].
  apply andb_prop in H as [H Hall].
  apply andb_prop in H as [Hl1 Hl2].
  apply Nat.eqb_eq in Hl1, Hl2.
  rewrite (in_shape_no_zero _ _ Hin) in Hspan. simpl in Hspan.
  apply andb_prop in Hspan as [Hlo Hhi].
  apply Z.leb_le in Hlo. apply Z.ltb_lt in Hhi.
  assert (Hd := dot_idx_span (v_shape (mv_view a)) (v_strides (mv_view a)) idx
                  ltac:(congruence) Hin).
  unfold mv_get. apply buf_read_some. unfold offset. lia.
Qed.

Lemma mv_okb_shape {A : Type} (nd : nat) (a : memview A) (k : nat) :
  mv_okb nd a = true -> (0 <= shape (mv_view a) k < 2147483648)%Z.
Proof.
  unfold mv_okb. intros H.
  apply andb_prop in H as [H _]. apply andb_prop in H as [_ Hall].
  rewrite forallb_forall in Hall. unfold shape.
  destruct (nth_in_or_default k (v_shape (mv_view a)) 0%Z) as [Hin|Hd]; [|rewrite Hd; lia].
  specialize (Hall _ Hin). apply andb_prop in Hall as [H1 H2].
  apply Z.leb_le in H1. apply Z.ltb_lt in H2. lia.
Qed.

Lemma mv_okb_dims {A : Type} (nd : nat) (a : memview A) :
  mv_okb nd a = true -> length (v_shape (mv_view a)) = nd.
Proof.
  unfold mv_okb. intros H.
  apply andb_prop in H as [H _]. apply andb_prop in H as [H _].
  apply andb_prop in H as [H _]. apply Nat.eqb_eq in H. exact H.
Qed.

Lemma mv_at_get {A : Type} (d : A) (a : memview A) (idx : list Z) :
  mv_get a idx <> None -> mv_get a idx = Some (mv_at d a idx).
Proof.
  unfold mv_at. destruct (mv_get a idx); [reflexivity|congruence].
Qed.

(** ** Matrices *)

Lemma np_empty2_dims (junk : nat -> nat -> C) (r c : nat) :
  mat_dims (np_empty2 junk r c) r c.
Proof.
  unfold mat_dims, np_empty2. split.
  - rewrite length_map, length_seq. reflexivity.
  - apply Forall_forall. intros row Hin. apply in_map_iff in Hin as [i [<- _]].
    rewrite length_map, length_seq. reflexivity.
Qed.

Lemma mat_dims_row (M : matrix) (r c m : nat) :
  mat_dims M r c -> (m < r)%nat -> length (nth m M []) = c.
Proof.
  intros [Hl Hall] Hm. rewrite Forall_forall in Hall.
  apply Hall. apply nth_In. lia.
Qed.

Lemma Forall_list_set {A : Type} (P : A -> Prop) (l : list A) (k : nat) (x : A) :
  Forall P l -> P x -> Forall P (list_set l k x).
Proof.
  intros Hl Hx. revert k. induction Hl as [|y l Hy Hl IH]; intros [|k]; simpl; auto.
Qed.

Lemma mat_set_dims (M : matrix) (r c m n : nat) (x : C) :
  mat_dims M r c -> (m < r)%nat -> mat_dims (mat_set M m n x) r c.
Proof.
  intros HM Hm. pose proof (mat_dims_row M r c m HM Hm) as Hrow.
  destruct HM as [Hl Hall]. unfold mat_set. split.
  - rewrite list_set_length. exact Hl.
  - apply Forall_list_set; [exact Hall|]. rewrite list_set_length. exact Hrow.
Qed.

Lemma mat_get_set_eq (M : matrix) (r c m n : nat) (x : C) :
  mat_dims M r c -> (m < r)%nat -> (n < c)%nat ->
  mat_get (mat_set M m n x) m n = x.
Proof.
  intros HM Hm Hn. pose proof (mat_dims_row M r c m HM Hm) as Hrow.
  destruct HM as [Hl _]. unfold mat_get, mat_set.
  rewrite nth_list_set_eq by lia. apply nth_list_set_eq. lia.
Qed.

Lemma mat_get_set_neq (M : matrix) (r c m n i j : nat) (x : C) :
  mat_dims M r c -> (m < r)%nat -> (i <> m \/ j <> n) ->
  mat_get (mat_set M m n x) i j = mat_get M i j.
Proof.
  intros [Hl _] Hm Hne. unfold mat_get, mat_set.
  destruct (Nat.eq_dec i m) as [->|Hi].
  - rewrite nth_list_set_eq by lia. apply nth_list_set_neq. lia.
  - rewrite nth_list_set_neq by exact Hi. reflexivity.
Qed.

(** ** The converter computes the signed combination *)

Section ConverterProofs.

Variables tp tm np nm : memview Z.
Variables vf sf : memview C.

Local Abbreviation B := (num_basis tp).

Hypothesis B_int : (0 <= shape (mv_view tp) 0 < 2147483648)%Z.
Hypothesis Htab : table_reads_ok tp tm np nm.
Hypothesis Hface : face_reads_ok tp tm np nm vf sf.

Local Abbreviation rwg_inv := (rwg_invariant tp tm np nm vf sf).

Lemma rwg_inner_step (m n : nat) (st : matrix * matrix) :
  (m < B)%nat -> (n < B)%nat -> rwg_inv m n st ->
  exists st',
    rwg_inner tp tm np nm vf sf m (tri_plus tp m) (tri_minus tm m)
              (node_plus np m) (node_minus nm m) n st = Some st'
    /\ rwg_inv m (S n) st'.
Proof.
  intros Hm Hn [Hdv [Hds Hdone]]. destruct st as [vr sr]. simpl in Hdv, Hds, Hdone.
  destruct (Htab n Hn) as [T1 [T2 [T3 T4]]].
  assert (F : forall p i, (p, i) = (tri_plus tp m, node_plus np m) \/
                          (p, i) = (tri_minus tm m, node_minus nm m) ->
              forall q j, (q, j) = (tri_plus tp n, node_plus np n) \/
                          (q, j) = (tri_minus tm n, node_minus nm n) ->
              mv_get vf [p; q; i; j] = Some (vface vf p q i j) /\
              mv_get sf [p; q] = Some (sface sf p q)).
  { intros p i Hp q j Hq. destruct (Hface m n Hm Hn p i Hp q j Hq) as [F1 F2].
    split; apply mv_at_get; assumption. }
  unfold rwg_inner. cbv beta iota.
  rewrite (bind_some (mv_at_get 0%Z _ _ T1)).
  rewrite (bind_some (mv_at_get 0%Z _ _ T2)).
  rewrite (bind_some (mv_at_get 0%Z _ _ T3)).
  rewrite (bind_some (mv_at_get 0%Z _ _ T4)).
  fold (tri_plus tp n) (tri_minus tm n) (node_plus np n) (node_minus nm n).
  rewrite (bind_some (proj1 (F _ _ (or_introl eq_refl) _ _ (or_introl eq_refl)))).
  rewrite (bind_some (proj1 (F _ _ (or_introl eq_refl) _ _ (or_intror eq_refl)))).
  rewrite (bind_some (proj1 (F _ _ (or_intror eq_refl) _ _ (or_introl eq_refl)))).
  rewrite (bind_some (proj1 (F _ _ (or_intror eq_refl) _ _ (or_intror eq_refl)))).
  rewrite (bind_some (proj2 (F _ _ (or_intror eq_refl) _ _ (or_introl eq_refl)))).
  rewrite (bind_some (proj2 (F _ _ (or_intror eq_refl) _ _ (or_intror eq_refl)))).
  rewrite (bind_some (proj2 (F _ _ (or_introl eq_refl) _ _ (or_introl eq_refl)))).
  rewrite (bind_some (proj2 (F _ _ (or_introl eq_refl) _ _ (or_intror eq_refl)))).
  eexists. split; [reflexivity|].
  split; [|split]; simpl.
  - apply mat_set_dims; assumption.
  - apply mat_set_dims; assumption.
  - intros i j Hi Hj Hij.
    destruct (Nat.eq_dec i m) as [->|Hne]; [destruct (Nat.eq_dec j n) as [->|Hne]|].
    + rewrite (mat_get_set_eq vr B B), (mat_get_set_eq sr B B) by assumption.
      split; reflexivity.
    + rewrite (mat_get_set_neq vr B B), (mat_get_set_neq sr B B) by (auto; lia).
      apply Hdone; lia.
    + rewrite (mat_get_set_neq vr B B), (mat_get_set_neq sr B B) by (auto; lia).
      apply Hdone; lia.
Qed.

Lemma rwg_outer_step (m : nat) (st : matrix * matrix) :
  (m < B)%nat -> rwg_inv m 0 st ->
  exists st', rwg_outer tp tm np nm vf sf B m st = Some st' /\ rwg_inv (S m) 0 st'.
Proof.
  intros Hm Hinv. destruct (Htab m Hm) as [T1 [T2 [T3 T4]]].
  unfold rwg_outer.
  rewrite (bind_some (mv_at_get 0%Z _ _ T1)).
  rewrite (bind_some (mv_at_get 0%Z _ _ T2)).
  rewrite (bind_some (mv_at_get 0%Z _ _ T3)).
  rewrite (bind_some (mv_at_get 0%Z _ _ T4)).
  fold (tri_plus tp m) (tri_minus tm m) (node_plus np m) (node_minus nm m).
  destruct (for_range_inv (rwg_inv m) B
              (rwg_inner tp tm np nm vf sf m (tri_plus tp m) (tri_minus tm m)
                         (node_plus np m) (node_minus nm m)) st Hinv)
    as [st' [E Hst']].
  - intros k t Hk Ht. apply rwg_inner_step; assumption.
  - exists st'. split; [exact E|].
    destruct Hst' as [Hdv [Hds Hdone]].
    split; [exact Hdv|split; [exact Hds|]].
    intros i j Hi Hj Hij. apply Hdone; lia.
Qed.

Lemma triangle_face_to_rwg_char (junk_v junk_s : nat -> nat -> C) :
  exists vector_rwg scalar_rwg,
    triangle_face_to_rwg tp tm np nm vf sf junk_v junk_s
      = Some (vector_rwg, scalar_rwg)
    /\ mat_dims vector_rwg B B /\ mat_dims scalar_rwg B B
    /\ forall m n, (m < B)%nat -> (n < B)%nat ->
         mat_get vector_rwg m n = vector_rwg_spec tp tm np nm vf m n /\
         mat_get scalar_rwg m n = scalar_rwg_spec tp tm sf m n.
Proof.
  unfold triangle_face_to_rwg. rewrite (c_int_small _ B_int).
  destruct (shape (mv_view tp) 0 <? 0)%Z eqn:E; [apply Z.ltb_lt in E; lia|].
  fold (num_basis tp).
  destruct (for_range_inv (fun m => rwg_inv m 0) B
              (rwg_outer tp tm np nm vf sf B)
              (np_empty2 junk_v B B, np_empty2 junk_s B B)) as [[vr sr] [Eq Hfin]].
  - split; [apply np_empty2_dims|split; [apply np_empty2_dims|]].
    intros i j Hi Hj Hij. lia.
  - intros k t Hk Ht. apply rwg_outer_step; assumption.
  - exists vr, sr. split; [exact Eq|].
    destruct Hfin as [Hdv [Hds Hdone]].
    split; [exact Hdv|split; [exact Hds|]].
    intros m n Hm Hn. apply Hdone; lia.
Qed.

End ConverterProofs.

(** ** The converter returns only if every read lands inside its buffer *)

Lemma bind_inv {A B : Type} (o : option A) (k : A -> option B) (y : B) :
  bind o k = Some y -> exists a, o = Some a /\ k a = Some y.
Proof.
  destruct o as [a|]; simpl; [eauto|discriminate].
Qed.

Lemma foldM_some_each {S X : Type} (body : X -> S -> option S) (l : list X) :
  forall s s', foldM body l s = Some s' ->
    forall x, In x l -> exists t t', body x t = Some t'.
Proof.
  induction l as [|x0 l IH]; intros s s' E x Hin; [contradiction|].
  simpl in E. apply bind_inv in E as [t [Eb Ef]].
  destruct Hin as [->|Hin]; [eauto|]. apply (IH t s' Ef x Hin).
Qed.

Lemma mv_at_some {A : Type} (d : A) (a : memview A) (idx : list Z) (x : A) :
  mv_get a idx = Some x -> mv_at d a idx = x.
Proof. unfold mv_at. intros ->. reflexivity. Qed.

Lemma triangle_face_to_rwg_defined_reads
      (tp tm np nm : memview Z) (vf sf : memview C)
      (junk_v junk_s : nat -> nat -> C) (r : matrix * matrix) :
  (0 <= shape (mv_view tp) 0 < 2147483648)%Z ->
  triangle_face_to_rwg tp tm np nm vf sf junk_v junk_s = Some r ->
  table_reads_ok tp tm np nm /\ face_reads_ok tp tm np nm vf sf.
Proof.
  intros HB E. unfold triangle_face_to_rwg in E.
  rewrite (c_int_small _ HB) in E.
  destruct (shape (mv_view tp) 0 <? 0)%Z; [discriminate|].
  fold (num_basis tp) in E. unfold for_range in E.
  assert (Hout : forall m, (m < num_basis tp)%nat ->
            mv_get tp [Z.of_nat m] = Some (tri_plus tp m) /\
            mv_get tm [Z.of_nat m] = Some (tri_minus tm m) /\
            mv_get np [Z.of_nat m] = Some (node_plus np m) /\
            mv_get nm [Z.of_nat m] = Some (node_minus nm m) /\
            forall n, (n < num_basis tp)%nat ->
              exists t t',
                rwg_inner tp tm np nm vf sf m (tri_plus tp m) (tri_minus tm m)
                          (node_plus np m) (node_minus nm m) n t = Some t').
  { intros m Hm.
    destruct (foldM_some_each _ _ _ _ E m) as (t & t' & Em);
      [apply in_seq; lia|].
    unfold rwg_outer in Em.
    apply bind_inv in Em as (p_p & E1 & Em).
    apply bind_inv in Em as (p_m & E2 & Em).
    apply bind_inv in Em as (ip_p & E3 & Em).
    apply bind_inv in Em as (ip_m & E4 & Em).
    unfold tri_plus, tri_minus, node_plus, node_minus.
    rewrite (mv_at_some 0%Z _ _ _ E1), (mv_at_some 0%Z _ _ _ E2),
      (mv_at_some 0%Z _ _ _ E3), (mv_at_some 0%Z _ _ _ E4).
    repeat (split; [assumption|]).
    intros n Hn. apply (foldM_some_each _ _ _ _ Em n). apply in_seq. lia. }
  split.
  - intros m Hm. destruct (Hout m Hm) as (E1 & E2 & E3 & E4 & _).
    rewrite E1, E2, E3, E4. repeat split; discriminate.
  - intros m n Hm Hn.
    destruct (Hout m Hm) as (_ & _ & _ & _ & Hin).
    destruct (Hout n Hn) as (F1 & F2 & F3 & F4 & _).
    destruct (Hin n Hn) as ([vr sr] & t' & Ei).
    unfold rwg_inner in Ei. rewrite F1, F2, F3, F4 in Ei. cbn [bind] in Ei.
    apply bind_inv in Ei as (v1 & V1 & Ei).
    apply bind_inv in Ei as (v2 & V2 & Ei).
    apply bind_inv in Ei as (v3 & V3 & Ei).
    apply bind_inv in Ei as (v4 & V4 & Ei).
    apply bind_inv in Ei as (s1 & S1 & Ei).
    apply bind_inv in Ei as (s2 & S2 & Ei).
    apply bind_inv in Ei as (s3 & S3 & Ei).
    apply bind_inv in Ei as (s4 & S4 & _).
    intros p i [Ep|Ep] q j [Eq|Eq]; injection Ep as -> ->; injection Eq as -> ->;
      split; congruence.
Qed.

(** ** Complex arithmetic *)

Lemma C_eq (a b : C) : Re a = Re b -> Im a = Im b -> a = b.
Proof. destruct a, b. simpl. intros -> ->. reflexivity. Qed.

(** Reduces an equation between complex expressions to two equations between
    real polynomials. *)
Ltac c_ring :=
  apply C_eq;
  unfold Cadd, Csub, Cmul, Copp, RtoC, C0, C1, Ci; cbn [Re Im]; ring.

Lemma Csub_opp_swap (a b : C) : (a - b)%C = (- (b - a))%C.
Proof. c_ring. Qed.

Lemma Csub_diag (a : C) : (a - a)%C = C0.
Proof. c_ring. Qed.

(** ** Reading well-formed views *)

Lemma v_shape1 (v : view) :
  length (v_shape v) = 1%nat -> v_shape v = [shape v 0].
Proof.
  unfold shape. destruct (v_shape v) as [|a [|b l]]; simpl; intros H;
    try discriminate. reflexivity.
Qed.

Lemma v_shape2 (v : view) :
  length (v_shape v) = 2%nat -> v_shape v = [shape v 0; shape v 1].
Proof.
  unfold shape. destruct (v_shape v) as [|a [|b [|c l]]]; simpl; intros H;
    try discriminate. reflexivity.
Qed.

Lemma v_shape4 (v : view) :
  length (v_shape v) = 4%nat ->
  v_shape v = [shape v 0; shape v 1; shape v 2; shape v 3].
Proof.
  unfold shape. destruct (v_shape v) as [|a [|b [|c [|d [|e l]]]]]; simpl;
    intros H; try discriminate. reflexivity.
Qed.

Lemma mv_get1 {A : Type} (d : A) (a : memview A) (i : Z) :
  mv_okb 1 a = true -> (0 <= i < shape (mv_view a) 0)%Z ->
  mv_get a [i] = Some (mv_at d a [i]).
Proof.
  intros Hok Hi. apply mv_at_get.
  destruct (mv_okb_get 1 a [i] Hok) as [x Hx]; [|congruence].
  rewrite (v_shape1 _ (mv_okb_dims 1 a Hok)). simpl. auto.
Qed.

Lemma mv_get2 {A : Type} (d : A) (a : memview A) (i j : Z) :
  mv_okb 2 a = true ->
  (0 <= i < shape (mv_view a) 0)%Z -> (0 <= j < shape (mv_view a) 1)%Z ->
  mv_get a [i; j] = Some (mv_at d a [i; j]).
Proof.
  intros Hok Hi Hj. apply mv_at_get.
  destruct (mv_okb_get 2 a [i; j] Hok) as [x Hx]; [|congruence].
  rewrite (v_shape2 _ (mv_okb_dims 2 a Hok)). simpl. auto.
Qed.

Lemma mv_get4 {A : Type} (d : A) (a : memview A) (i j k l : Z) :
  mv_okb 4 a = true ->
  (0 <= i < shape (mv_view a) 0)%Z -> (0 <= j < shape (mv_view a) 1)%Z ->
  (0 <= k < shape (mv_view a) 2)%Z -> (0 <= l < shape (mv_view a) 3)%Z ->
  mv_get a [i; j; k; l] = Some (mv_at d a [i; j; k; l]).
Proof.
  intros Hok Hi Hj Hk Hl. apply mv_at_get.
  destruct (mv_okb_get 4 a [i; j; k; l] Hok) as [x Hx]; [|congruence].
  rewrite (v_shape4 _ (mv_okb_dims 4 a Hok)). simpl. auto.
Qed.

Lemma buf_read_set_eq {A : Type} (buf : list A) (off : Z) (x : A) :
  (0 <= off < Z.of_nat (length buf))%Z ->
  buf_read (list_set buf (Z.to_nat off) x) off = Some x.
Proof.
  intros H. unfold buf_read.
  destruct (off <? 0)%Z eqn:E; [apply Z.ltb_lt in E; lia|].
  apply nth_error_list_set_eq. lia.
Qed.

Lemma buf_read_set_neq {A : Type} (buf : list A) (off off' : Z) (x : A) :
  (0 <= off)%Z -> off' <> off ->
  buf_read (list_set buf (Z.to_nat off) x) off' = buf_read buf off'.
Proof.
  intros H Hne. unfold buf_read.
  destruct (off' <? 0)%Z eqn:E; [reflexivity|]. apply Z.ltb_ge in E.
  apply nth_error_list_set_neq. lia.
Qed.

(** ** The dot product *)

Lemma dot_local3 (e0 e1 e2 : C) (x0 x1 x2 : R) :
  dot_product_complex_real 3 (local_ptr [e0; e1; e2]) (local_ptr [x0; x1; x2])
  = Some (RtoC 0 + e0 * RtoC x0 + e1 * RtoC x1 + e2 * RtoC x2)%C.
Proof. reflexivity. Qed.

Lemma ptr_read_contiguous {A : Type} (d : A) (a : memview A) (c : Z) :
  mv_okb 1 a = true -> v_strides (mv_view a) = [1%Z] ->
  (0 <= c < shape (mv_view a) 0)%Z ->
  ptr_read (mv_ptr a [0%Z]) c = Some (mv_at d a [c]).
Proof.
  intros Hok Hs Hc. rewrite <- (mv_get1 d a c Hok Hc).
  unfold ptr_read, mv_ptr, mv_get, offset. simpl. rewrite Hs. simpl.
  f_equal. lia.
Qed.

Lemma dot_contiguous3 (a : memview C) (x0 x1 x2 : R) :
  mv_okb 1 a = true -> v_strides (mv_view a) = [1%Z] ->
  shape (mv_view a) 0 = 3%Z ->
  dot_product_complex_real 3 (mv_ptr a [0%Z]) (local_ptr [x0; x1; x2])
  = Some (RtoC 0 + mv_at C0 a [0%Z] * RtoC x0 + mv_at C0 a [1%Z] * RtoC x1
          + mv_at C0 a [2%Z] * RtoC x2)%C.
Proof.
  intros Hok Hs H3. unfold dot_product_complex_real, for_range.
  change (seq 0 (Z.to_nat 3)) with [0; 1; 2]%nat. cbn [foldM].
  rewrite !(ptr_read_contiguous C0 a _ Hok Hs) by (rewrite H3; lia).
  reflexivity.
Qed.

(** ** The integrator accumulates the contributions of the quadrature points *)

Lemma offset_1d (I : view) (a : Z) :
  length (v_strides I) = 1%nat ->
  offset I [a] = (v_base I + a * nth 0 (v_strides I) 0)%Z.
Proof.
  unfold offset. destruct (v_strides I) as [|s [|s' l]]; simpl; intros H;
    try discriminate. lia.
Qed.

Section IntegratorProofs.

Variables xi_eta_o weights_o nodes_o : memview R.
Variables jk_inc e_inc : memview C.
Variable I : view.

Hypothesis Hargs : integrator_args_ok xi_eta_o weights_o nodes_o jk_inc e_inc.

Local Abbreviation contrib :=
  (contribution xi_eta_o weights_o nodes_o (e_r xi_eta_o nodes_o jk_inc e_inc)).

Local Abbreviation I_holds := (view_holds I).

Lemma I_offsets_distinct (buf0 : list C) (a b : nat) :
  result_view_ok I buf0 -> (a < 3)%nat -> (b < 3)%nat -> a <> b ->
  offset I [Z.of_nat a] <> offset I [Z.of_nat b].
Proof.
  intros [_ [Hl [Hs _]]] Ha Hb Hab. rewrite !offset_1d by exact Hl. intros E.
  assert (E' : ((Z.of_nat a - Z.of_nat b) * nth 0 (v_strides I) 0 = 0)%Z) by lia.
  apply Z.mul_eq_0 in E'. lia.
Qed.

Lemma r_o_filled (xi eta : R) :
  mapM (fun index_a =>
          n0 <- mv_get nodes_o [0%Z; Z.of_nat index_a] ;;
          n1 <- mv_get nodes_o [1%Z; Z.of_nat index_a] ;;
          n2 <- mv_get nodes_o [2%Z; Z.of_nat index_a] ;;
          Some (xi * n0 + eta * n1 + (1 - eta - xi) * n2)%R) range3
  = Some (map (r_code nodes_o xi eta) range3).
Proof.
  destruct Hargs as (_ & (Hn & Hn0 & Hn1) & _).
  unfold range3. cbn [mapM].
  repeat (rewrite (mv_get2 0%R nodes_o) by (assumption || (cbn; lia)); cbn [bind]).
  reflexivity.
Qed.

Lemma rho_o_filled (r_o : list R) :
  mapM (fun index_a =>
          mapM (fun index_b =>
                  n <- mv_get nodes_o [Z.of_nat index_a; Z.of_nat index_b] ;;
                  Some (nth index_b r_o 0 - n)%R) range3) range3
  = Some (map (fun a => map (fun b => (nth b r_o 0 - node nodes_o a b)%R) range3)
              range3).
Proof.
  destruct Hargs as (_ & (Hn & Hn0 & Hn1) & _).
  unfold range3. cbn [mapM].
  repeat (rewrite (mv_get2 0%R nodes_o) by (assumption || (cbn; lia)); cbn [bind]).
  reflexivity.
Qed.

Lemma e_r_filled (x : C) :
  mapM (fun index_a =>
          e <- mv_get e_inc [Z.of_nat index_a] ;; Some (x * e)%C) range3
  = Some (map (fun a => (x * e_amp e_inc a)%C) range3).
Proof.
  destruct Hargs as (_ & _ & (_ & _ & _ & He & He3)).
  unfold range3. cbn [mapM].
  repeat (rewrite (mv_get1 C0 e_inc) by (assumption || (cbn; lia)); cbn [bind]).
  reflexivity.
Qed.

Lemma jkr_code (xi eta : R) :
  dot_product_complex_real 3 (mv_ptr jk_inc [0%Z])
                           (local_ptr (map (r_code nodes_o xi eta) range3))
  = Some (RtoC 0 + jk jk_inc 0 * RtoC (r_code nodes_o xi eta 0)
          + jk jk_inc 1 * RtoC (r_code nodes_o xi eta 1)
          + jk jk_inc 2 * RtoC (r_code nodes_o xi eta 2))%C.
Proof.
  destruct Hargs as (_ & _ & (Hjk & Hjk3 & Hjks & _)).
  unfold range3. cbn [map].
  rewrite (dot_contiguous3 jk_inc _ _ _ Hjk Hjks Hjk3). reflexivity.
Qed.

(** The loop [for index_a in range(3): I[index_a] += d * w_o]. *)
Lemma accumulate_I (buf0 : list C) (acc : nat -> C) (dpart : nat -> option C)
      (delta : nat -> C) (w : C) (buf : list C) :
  result_view_ok I buf0 -> I_holds buf0 acc buf ->
  (forall a, (a < 3)%nat -> dpart a = Some (delta a)) ->
  exists buf',
    foldM (fun index_a b =>
             d <- dpart index_a ;;
             cur <- buf_read b (offset I [Z.of_nat index_a]) ;;
             buf_write b (offset I [Z.of_nat index_a]) (cur + d * w)%C)
          range3 buf = Some buf' /\
    I_holds buf0 (fun a => acc a + delta a * w)%C buf'.
Proof.
  intros HI [Hlen [Hcells Hrest]] Hd.
  pose proof (I_offsets_distinct buf0) as Hdist.
  assert (Hr : forall a, (a < 3)%nat ->
            (0 <= offset I [Z.of_nat a] < Z.of_nat (length buf0))%Z).
  { intros a Ha. apply HI. lia. }
  unfold range3. cbn [foldM].
  rewrite (bind_some (Hd 0%nat ltac:(lia))).
  rewrite (bind_some (Hcells 0%nat ltac:(lia))).
  rewrite buf_write_some by (rewrite Hlen; apply Hr; lia). cbn [bind].
  rewrite (bind_some (Hd 1%nat ltac:(lia))).
  rewrite buf_read_set_neq
    by (try apply (Hdist 1%nat 0%nat HI); try apply Hr; lia).
  rewrite (bind_some (Hcells 1%nat ltac:(lia))).
  rewrite buf_write_some by (rewrite list_set_length, Hlen; apply Hr; lia).
  cbn [bind].
  rewrite (bind_some (Hd 2%nat ltac:(lia))).
  rewrite !buf_read_set_neq
    by (try apply (Hdist 2%nat 1%nat HI); try apply (Hdist 2%nat 0%nat HI);
        try apply Hr; lia).
  rewrite (bind_some (Hcells 2%nat ltac:(lia))).
  rewrite buf_write_some by (rewrite !list_set_length, Hlen; apply Hr; lia).
  eexists. split; [reflexivity|].
  split; [|split].
  - rewrite !list_set_length. exact Hlen.
  - intros a Ha.
    assert (Ea : a = 0%nat \/ a = 1%nat \/ a = 2%nat) by lia.
    destruct Ea as [-> | [-> | ->]].
    + rewrite !buf_read_set_neq
        by (try apply (Hdist 0%nat 1%nat HI); try apply (Hdist 0%nat 2%nat HI);
            try apply Hr; lia).
      apply buf_read_set_eq. rewrite Hlen. apply Hr. lia.
    + rewrite buf_read_set_neq
        by (try apply (Hdist 1%nat 2%nat HI); try apply Hr; lia).
      apply buf_read_set_eq. rewrite list_set_length, Hlen. apply Hr. lia.
    + apply buf_read_set_eq. rewrite !list_set_length, Hlen. apply Hr. lia.
  - intros j Hj.
    rewrite !nth_error_list_set_neq; [apply Hrest; exact Hj| | |].
    + specialize (Hj 0%nat ltac:(lia)). specialize (Hr 0%nat ltac:(lia)). lia.
    + specialize (Hj 1%nat ltac:(lia)). specialize (Hr 1%nat ltac:(lia)). lia.
    + specialize (Hj 2%nat ltac:(lia)). specialize (Hr 2%nat ltac:(lia)). lia.
Qed.

Lemma quad_point_step (buf0 : list C) (acc : nat -> C) (k : nat) (buf : list C) :
  result_view_ok I buf0 -> (k < n_quad xi_eta_o)%nat -> I_holds buf0 acc buf ->
  exists buf',
    quad_point xi_eta_o weights_o nodes_o jk_inc e_inc I k buf = Some buf' /\
    I_holds buf0 (fun a => acc a + contrib a k)%C buf'.
Proof.
  intros HI Hk Hbuf.
  destruct Hargs as ((Hxi & Hxi2 & Hw & Hwn) & _).
  unfold n_quad in Hk.
  assert (Hk' : (0 <= Z.of_nat k < shape (mv_view xi_eta_o) 0)%Z) by lia.
  unfold quad_point.
  rewrite (bind_some (mv_get1 0%R weights_o (Z.of_nat k) Hw ltac:(lia))).
  rewrite (bind_some (mv_get2 0%R xi_eta_o (Z.of_nat k) 0%Z Hxi Hk' ltac:(lia))).
  rewrite (bind_some (mv_get2 0%R xi_eta_o (Z.of_nat k) 1%Z Hxi Hk' ltac:(lia))).
  fold (q_w weights_o k) (q_xi xi_eta_o k) (q_eta xi_eta_o k).
  rewrite (bind_some (r_o_filled _ _)).
  rewrite (bind_some (rho_o_filled _)).
  rewrite (bind_some (jkr_code _ _)).
  rewrite (bind_some (e_r_filled _)).
  match goal with
  | |- context [foldM (fun index_a buf1 => d <- @?dp index_a ;; _) _ _] =>
      destruct (accumulate_I buf0 acc dp
                  (fun a => match dp a with Some d => d | None => C0 end)
                  (RtoC (q_w weights_o k)) buf HI Hbuf) as [buf' [E Hb]]
  end.
  - intros a Ha. assert (Ea : a = 0%nat \/ a = 1%nat \/ a = 2%nat) by lia.
    destruct Ea as [-> | [-> | ->]]; unfold range3; cbn [map nth];
      rewrite dot_local3; reflexivity.
  - exists buf'. split; [exact E|].
    destruct Hb as [L [Cells Rest]]. split; [exact L|split; [|exact Rest]].
    intros a Ha. rewrite (Cells a Ha). f_equal. f_equal.
    assert (Ejk : (RtoC 0
                   + jk jk_inc 0 * RtoC (r_code nodes_o (q_xi xi_eta_o k) (q_eta xi_eta_o k) 0)
                   + jk jk_inc 1 * RtoC (r_code nodes_o (q_xi xi_eta_o k) (q_eta xi_eta_o k) 1)
                   + jk jk_inc 2 * RtoC (r_code nodes_o (q_xi xi_eta_o k) (q_eta xi_eta_o k) 2))%C
                  = jk_dot_r xi_eta_o nodes_o jk_inc k).
    { unfold jk_dot_r, r_pt, r_code. c_ring. }
    rewrite Ejk.
    assert (Ea : a = 0%nat \/ a = 1%nat \/ a = 2%nat) by lia.
    destruct Ea as [-> | [-> | ->]]; unfold range3; cbn [map nth];
      rewrite dot_local3; unfold contribution, e_r, rho, r_pt, r_code;
      c_ring.
Qed.

Lemma clear_I_char (buf0 : list C) :
  result_view_ok I buf0 ->
  exists buf', clear_I I buf0 = Some buf' /\ I_holds buf0 (fun _ => C0) buf'.
Proof.
  intros HI. pose proof (I_offsets_distinct buf0) as Hdist.
  assert (Hr : forall a, (a < 3)%nat ->
            (0 <= offset I [Z.of_nat a] < Z.of_nat (length buf0))%Z).
  { intros a Ha. apply HI. lia. }
  unfold clear_I, shape. pose proof HI as (HIs & _).
  rewrite HIs. change (Z.to_nat (nth 0 [3%Z] 0%Z)) with 3%nat.
  unfold for_range. cbn [seq foldM].
  rewrite buf_write_some by (apply Hr; lia). cbn [bind].
  rewrite buf_write_some by (rewrite list_set_length; apply Hr; lia). cbn [bind].
  rewrite buf_write_some by (rewrite !list_set_length; apply Hr; lia).
  eexists. split; [reflexivity|].
  split; [|split].
  - rewrite !list_set_length. reflexivity.
  - intros a Ha.
    assert (Ea : a = 0%nat \/ a = 1%nat \/ a = 2%nat) by lia.
    destruct Ea as [-> | [-> | ->]].
    + rewrite !buf_read_set_neq
        by (try apply (Hdist 0%nat 1%nat HI); try apply (Hdist 0%nat 2%nat HI);
            try apply Hr; lia).
      apply buf_read_set_eq. apply Hr. lia.
    + rewrite buf_read_set_neq
        by (try apply (Hdist 1%nat 2%nat HI); try apply Hr; lia).
      apply buf_read_set_eq. rewrite list_set_length. apply Hr. lia.
    + apply buf_read_set_eq. rewrite !list_set_length. apply Hr. lia.
  - intros j Hj.
    rewrite !nth_error_list_set_neq; [reflexivity| | |].
    + specialize (Hj 0%nat ltac:(lia)). specialize (Hr 0%nat ltac:(lia)). lia.
    + specialize (Hj 1%nat ltac:(lia)). specialize (Hr 1%nat ltac:(lia)). lia.
    + specialize (Hj 2%nat ltac:(lia)). specialize (Hr 2%nat ltac:(lia)). lia.
Qed.

Lemma view_holds_trans (buf0 buf1 buf2 : list C) (acc1 acc2 : nat -> C) :
  I_holds buf0 acc1 buf1 -> I_holds buf1 acc2 buf2 -> I_holds buf0 acc2 buf2.
Proof.
  intros [L1 [_ R1]] [L2 [C2 R2]]. split; [congruence|split; [exact C2|]].
  intros j Hj. rewrite (R2 j Hj). apply R1. exact Hj.
Qed.

Lemma result_view_ok_length (buf0 buf1 : list C) :
  length buf1 = length buf0 -> result_view_ok I buf0 -> result_view_ok I buf1.
Proof.
  intros L (H1 & H2 & H3 & H4).
  split; [exact H1|split; [exact H2|split; [exact H3|]]].
  intros a Ha. rewrite L. apply H4. exact Ha.
Qed.

(** The integrator returns, and leaves in the cells of [I] the sums of the
    contributions of all quadrature points. *)
Lemma source_integral_char (buf0 : list C) :
  result_view_ok I buf0 ->
  exists buf',
    source_integral_plane_wave xi_eta_o weights_o nodes_o jk_inc e_inc I buf0
      = Some buf' /\
    I_holds buf0 (integral_spec xi_eta_o weights_o nodes_o jk_inc e_inc) buf'.
Proof.
  intros HI. unfold source_integral_plane_wave.
  destruct (clear_I_char buf0 HI) as [buf1 [E1 H1]]. rewrite E1. cbn [bind].
  assert (HI1 : result_view_ok I buf1).
  { apply (result_view_ok_length buf0); [apply H1|exact HI]. }
  destruct Hargs as ((Hxi & _) & _).
  rewrite (c_int_small _ (mv_okb_shape 2 xi_eta_o 0 Hxi)).
  fold (n_quad xi_eta_o).
  destruct (for_range_inv (fun k => I_holds buf1 (fun a => Csum (contrib a) k))
              (n_quad xi_eta_o)
              (quad_point xi_eta_o weights_o nodes_o jk_inc e_inc I) buf1)
    as [buf' [E Hb]].
  - split; [reflexivity|split; [apply H1|reflexivity]].
  - intros k t Hk Ht. apply (quad_point_step buf1 _ k t HI1 Hk Ht).
  - exists buf'. split; [exact E|].
    apply (view_holds_trans buf0 buf1 buf' _ _ H1 Hb).
Qed.

End IntegratorProofs.

(** ** The assembler: first parallel loop *)

Lemma nodes_p_offset (nt tid m q : Z) :
  offset (nodes_p_view nt) [tid; m; q] = (9 * tid + 3 * m + q)%Z.
Proof.
  unfold offset, nodes_p_view, c_view.
  cbn [dot_idx v_base v_strides v_shape c_strides fold_right nth tl]. lia.
Qed.

Lemma V_face_offset (T p a : Z) :
  offset (V_face_view T) [p; a] = (3 * p + a)%Z.
Proof.
  unfold offset, V_face_view, c_view.
  cbn [dot_idx v_base v_strides v_shape c_strides fold_right nth tl]. lia.
Qed.

Lemma V_face_row_offset (T p a : Z) :
  offset (slice0 (V_face_view T) p) [a] = (3 * p + a)%Z.
Proof.
  unfold offset, slice0, V_face_view, c_view.
  cbn [dot_idx v_base v_strides v_shape c_strides fold_right nth tl]. lia.
Qed.

Lemma nodes_p_slice_offset (nt tid m q : Z) :
  offset (slice0 (nodes_p_view nt) tid) [m; q] = (9 * tid + 3 * m + q)%Z.
Proof.
  unfold offset, slice0, nodes_p_view, c_view.
  cbn [dot_idx v_base v_strides v_shape c_strides fold_right nth tl]. lia.
Qed.

Section GatherProofs.

Variables nodes : memview R.
Variable triangle_nodes : memview Z.
Hypothesis Hmesh : mesh_ok nodes triangle_nodes.

Lemma tri_node_read (p m q : nat) :
  (p < num_triangles triangle_nodes)%nat -> (m < 3)%nat -> (q < 3)%nat ->
  (which <- mv_get triangle_nodes [Z.of_nat p; Z.of_nat m] ;;
   mv_get nodes [which; Z.of_nat q])
  = Some (tri_node nodes triangle_nodes p m q).
Proof.
  intros Hp Hm Hq. destruct Hmesh as (Hn & Hn1 & Ht & Ht1 & Hin).
  unfold num_triangles in Hp.
  rewrite (mv_get2 0%Z triangle_nodes _ _ Ht) by lia. cbn [bind].
  rewrite (mv_get2 0%R nodes _ _ Hn); [reflexivity| |lia].
  apply Hin; assumption.
Qed.

(** The gather loop fills the block of the thread with the coordinates of
    the nodes of triangle [p] and touches nothing else. *)
Lemma gather_char (nt tid : Z) (p : nat) (storage : list R) :
  (p < num_triangles triangle_nodes)%nat -> (0 <= tid < nt)%Z ->
  length storage = (Z.to_nat nt * 9)%nat ->
  exists storage',
    foldM (fun m sto =>
             foldM (fun q sto' =>
                      which <- mv_get triangle_nodes [Z.of_nat p; Z.of_nat m] ;;
                      x <- mv_get nodes [which; Z.of_nat q] ;;
                      buf_write sto'
                        (offset (nodes_p_view nt)
                                [tid; Z.of_nat m; Z.of_nat q]) x)
                   range3 sto)
          range3 storage = Some storage' /\
    length storage' = length storage /\
    (forall m q, (m < 3)%nat -> (q < 3)%nat ->
       buf_read storage' (9 * tid + 3 * Z.of_nat m + Z.of_nat q)
       = Some (tri_node nodes triangle_nodes p m q)) /\
    (forall j, ~ (9 * tid <= Z.of_nat j < 9 * tid + 9)%Z ->
       nth_error storage' j = nth_error storage j).
Proof.
  intros Hp Htid Hlen.
  assert (Hb : forall m q (k : R -> option (list R)),
             (m < 3)%nat -> (q < 3)%nat ->
             (which <- mv_get triangle_nodes [Z.of_nat p; Z.of_nat m] ;;
              x <- mv_get nodes [which; Z.of_nat q] ;; k x)
             = k (tri_node nodes triangle_nodes p m q)).
  { intros m q k Hm Hq.
    pose proof (tri_node_read p m q Hp Hm Hq) as E.
    destruct (mv_get triangle_nodes [Z.of_nat p; Z.of_nat m]); cbn [bind] in *;
      [|discriminate]. rewrite E. reflexivity. }
  unfold range3. cbn [foldM].
  repeat (rewrite Hb by lia;
          rewrite nodes_p_offset;
          rewrite buf_write_some by (rewrite ?list_set_length; lia);
          cbn [bind]).
  eexists. split; [reflexivity|]. split; [|split].
  - rewrite !list_set_length. reflexivity.
  - intros m q Hm Hq.
    assert (Em : m = 0%nat \/ m = 1%nat \/ m = 2%nat) by lia.
    assert (Eq : q = 0%nat \/ q = 1%nat \/ q = 2%nat) by lia.
    destruct Em as [-> | [-> | ->]]; destruct Eq as [-> | [-> | ->]];
      repeat (rewrite buf_read_set_neq by lia);
      apply buf_read_set_eq; rewrite ?list_set_length; lia.
  - intros j Hj. rewrite !nth_error_list_set_neq by lia. reflexivity.
Qed.

End GatherProofs.

Lemma Csum_ext (f g : nat -> C) (n : nat) :
  (forall k, (k < n)%nat -> f k = g k) -> Csum f n = Csum g n.
Proof.
  induction n as [|n IH]; intros H; simpl; [reflexivity|].
  rewrite IH by (intros; apply H; lia). rewrite H by lia. reflexivity.
Qed.

(** The integral depends on the triangle only through its 9 coordinates. *)
Lemma integral_spec_ext (xi_eta_o weights_o n1 n2 : memview R)
      (jk_inc e_inc : memview C) (a : nat) :
  (forall i b, (i < 3)%nat -> (b < 3)%nat -> node n1 i b = node n2 i b) ->
  (a < 3)%nat ->
  integral_spec xi_eta_o weights_o n1 jk_inc e_inc a
  = integral_spec xi_eta_o weights_o n2 jk_inc e_inc a.
Proof.
  intros H Ha. unfold integral_spec. apply Csum_ext. intros k _.
  unfold contribution, e_r, jk_dot_r, rho, r_pt.
  rewrite !(H 0%nat), !(H 1%nat), !(H 2%nat), !(H a) by lia. reflexivity.
Qed.

Lemma view_holds_ext (I : view) (buf0 buf : list C) (acc acc' : nat -> C) :
  (forall a, (a < 3)%nat -> acc a = acc' a) ->
  view_holds I buf0 acc buf -> view_holds I buf0 acc' buf.
Proof.
  intros H [L [Cl Rs]]. split; [exact L|split; [|exact Rs]].
  intros a Ha. rewrite <- (H a Ha). apply Cl. exact Ha.
Qed.

Lemma gather_nodes_node (nodes : memview R) (triangle_nodes : memview Z)
      (p a b : nat) :
  (a < 3)%nat -> (b < 3)%nat ->
  node (gather_nodes nodes triangle_nodes p) a b = tri_node nodes triangle_nodes p a b.
Proof.
  intros Ha Hb.
  assert (Ea : a = 0%nat \/ a = 1%nat \/ a = 2%nat) by lia.
  assert (Eb : b = 0%nat \/ b = 1%nat \/ b = 2%nat) by lia.
  destruct Ea as [-> | [-> | ->]]; destruct Eb as [-> | [-> | ->]]; reflexivity.
Qed.

Lemma gather_nodes_ok (nodes : memview R) (triangle_nodes : memview Z) (p : nat) :
  triangle_ok (gather_nodes nodes triangle_nodes p).
Proof. repeat split. Qed.

Lemma scratch_triangle_ok (nt tid : Z) (storage : list R) :
  (0 <= tid < nt)%Z -> length storage = (Z.to_nat nt * 9)%nat ->
  triangle_ok (mkMv storage (slice0 (nodes_p_view nt) tid)).
Proof.
  intros Htid Hlen. split; [|split; reflexivity].
  unfold mv_okb, slice0, nodes_p_view, c_view.
  cbn [mv_view mv_buf v_shape v_strides v_base c_strides tl nth fold_right
       length Nat.eqb forallb existsb span_lo span_hi andb orb].
  rewrite Hlen. cbn.
  apply andb_true_intro. split; [apply Z.leb_le|apply Z.ltb_lt]; lia.
Qed.

Lemma V_face_row_view_ok (T p : Z) (V_face : list C) :
  (0 <= p < T)%Z -> length V_face = (Z.to_nat T * 3)%nat ->
  result_view_ok (slice0 (V_face_view T) p) V_face.
Proof.
  intros Hp Hlen. split; [reflexivity|split; [reflexivity|split]].
  - cbn. lia.
  - intros a Ha. rewrite V_face_row_offset. lia.
Qed.

Section AssemblerProofs.

Variables nodes : memview R.
Variable triangle_nodes : memview Z.
Variables tp tm np nm : memview Z.
Variables xi_eta_eval weights : memview R.
Variables e_inc jk_inc : memview C.

Hypothesis Hargs :
  assembler_args_ok nodes triangle_nodes tp tm np nm xi_eta_eval weights
                    e_inc jk_inc.

Local Abbreviation T := (num_triangles triangle_nodes).
Local Abbreviation B := (num_basis tp).
Local Abbreviation Vf :=
  (V_face_spec nodes triangle_nodes xi_eta_eval weights e_inc jk_inc).

Lemma tri_iter_char (nt tid : Z) (p : nat) (storage : list R) (V_face : list C) :
  (p < T)%nat -> (0 <= tid < nt)%Z ->
  length storage = (Z.to_nat nt * 9)%nat -> length V_face = (T * 3)%nat ->
  exists storage' V_face',
    tri_iter nodes triangle_nodes xi_eta_eval weights e_inc jk_inc
             nt (Z.of_nat T) (p, tid) (storage, V_face)
      = Some (storage', V_face') /\
    length storage' = length storage /\
    (forall j, ~ (9 * tid <= Z.of_nat j < 9 * tid + 9)%Z ->
       nth_error storage' j = nth_error storage j) /\
    (forall m q, (m < 3)%nat -> (q < 3)%nat ->
       buf_read storage' (9 * tid + 3 * Z.of_nat m + Z.of_nat q)
       = Some (tri_node nodes triangle_nodes p m q)) /\
    view_holds (slice0 (V_face_view (Z.of_nat T)) (Z.of_nat p)) V_face
               (fun a => Vf (Z.of_nat p) (Z.of_nat a)) V_face'.
Proof.
  intros Hp Htid Hls Hlv.
  destruct Hargs as (Hmesh & _ & Hquad & Hfield).
  unfold tri_iter.
  destruct (gather_char nodes triangle_nodes Hmesh nt tid p storage Hp Htid Hls)
    as [storage' [Eg [Hl' [Hcells Hframe]]]].
  rewrite Eg. cbn [bind].
  assert (Hok : integrator_args_ok xi_eta_eval weights
                  (mkMv storage' (slice0 (nodes_p_view nt) tid)) jk_inc e_inc).
  { split; [exact Hquad|split; [|exact Hfield]].
    apply scratch_triangle_ok; [exact Htid|congruence]. }
  destruct (source_integral_char xi_eta_eval weights
              (mkMv storage' (slice0 (nodes_p_view nt) tid)) jk_inc e_inc
              (slice0 (V_face_view (Z.of_nat T)) (Z.of_nat p)) Hok V_face)
    as [V_face' [Ei Hh]].
  { apply V_face_row_view_ok; [lia|]. rewrite Nat2Z.id. exact Hlv. }
  rewrite Ei. cbn [bind].
  exists storage', V_face'. split; [reflexivity|].
  split; [exact Hl'|split; [exact Hframe|split; [exact Hcells|]]].
  apply (view_holds_ext _ _ _ _ _ ) with (2 := Hh).
  intros a Ha. unfold Vf, V_face_spec. rewrite !Nat2Z.id.
  apply integral_spec_ext; [|exact Ha].
  intros i b Hi Hb. rewrite gather_nodes_node by assumption.
  unfold node, mv_at, mv_get. cbn [mv_buf mv_view].
  rewrite nodes_p_slice_offset, (Hcells i b Hi Hb). reflexivity.
Qed.

Local Abbreviation region1_inv :=
  (region1_invariant nodes triangle_nodes xi_eta_eval weights e_inc jk_inc).

Lemma region1_char (env : omp_env) :
  env_ok T B env ->
  exists st,
    foldM (tri_iter nodes triangle_nodes xi_eta_eval weights e_inc jk_inc
                    (n_threads env) (Z.of_nat T))
          (sched_tri env) (malloc_junk env, np_zeros C0 (T * 3)) = Some st /\
    length (snd st) = (T * 3)%nat /\
    forall p a, (p < T)%nat -> (a < 3)%nat ->
      buf_read (snd st) (3 * Z.of_nat p + Z.of_nat a)
      = Some (Vf (Z.of_nat p) (Z.of_nat a)).
Proof.
  intros (Hnt & Hjunk & Hperm & Htids & _).
  destruct (foldM_inv (region1_inv (n_threads env))
              (tri_iter nodes triangle_nodes xi_eta_eval weights e_inc jk_inc
                        (n_threads env) (Z.of_nat T))
              (sched_tri env) (malloc_junk env, np_zeros C0 (T * 3)))
    as [st [E Hst]].
  - split; [exact Hjunk|split; [apply repeat_length|]].
    intros p a [].
  - intros done [p tid] [storage V_face] [rest Hsplit] (Hls & Hlv & Hdone).
    cbn [fst snd] in Hls, Hlv, Hdone.
    assert (Hin : In (p, tid) (sched_tri env)).
    { rewrite Hsplit. apply in_or_app. right. left. reflexivity. }
    assert (Hp : (p < T)%nat).
    { apply (in_map fst) in Hin. apply (Permutation_in _ Hperm) in Hin.
      apply in_seq in Hin. cbn [fst] in Hin. lia. }
    assert (Htid : (0 <= tid < n_threads env)%Z).
    { rewrite Forall_forall in Htids. apply (Htids _ Hin). }
    destruct (tri_iter_char (n_threads env) tid p storage V_face Hp Htid Hls Hlv)
      as [storage' [V_face' [Ei [Hl' [_ [_ (HL & HC & HR)]]]]]].
    exists (storage', V_face'). split; [exact Ei|].
    split; [cbn [fst]; congruence|split; [cbn [snd]; congruence|]].
    cbn [snd]. intros p' a Hin' Ha.
    rewrite map_app in Hin'. apply in_app_or in Hin'.
    destruct (Nat.eq_dec p' p) as [->|Hne].
    + rewrite <- (V_face_row_offset (Z.of_nat T)). apply HC. exact Ha.
    + destruct Hin' as [Hin'|[Hin'|[]]]; [|cbn [fst] in Hin'; congruence].
      rewrite <- (Hdone p' a Hin' Ha).
      replace (3 * Z.of_nat p' + Z.of_nat a)%Z
        with (Z.of_nat (3 * p' + a)) by lia.
      rewrite !buf_read_nth. apply HR.
      intros a' Ha'. rewrite V_face_row_offset. lia.
  - exists st. split; [exact E|]. destruct Hst as (_ & Hlv & Hdone).
    split; [exact Hlv|]. intros p a Hp Ha. apply Hdone; [|exact Ha].
    apply (Permutation_in _ (Permutation_sym Hperm)). apply in_seq. lia.
Qed.

(** ** The assembler: second parallel loop *)

Local Abbreviation V_spec :=
  (V_spec nodes triangle_nodes tp tm np nm xi_eta_eval weights e_inc jk_inc).

(** Iteration [m] reads two cells of [V_face] and writes [V[m]]. *)
Lemma basis_iter_cells (V_face V : list C) (m : nat) :
  (m < B)%nat -> length V = B -> length V_face = (T * 3)%nat ->
  exists a b,
    buf_read V_face (3 * tri_plus tp m + node_plus np m) = Some a /\
    buf_read V_face (3 * tri_minus tm m + node_minus nm m) = Some b /\
    basis_iter tp tm np nm (Z.of_nat T) V_face m V
    = Some (list_set V m (a - b)%C).
Proof.
  intros Hm Hl HlV.
  destruct Hargs as (_ & ((Hp & Hm' & Hnp & Hnm & S1 & S2 & S3) & Hrange) & _).
  destruct (Hrange m Hm) as (R1 & R2 & R3 & R4).
  assert (Hm0 : (0 <= Z.of_nat m < shape (mv_view tp) 0)%Z).
  { unfold num_basis in Hm. lia. }
  destruct (buf_read_some V_face (3 * tri_plus tp m + node_plus np m))
    as [a Ea]; [lia|].
  destruct (buf_read_some V_face (3 * tri_minus tm m + node_minus nm m))
    as [b Eb]; [lia|].
  exists a, b. split; [exact Ea|]. split; [exact Eb|].
  unfold basis_iter.
  rewrite (mv_get1 0%Z tp _ Hp) by lia. cbn [bind].
  rewrite (mv_get1 0%Z tm _ Hm') by lia. cbn [bind].
  rewrite (mv_get1 0%Z np _ Hnp) by lia. cbn [bind].
  rewrite (mv_get1 0%Z nm _ Hnm) by lia. cbn [bind].
  fold (tri_plus tp m) (tri_minus tm m) (node_plus np m) (node_minus nm m).
  unfold mv_get. cbn [mv_buf mv_view]. rewrite !V_face_offset.
  rewrite Ea, Eb. cbn [bind].
  rewrite buf_write_some by lia. rewrite Nat2Z.id. reflexivity.
Qed.

Lemma basis_iter_char (V_face V : list C) (m : nat) :
  (m < B)%nat -> length V = B -> length V_face = (T * 3)%nat ->
  (forall p a, (p < T)%nat -> (a < 3)%nat ->
     buf_read V_face (3 * Z.of_nat p + Z.of_nat a)
     = Some (Vf (Z.of_nat p) (Z.of_nat a))) ->
  basis_iter tp tm np nm (Z.of_nat T) V_face m V
  = Some (list_set V m (V_spec m)).
Proof.
  intros Hm Hl HlV HVf.
  destruct (basis_iter_cells V_face V m Hm Hl HlV) as (a & b & Ea & Eb & E).
  rewrite E.
  destruct Hargs as (_ & (_ & Hrange) & _).
  destruct (Hrange m Hm) as (R1 & R2 & R3 & R4).
  assert (Hrd : forall p i, (0 <= p < Z.of_nat T)%Z -> (0 <= i < 3)%Z ->
            buf_read V_face (3 * p + i) = Some (Vf p i)).
  { intros p i Hp' Hi'. specialize (HVf (Z.to_nat p) (Z.to_nat i)).
    rewrite !Z2Nat.id in HVf by lia. apply HVf; lia. }
  rewrite Hrd in Ea, Eb by assumption.
  injection Ea as <-. injection Eb as <-. reflexivity.
Qed.

Local Abbreviation region2_inv :=
  (region2_invariant nodes triangle_nodes tp tm np nm xi_eta_eval weights e_inc
                     jk_inc).

(** The assembler returns, whatever the schedule, the vector of the signed
    differences of the per-face integrals. *)
Lemma voltage_char (env : omp_env) :
  env_ok T B env ->
  exists V,
    voltage_plane_wave nodes triangle_nodes tp tm np nm xi_eta_eval weights
                       e_inc jk_inc env = Some V /\
    length V = B /\
    forall m, (m < B)%nat -> nth_error V m = Some (V_spec m).
Proof.
  intros Henv.
  destruct (region1_char env Henv) as [st [E1 [Hlv HVf]]].
  destruct Henv as (_ & _ & _ & _ & Hperm).
  pose proof Hargs as ((_ & _ & Ht & _) & ((Hp & _) & _) & _).
  pose proof (mv_okb_shape 2 triangle_nodes 0 Ht) as HT.
  pose proof (mv_okb_shape 1 tp 0 Hp) as HB.
  unfold voltage_plane_wave.
  rewrite (c_int_small _ HT), (c_int_small _ HB).
  destruct (shape (mv_view tp) 0 <? 0)%Z eqn:EB; [apply Z.ltb_lt in EB; lia|].
  destruct (shape (mv_view triangle_nodes) 0 <? 0)%Z eqn:ET;
    [apply Z.ltb_lt in ET; lia|].
  cbn [orb].
  fold (num_triangles triangle_nodes) (num_basis tp).
  replace (shape (mv_view triangle_nodes) 0) with (Z.of_nat T)
    by (unfold num_triangles; lia).
  rewrite E1. cbn [bind].
  destruct (foldM_inv region2_inv
              (basis_iter tp tm np nm (Z.of_nat T) (snd st))
              (sched_basis env) (np_zeros C0 B)) as [V [E2 HV]].
  - split; [apply repeat_length|]. intros m [].
  - intros done m V [rest Hsplit] (Hl & Hdone).
    assert (Hm : (m < B)%nat).
    { assert (Hin : In m (sched_basis env)).
      { rewrite Hsplit. apply in_or_app. right. left. reflexivity. }
      apply (Permutation_in _ Hperm) in Hin. apply in_seq in Hin. lia. }
    rewrite (basis_iter_char (snd st) V m Hm Hl Hlv HVf).
    eexists. split; [reflexivity|]. split; [rewrite list_set_length; exact Hl|].
    intros m' Hin'. apply in_app_or in Hin'.
    destruct (Nat.eq_dec m' m) as [->|Hne].
    + apply nth_error_list_set_eq. lia.
    + rewrite nth_error_list_set_neq by exact Hne.
      destruct Hin' as [Hin'|[Hin'|[]]]; [apply Hdone; exact Hin'|congruence].
  - exists V. split; [exact E2|]. destruct HV as (Hl & Hdone).
    split; [exact Hl|]. intros m Hm. apply Hdone.
    apply (Permutation_in _ (Permutation_sym Hperm)). apply in_seq. lia.
Qed.

End AssemblerProofs.

(** ** In-range tables make every read of the converter defined *)

Lemma table_views_reads (tp tm np nm : memview Z) :
  table_views_ok tp tm np nm -> table_reads_ok tp tm np nm.
Proof.
  intros (Hp & Hm & Hnp & Hnm & S1 & S2 & S3) m Hlt. unfold num_basis in Hlt.
  rewrite (mv_get1 0%Z tp _ Hp), (mv_get1 0%Z tm _ Hm),
    (mv_get1 0%Z np _ Hnp), (mv_get1 0%Z nm _ Hnm) by lia.
  repeat split; discriminate.
Qed.

Lemma table_in_range_reads (tp tm np nm : memview Z) (vf sf : memview C) :
  mv_okb 4 vf = true -> mv_okb 2 sf = true ->
  table_in_range tp tm np nm vf sf -> face_reads_ok tp tm np nm vf sf.
Proof.
  intros Hvf Hsf Hin m n Hm Hn p i Hp q j Hq.
  destruct (Hin m Hm p i Hp) as (P0 & _ & I2 & _ & P4 & _).
  destruct (Hin n Hn q j Hq) as (_ & Q1 & _ & J3 & _ & Q5).
  rewrite (mv_get4 C0 vf _ _ _ _ Hvf) by assumption.
  rewrite (mv_get2 C0 sf _ _ Hsf) by assumption.
  split; discriminate.
Qed.

(* ================================================================= *)
(** * The face-to-RWG converter *)

(** C2.  For a well-formed basis index table whose indices are all within
    the extents of well-formed face tensors, [triangle_face_to_rwg] returns
    two matrices of shape [num_basis] by [num_basis] whose entries [m, n] are
    the signed combinations of §4.3: [vector_rwg[m,n]] is
    [vf[p+(m),q+(n),i+(m),j+(n)] - vf[p+(m),q-(n),i+(m),j-(n)]
     - vf[p-(m),q+(n),i-(m),j+(n)] + vf[p-(m),q-(n),i-(m),j-(n)]] and
    [scalar_rwg[m,n]] is
    [- sf[p-(m),q+(n)] + sf[p-(m),q-(n)] + sf[p+(m),q+(n)] - sf[p+(m),q-(n)]]. *)
Theorem C2_face_to_rwg_signed_combination
        (tp tm np nm : memview Z) (vf sf : memview C)
        (junk_v junk_s : nat -> nat -> C) :
  table_views_ok tp tm np nm ->
  mv_okb 4 vf = true -> mv_okb 2 sf = true ->
  table_in_range tp tm np nm vf sf ->
  exists vector_rwg scalar_rwg,
    triangle_face_to_rwg tp tm np nm vf sf junk_v junk_s
      = Some (vector_rwg, scalar_rwg)
    /\ mat_dims vector_rwg (num_basis tp) (num_basis tp)
    /\ mat_dims scalar_rwg (num_basis tp) (num_basis tp)
    /\ forall m n, (m < num_basis tp)%nat -> (n < num_basis tp)%nat ->
         mat_get vector_rwg m n = vector_rwg_spec tp tm np nm vf m n /\
         mat_get scalar_rwg m n = scalar_rwg_spec tp tm sf m n.
Proof.
  intros Htab Hvf Hsf Hin.
  apply triangle_face_to_rwg_char.
  - destruct Htab as (Hp & _). apply (mv_okb_shape 1 tp 0 Hp).
  - apply table_views_reads. exact Htab.
  - apply table_in_range_reads; assumption.
Qed.

Lemma plate_table_views_ok :
  table_views_ok Plate.basis_tri_p Plate.basis_tri_m
                 Plate.basis_node_p Plate.basis_node_m.
Proof. repeat split. Qed.

Lemma plate_table_in_range :
  table_in_range Plate.basis_tri_p Plate.basis_tri_m
                 Plate.basis_node_p Plate.basis_node_m
                 Plate.vector_face Plate.scalar_face.
Proof.
  intros m Hm p i Hpi. change (m < 1)%nat in Hm.
  assert (m = 0%nat) by lia. subst m.
  destruct Hpi as [E|E]; injection E as -> ->; vm_compute; intuition discriminate.
Qed.

Lemma C2_witness :
  exists vector_rwg scalar_rwg,
    triangle_face_to_rwg Plate.basis_tri_p Plate.basis_tri_m
                         Plate.basis_node_p Plate.basis_node_m
                         Plate.vector_face Plate.scalar_face
                         Plate.junk Plate.junk'
      = Some (vector_rwg, scalar_rwg)
    /\ mat_dims vector_rwg 1 1 /\ mat_dims scalar_rwg 1 1
    /\ forall m n, (m < 1)%nat -> (n < 1)%nat ->
         mat_get vector_rwg m n
         = vector_rwg_spec Plate.basis_tri_p Plate.basis_tri_m
                           Plate.basis_node_p Plate.basis_node_m
                           Plate.vector_face m n /\
         mat_get scalar_rwg m n
         = scalar_rwg_spec Plate.basis_tri_p Plate.basis_tri_m
                           Plate.scalar_face m n.
Proof.
  apply (C2_face_to_rwg_signed_combination
           Plate.basis_tri_p Plate.basis_tri_m
           Plate.basis_node_p Plate.basis_node_m
           Plate.vector_face Plate.scalar_face Plate.junk Plate.junk').
  - exact plate_table_views_ok.
  - reflexivity.
  - reflexivity.
  - exact plate_table_in_range.
Defined.

(** C4, as stated, fails: with the plus node index 3, outside the extent 3
    of the node axes of [vector_face], the converter raises nothing and
    returns matrices built from the cells that the strided addresses 12, 18,
    21 and 27 of the buffer happen to hold. *)
Lemma C4_counterexample :
  ~ table_in_range Plate.basis_tri_p Plate.basis_tri_m
                   Plate.bad_node_p Plate.bad_node_m
                   Plate.vector_face Plate.scalar_face
  /\ triangle_face_to_rwg Plate.basis_tri_p Plate.basis_tri_m
                          Plate.bad_node_p Plate.bad_node_m
                          Plate.vector_face Plate.scalar_face
                          Plate.junk Plate.junk'
     = Some ([[(RtoC 144 - RtoC 324 - RtoC 441 + RtoC 729)%C]],
             [[(- C0 + C0 + RtoC 1 - C0)%C]]).
Proof.
  split.
  - intros H.
    destruct (H 0%nat ltac:(vm_compute; lia) _ _ (or_introl eq_refl))
      as (_ & _ & H2 & _).
    vm_compute in H2. destruct H2 as [_ H2]. discriminate H2.
  - reflexivity.
Qed.

(** C4, amended.  The converter checks no index and raises no input error.
    It returns exactly when every strided read it performs lands inside the
    buffer of its tensor, in-range index or not, and what it returns then are
    the [num_basis] by [num_basis] matrices of the signed combinations of the
    cells actually read. *)
Theorem C4_converter_checks_no_index
        (tp tm np nm : memview Z) (vf sf : memview C)
        (junk_v junk_s : nat -> nat -> C) :
  (0 <= shape (mv_view tp) 0 < 2147483648)%Z ->
  ((table_reads_ok tp tm np nm /\ face_reads_ok tp tm np nm vf sf) <->
   exists r, triangle_face_to_rwg tp tm np nm vf sf junk_v junk_s = Some r) /\
  forall vector_rwg scalar_rwg,
    triangle_face_to_rwg tp tm np nm vf sf junk_v junk_s
      = Some (vector_rwg, scalar_rwg) ->
    mat_dims vector_rwg (num_basis tp) (num_basis tp)
    /\ mat_dims scalar_rwg (num_basis tp) (num_basis tp)
    /\ forall m n, (m < num_basis tp)%nat -> (n < num_basis tp)%nat ->
         mat_get vector_rwg m n = vector_rwg_spec tp tm np nm vf m n /\
         mat_get scalar_rwg m n = scalar_rwg_spec tp tm sf m n.
Proof.
  intros HB. split; [split|].
  - intros [Htab Hface].
    destruct (triangle_face_to_rwg_char tp tm np nm vf sf HB Htab Hface
                junk_v junk_s) as (vr & sr & E & _).
    exists (vr, sr). exact E.
  - intros [r E]. apply (triangle_face_to_rwg_defined_reads _ _ _ _ _ _ _ _ r HB E).
  - intros vr sr E.
    destruct (triangle_face_to_rwg_defined_reads _ _ _ _ _ _ _ _ _ HB E)
      as [Htab Hface].
    destruct (triangle_face_to_rwg_char tp tm np nm vf sf HB Htab Hface
                junk_v junk_s) as (vr' & sr' & E' & Hd).
    rewrite E in E'. injection E' as <- <-. exact Hd.
Qed.

Lemma C4_witness :
  ((table_reads_ok Plate.basis_tri_p Plate.basis_tri_m
                   Plate.bad_node_p Plate.bad_node_m /\
    face_reads_ok Plate.basis_tri_p Plate.basis_tri_m
                  Plate.bad_node_p Plate.bad_node_m
                  Plate.vector_face Plate.scalar_face) <->
   exists r,
     triangle_face_to_rwg Plate.basis_tri_p Plate.basis_tri_m
                          Plate.bad_node_p Plate.bad_node_m
                          Plate.vector_face Plate.scalar_face
                          Plate.junk Plate.junk' = Some r) /\
  forall vector_rwg scalar_rwg,
    triangle_face_to_rwg Plate.basis_tri_p Plate.basis_tri_m
                         Plate.bad_node_p Plate.bad_node_m
                         Plate.vector_face Plate.scalar_face
                         Plate.junk Plate.junk'
      = Some (vector_rwg, scalar_rwg) ->
    mat_dims vector_rwg 1 1 /\ mat_dims scalar_rwg 1 1
    /\ forall m n, (m < 1)%nat -> (n < 1)%nat ->
         mat_get vector_rwg m n
         = vector_rwg_spec Plate.basis_tri_p Plate.basis_tri_m
                           Plate.bad_node_p Plate.bad_node_m
                           Plate.vector_face m n /\
         mat_get scalar_rwg m n
         = scalar_rwg_spec Plate.basis_tri_p Plate.basis_tri_m
                           Plate.scalar_face m n.
Proof.
  apply (C4_converter_checks_no_index
           Plate.basis_tri_p Plate.basis_tri_m
           Plate.bad_node_p Plate.bad_node_m
           Plate.vector_face Plate.scalar_face Plate.junk Plate.junk').
  vm_compute. split; [discriminate|reflexivity].
Defined.

(** ** Exchanging plus and minus *)

Section SwapProofs.

Variable m0 : nat.
Variables tp tm np nm tp' tm' np' nm' : memview Z.
Variables vf sf : memview C.
Hypothesis Hswap : swapped_at m0 tp tm np nm tp' tm' np' nm'.

Lemma rwg_spec_swap_row (j : nat) :
  j <> m0 ->
  vector_rwg_spec tp' tm' np' nm' vf m0 j
    = (- vector_rwg_spec tp tm np nm vf m0 j)%C /\
  scalar_rwg_spec tp' tm' sf m0 j = (- scalar_rwg_spec tp tm sf m0 j)%C.
Proof.
  intros Hj. destruct Hswap as (_ & E1 & E2 & E3 & E4 & Hk).
  destruct (Hk j Hj) as (K1 & K2 & K3 & K4).
  unfold vector_rwg_spec, scalar_rwg_spec.
  rewrite E1, E2, E3, E4, K1, K2, K3, K4. split; c_ring.
Qed.

Lemma rwg_spec_swap_col (i : nat) :
  i <> m0 ->
  vector_rwg_spec tp' tm' np' nm' vf i m0
    = (- vector_rwg_spec tp tm np nm vf i m0)%C /\
  scalar_rwg_spec tp' tm' sf i m0 = (- scalar_rwg_spec tp tm sf i m0)%C.
Proof.
  intros Hi. destruct Hswap as (_ & E1 & E2 & E3 & E4 & Hk).
  destruct (Hk i Hi) as (K1 & K2 & K3 & K4).
  unfold vector_rwg_spec, scalar_rwg_spec.
  rewrite E1, E2, E3, E4, K1, K2, K3, K4. split; c_ring.
Qed.

Lemma rwg_spec_swap_diag :
  vector_rwg_spec tp' tm' np' nm' vf m0 m0 = vector_rwg_spec tp tm np nm vf m0 m0 /\
  scalar_rwg_spec tp' tm' sf m0 m0 = scalar_rwg_spec tp tm sf m0 m0.
Proof.
  destruct Hswap as (_ & E1 & E2 & E3 & E4 & _).
  unfold vector_rwg_spec, scalar_rwg_spec.
  rewrite E1, E2, E3, E4. split; c_ring.
Qed.

Lemma rwg_spec_swap_other (i j : nat) :
  i <> m0 -> j <> m0 ->
  vector_rwg_spec tp' tm' np' nm' vf i j = vector_rwg_spec tp tm np nm vf i j /\
  scalar_rwg_spec tp' tm' sf i j = scalar_rwg_spec tp tm sf i j.
Proof.
  intros Hi Hj. destruct Hswap as (_ & _ & _ & _ & _ & Hk).
  destruct (Hk i Hi) as (K1 & K2 & K3 & K4).
  destruct (Hk j Hj) as (L1 & L2 & L3 & L4).
  unfold vector_rwg_spec, scalar_rwg_spec.
  rewrite K1, K2, K3, K4, L1, L2, L3, L4. split; reflexivity.
Qed.

End SwapProofs.

Lemma mv_at_c1_out {A : Type} (d : A) (n : Z) (cells : list A) (k : nat) :
  (length cells <= k)%nat -> mv_at d (mv_c [n] cells) [Z.of_nat k] = d.
Proof.
  intros H. unfold mv_at, mv_get, mv_c, c_view, offset, buf_read.
  cbn [mv_buf mv_view v_base v_strides c_strides dot_idx fold_right].
  destruct (0 + (Z.of_nat k * 1 + 0) <? 0)%Z; [reflexivity|].
  replace (Z.to_nat (0 + (Z.of_nat k * 1 + 0))) with k by lia.
  apply nth_error_None in H. rewrite H. reflexivity.
Qed.

Lemma plate_swapped_at :
  swapped_at 0 Plate.basis_tri_p Plate.basis_tri_m
             Plate.basis_node_p Plate.basis_node_m
             Plate.swapped_tri_p Plate.swapped_tri_m
             Plate.swapped_node_p Plate.swapped_node_m.
Proof.
  split; [reflexivity|]. repeat (split; [reflexivity|]).
  intros k Hk. destruct k as [|k]; [congruence|].
  unfold tri_plus, tri_minus, node_plus, node_minus.
  repeat split; unfold Plate.swapped_tri_p, Plate.swapped_tri_m,
    Plate.swapped_node_p, Plate.swapped_node_m, Plate.basis_tri_p,
    Plate.basis_tri_m, Plate.basis_node_p, Plate.basis_node_m;
    rewrite !mv_at_c1_out by (simpl; lia); reflexivity.
Qed.

(** C5, as stated, fails on the diagonal.  On the plate, exchanging the two
    triangles of the only basis function leaves [scalar_rwg[0,0]], an entry
    of row 0 and of column 0, equal to 1: it is not negated. *)
Lemma C5_counterexample :
  swapped_at 0 Plate.basis_tri_p Plate.basis_tri_m
             Plate.basis_node_p Plate.basis_node_m
             Plate.swapped_tri_p Plate.swapped_tri_m
             Plate.swapped_node_p Plate.swapped_node_m
  /\ exists vr sr vr' sr',
       triangle_face_to_rwg Plate.basis_tri_p Plate.basis_tri_m
                            Plate.basis_node_p Plate.basis_node_m
                            Plate.vector_face Plate.scalar_face
                            Plate.junk Plate.junk' = Some (vr, sr)
       /\ triangle_face_to_rwg Plate.swapped_tri_p Plate.swapped_tri_m
                               Plate.swapped_node_p Plate.swapped_node_m
                               Plate.vector_face Plate.scalar_face
                               Plate.junk Plate.junk' = Some (vr', sr')
       /\ mat_get sr 0 0 = (- C0 + C0 + RtoC 1 - C0)%C
       /\ mat_get sr' 0 0 = (- C0 + RtoC 1 + C0 - C0)%C
       /\ mat_get sr' 0 0 <> (- mat_get sr 0 0)%C.
Proof.
  split.
  - exact plate_swapped_at.
  - eexists _, _, _, _. split; [reflexivity|]. split; [reflexivity|].
    match goal with
    | |- ?a = ?x /\ ?b = ?y /\ _ =>
        assert (Ea : a = x) by reflexivity; assert (Eb : b = y) by reflexivity
    end.
    split; [exact Ea|]. split; [exact Eb|].
    rewrite Ea, Eb. intros E. apply (f_equal Re) in E.
    unfold Cadd, Csub, Copp, RtoC, C0 in E. cbn [Re Im] in E. lra.
Qed.

(** C5, amended.  Exchanging the plus and minus data of basis function [m0]
    negates every entry of [vector_rwg] and [scalar_rwg] in row [m0] or
    column [m0] except the diagonal entry [(m0, m0)], which is unchanged like
    the entries that do not involve [m0]; it negates [V[m0]] and leaves the
    other excitation values unchanged. *)
Theorem C5_swap_negates_off_diagonal
        (m0 : nat) (tp tm np nm tp' tm' np' nm' : memview Z)
        (vf sf : memview C) (junk_v junk_s junk_v' junk_s' : nat -> nat -> C)
        (nodes : memview R) (triangle_nodes : memview Z)
        (xi_eta weights : memview R) (e_inc jk_inc : memview C)
        (env env' : omp_env) :
  swapped_at m0 tp tm np nm tp' tm' np' nm' ->
  (m0 < num_basis tp)%nat ->
  mv_okb 4 vf = true -> mv_okb 2 sf = true ->
  table_in_range tp tm np nm vf sf ->
  table_in_range tp' tm' np' nm' vf sf ->
  assembler_args_ok nodes triangle_nodes tp tm np nm xi_eta weights e_inc jk_inc ->
  assembler_args_ok nodes triangle_nodes tp' tm' np' nm' xi_eta weights e_inc jk_inc ->
  env_ok (num_triangles triangle_nodes) (num_basis tp) env ->
  env_ok (num_triangles triangle_nodes) (num_basis tp) env' ->
  exists vr sr vr' sr' V V',
    triangle_face_to_rwg tp tm np nm vf sf junk_v junk_s = Some (vr, sr) /\
    triangle_face_to_rwg tp' tm' np' nm' vf sf junk_v' junk_s' = Some (vr', sr') /\
    voltage_plane_wave nodes triangle_nodes tp tm np nm xi_eta weights
                       e_inc jk_inc env = Some V /\
    voltage_plane_wave nodes triangle_nodes tp' tm' np' nm' xi_eta weights
                       e_inc jk_inc env' = Some V' /\
    (forall i j, (i < num_basis tp)%nat -> (j < num_basis tp)%nat ->
       ((i = m0 /\ j <> m0) \/ (i <> m0 /\ j = m0) ->
          mat_get vr' i j = (- mat_get vr i j)%C /\
          mat_get sr' i j = (- mat_get sr i j)%C) /\
       ((i = m0 /\ j = m0) \/ (i <> m0 /\ j <> m0) ->
          mat_get vr' i j = mat_get vr i j /\
          mat_get sr' i j = mat_get sr i j)) /\
    (exists v, nth_error V m0 = Some v /\ nth_error V' m0 = Some (- v)%C) /\
    (forall k, (k < num_basis tp)%nat -> k <> m0 ->
       nth_error V' k = nth_error V k).
Proof.
  intros Hswap Hm0 Hvf Hsf Hin Hin' Hargs Hargs' Henv Henv'.
  pose proof Hswap as (HB & E1 & E2 & E3 & E4 & Hk).
  pose proof Hargs as (_ & (Htab & _) & _).
  pose proof Hargs' as (_ & (Htab' & _) & _).
  destruct (triangle_face_to_rwg_char tp tm np nm vf sf
              (mv_okb_shape 1 tp 0 (proj1 Htab)) (table_views_reads _ _ _ _ Htab)
              (table_in_range_reads _ _ _ _ _ _ Hvf Hsf Hin) junk_v junk_s)
    as (vr & sr & Ec & _ & _ & Hent).
  destruct (triangle_face_to_rwg_char tp' tm' np' nm' vf sf
              (mv_okb_shape 1 tp' 0 (proj1 Htab')) (table_views_reads _ _ _ _ Htab')
              (table_in_range_reads _ _ _ _ _ _ Hvf Hsf Hin') junk_v' junk_s')
    as (vr' & sr' & Ec' & _ & _ & Hent').
  rewrite HB in Hent'.
  destruct (voltage_char _ _ _ _ _ _ _ _ _ _ Hargs env Henv) as (V & EV & _ & HV).
  rewrite <- HB in Henv'.
  destruct (voltage_char _ _ _ _ _ _ _ _ _ _ Hargs' env' Henv') as (V' & EV' & _ & HV').
  rewrite HB in HV'.
  exists vr, sr, vr', sr', V, V'.
  split; [exact Ec|]. split; [exact Ec'|]. split; [exact EV|]. split; [exact EV'|].
  split; [|split].
  - intros i j Hi Hj.
    destruct (Hent i j Hi Hj) as [Ev Es]. destruct (Hent' i j Hi Hj) as [Ev' Es'].
    rewrite Ev, Es, Ev', Es'. split.
    + intros [[-> Hj0]|[Hi0 ->]].
      * apply (rwg_spec_swap_row m0 tp tm np nm tp' tm' np' nm' vf sf Hswap j Hj0).
      * apply (rwg_spec_swap_col m0 tp tm np nm tp' tm' np' nm' vf sf Hswap i Hi0).
    + intros [[-> ->]|[Hi0 Hj0]].
      * apply (rwg_spec_swap_diag m0 tp tm np nm tp' tm' np' nm' vf sf Hswap).
      * apply (rwg_spec_swap_other m0 tp tm np nm tp' tm' np' nm' vf sf Hswap i j Hi0 Hj0).
  - eexists. split; [apply (HV m0 Hm0)|].
    rewrite (HV' m0 Hm0). unfold V_spec. rewrite E1, E2, E3, E4.
    f_equal. apply Csub_opp_swap.
  - intros k Hk' Hne. rewrite (HV k Hk'), (HV' k Hk'). unfold V_spec.
    destruct (Hk k Hne) as (K1 & K2 & K3 & K4). rewrite K1, K2, K3, K4. reflexivity.
Qed.

(** ** The plate data is well formed *)

(** Case analysis on a natural number below a small constant bound. *)
Ltac small_nat m :=
  destruct m as [|[|[|m]]]; [| | |exfalso; simpl in *; lia].

Lemma plate_mesh_ok : mesh_ok Plate.nodes Plate.triangle_nodes.
Proof.
  split; [reflexivity|]. split; [reflexivity|]. split; [reflexivity|].
  split; [reflexivity|].
  intros p m Hp Hm. change (p < 2)%nat in Hp.
  small_nat p; small_nat m; try lia; vm_compute; intuition discriminate.
Qed.

Lemma plate_basis_ok :
  basis_ok Plate.triangle_nodes Plate.basis_tri_p Plate.basis_tri_m
           Plate.basis_node_p Plate.basis_node_m.
Proof.
  split; [exact plate_table_views_ok|].
  intros m Hm. change (m < 1)%nat in Hm. assert (m = 0%nat) by lia. subst m.
  vm_compute. intuition discriminate.
Qed.

Lemma plate_swapped_basis_ok :
  basis_ok Plate.triangle_nodes Plate.swapped_tri_p Plate.swapped_tri_m
           Plate.swapped_node_p Plate.swapped_node_m.
Proof.
  split; [repeat split|].
  intros m Hm. change (m < 1)%nat in Hm. assert (m = 0%nat) by lia. subst m.
  vm_compute. intuition discriminate.
Qed.

Lemma plate_quadrature_ok : quadrature_ok Plate.xi_eta Plate.weights.
Proof. repeat split. Qed.

Lemma plate_empty_quadrature_ok :
  quadrature_ok Plate.xi_eta_empty Plate.weights_empty.
Proof. repeat split. Qed.

Lemma plate_field_ok (e : list C) :
  length e = 3%nat -> field_ok Plate.jk_inc (mv_c [3%Z] e).
Proof.
  intros H. split; [reflexivity|]. split; [reflexivity|]. split; [reflexivity|].
  split; [|reflexivity].
  unfold mv_okb, mv_c. cbn [mv_view mv_buf c_view v_shape v_strides v_base].
  rewrite H. reflexivity.
Qed.

Lemma plate_args_ok (e : list C) :
  length e = 3%nat ->
  assembler_args_ok Plate.nodes Plate.triangle_nodes
                    Plate.basis_tri_p Plate.basis_tri_m
                    Plate.basis_node_p Plate.basis_node_m
                    Plate.xi_eta Plate.weights (mv_c [3%Z] e) Plate.jk_inc.
Proof.
  intros H. split; [exact plate_mesh_ok|]. split; [exact plate_basis_ok|].
  split; [exact plate_quadrature_ok|]. apply plate_field_ok. exact H.
Qed.

Lemma plate_swapped_args_ok :
  assembler_args_ok Plate.nodes Plate.triangle_nodes
                    Plate.swapped_tri_p Plate.swapped_tri_m
                    Plate.swapped_node_p Plate.swapped_node_m
                    Plate.xi_eta Plate.weights Plate.e_inc Plate.jk_inc.
Proof.
  split; [exact plate_mesh_ok|]. split; [exact plate_swapped_basis_ok|].
  split; [exact plate_quadrature_ok|]. apply plate_field_ok. reflexivity.
Qed.

Lemma plate_env_ok : env_ok 2 1 Plate.env.
Proof.
  split; [reflexivity|]. split; [reflexivity|]. split; [apply perm_swap|].
  split; [|apply Permutation_refl].
  repeat constructor; simpl; lia.
Qed.

Lemma plate_env_serial_ok : env_ok 2 1 Plate.env_serial.
Proof.
  split; [reflexivity|]. split; [reflexivity|]. split; [apply Permutation_refl|].
  split; [|apply Permutation_refl].
  repeat constructor; simpl; lia.
Qed.

Lemma plate_swapped_table_in_range :
  table_in_range Plate.swapped_tri_p Plate.swapped_tri_m
                 Plate.swapped_node_p Plate.swapped_node_m
                 Plate.vector_face Plate.scalar_face.
Proof.
  intros m Hm p i Hpi. change (m < 1)%nat in Hm.
  assert (m = 0%nat) by lia. subst m.
  destruct Hpi as [E|E]; injection E as -> ->; vm_compute; intuition discriminate.
Qed.

Lemma pair_swapped_at :
  swapped_at 0 Cases.pair_tri_p Cases.pair_tri_m
             Cases.pair_node_p Cases.pair_node_m
             Cases.pair_swapped_tri_p Cases.pair_swapped_tri_m
             Cases.pair_swapped_node_p Cases.pair_swapped_node_m.
Proof.
  split; [reflexivity|]. repeat (split; [reflexivity|]).
  intros k Hk. destruct k as [|[|k]]; [congruence| |].
  - repeat split.
  - unfold tri_plus, tri_minus, node_plus, node_minus.
    repeat split; unfold Cases.pair_swapped_tri_p, Cases.pair_swapped_tri_m,
      Cases.pair_swapped_node_p, Cases.pair_swapped_node_m, Cases.pair_tri_p,
      Cases.pair_tri_m, Cases.pair_node_p, Cases.pair_node_m;
      rewrite !mv_at_c1_out by (simpl; lia); reflexivity.
Qed.

Lemma pair_table_in_range :
  table_in_range Cases.pair_tri_p Cases.pair_tri_m
                 Cases.pair_node_p Cases.pair_node_m
                 Plate.vector_face Plate.scalar_face.
Proof.
  intros m Hm p i Hpi. change (m < 2)%nat in Hm.
  destruct m as [|[|m]]; [| |lia];
    destruct Hpi as [E|E]; injection E as -> ->; vm_compute;
    intuition discriminate.
Qed.

Lemma pair_swapped_table_in_range :
  table_in_range Cases.pair_swapped_tri_p Cases.pair_swapped_tri_m
                 Cases.pair_swapped_node_p Cases.pair_swapped_node_m
                 Plate.vector_face Plate.scalar_face.
Proof.
  intros m Hm p i Hpi. change (m < 2)%nat in Hm.
  destruct m as [|[|m]]; [| |lia];
    destruct Hpi as [E|E]; injection E as -> ->; vm_compute;
    intuition discriminate.
Qed.

Lemma pair_args_ok :
  assembler_args_ok Plate.nodes Plate.triangle_nodes
                    Cases.pair_tri_p Cases.pair_tri_m
                    Cases.pair_node_p Cases.pair_node_m
                    Plate.xi_eta Plate.weights Plate.e_inc Plate.jk_inc.
Proof.
  split; [exact plate_mesh_ok|]. split.
  - split; [repeat split|].
    intros m Hm. change (m < 2)%nat in Hm.
    destruct m as [|[|m]]; [| |lia]; vm_compute; intuition discriminate.
  - split; [exact plate_quadrature_ok|]. apply plate_field_ok. reflexivity.
Qed.

Lemma pair_swapped_args_ok :
  assembler_args_ok Plate.nodes Plate.triangle_nodes
                    Cases.pair_swapped_tri_p Cases.pair_swapped_tri_m
                    Cases.pair_swapped_node_p Cases.pair_swapped_node_m
                    Plate.xi_eta Plate.weights Plate.e_inc Plate.jk_inc.
Proof.
  split; [exact plate_mesh_ok|]. split.
  - split; [repeat split|].
    intros m Hm. change (m < 2)%nat in Hm.
    destruct m as [|[|m]]; [| |lia]; vm_compute; intuition discriminate.
  - split; [exact plate_quadrature_ok|]. apply plate_field_ok. reflexivity.
Qed.

Lemma env_two_ok : env_ok 2 2 Cases.env_two.
Proof.
  split; [reflexivity|]. split; [reflexivity|]. split; [apply perm_swap|].
  split; [|apply perm_swap].
  repeat constructor; simpl; lia.
Qed.

Lemma env_pair_ok : env_ok 2 2 Cases.env_pair.
Proof.
  split; [reflexivity|]. split; [reflexivity|]. split; [apply perm_swap|].
  split; [|apply Permutation_refl].
  repeat constructor; simpl; lia.
Qed.

Lemma C5_witness :
  exists vr sr vr' sr' V V',
    triangle_face_to_rwg Cases.pair_tri_p Cases.pair_tri_m
                         Cases.pair_node_p Cases.pair_node_m
                         Plate.vector_face Plate.scalar_face
                         Plate.junk Plate.junk' = Some (vr, sr) /\
    triangle_face_to_rwg Cases.pair_swapped_tri_p Cases.pair_swapped_tri_m
                         Cases.pair_swapped_node_p Cases.pair_swapped_node_m
                         Plate.vector_face Plate.scalar_face
                         Plate.junk' Plate.junk = Some (vr', sr') /\
    voltage_plane_wave Plate.nodes Plate.triangle_nodes
                       Cases.pair_tri_p Cases.pair_tri_m
                       Cases.pair_node_p Cases.pair_node_m
                       Plate.xi_eta Plate.weights Plate.e_inc Plate.jk_inc
                       Cases.env_pair = Some V /\
    voltage_plane_wave Plate.nodes Plate.triangle_nodes
                       Cases.pair_swapped_tri_p Cases.pair_swapped_tri_m
                       Cases.pair_swapped_node_p Cases.pair_swapped_node_m
                       Plate.xi_eta Plate.weights Plate.e_inc Plate.jk_inc
                       Cases.env_two = Some V' /\
    (forall i j, (i < 2)%nat -> (j < 2)%nat ->
       ((i = 0%nat /\ j <> 0%nat) \/ (i <> 0%nat /\ j = 0%nat) ->
          mat_get vr' i j = (- mat_get vr i j)%C /\
          mat_get sr' i j = (- mat_get sr i j)%C) /\
       ((i = 0%nat /\ j = 0%nat) \/ (i <> 0%nat /\ j <> 0%nat) ->
          mat_get vr' i j = mat_get vr i j /\
          mat_get sr' i j = mat_get sr i j)) /\
    (exists v, nth_error V 0 = Some v /\ nth_error V' 0 = Some (- v)%C) /\
    (forall k, (k < 2)%nat -> k <> 0%nat -> nth_error V' k = nth_error V k).
Proof.
  apply (C5_swap_negates_off_diagonal 0
           Cases.pair_tri_p Cases.pair_tri_m
           Cases.pair_node_p Cases.pair_node_m
           Cases.pair_swapped_tri_p Cases.pair_swapped_tri_m
           Cases.pair_swapped_node_p Cases.pair_swapped_node_m
           Plate.vector_face Plate.scalar_face
           Plate.junk Plate.junk' Plate.junk' Plate.junk
           Plate.nodes Plate.triangle_nodes Plate.xi_eta Plate.weights
           Plate.e_inc Plate.jk_inc Cases.env_pair Cases.env_two).
  - exact pair_swapped_at.
  - vm_compute. lia.
  - reflexivity.
  - reflexivity.
  - exact pair_table_in_range.
  - exact pair_swapped_table_in_range.
  - exact pair_args_ok.
  - exact pair_swapped_args_ok.
  - exact env_pair_ok.
  - exact env_two_ok.
Defined.

(* ================================================================= *)
(** * The source integrator *)

Lemma c_view3_ok (buf : list C) :
  length buf = 3%nat -> result_view_ok (c_view [3%Z]) buf.
Proof.
  intros H. split; [reflexivity|]. split; [reflexivity|]. split; [cbn; lia|].
  intros a Ha. unfold offset, c_view.
  cbn [v_base v_strides c_strides dot_idx fold_right]. lia.
Qed.

(** Run on a fresh vector, the integrator returns the three integrals. *)
Lemma integrator_result_char (xi_eta_o weights_o nodes_o : memview R)
      (jk_inc e_inc : memview C) :
  integrator_args_ok xi_eta_o weights_o nodes_o jk_inc e_inc ->
  integrator_result xi_eta_o weights_o nodes_o jk_inc e_inc
  = Some (map (integral_spec xi_eta_o weights_o nodes_o jk_inc e_inc) range3).
Proof.
  intros Hargs. unfold integrator_result.
  destruct (source_integral_char xi_eta_o weights_o nodes_o jk_inc e_inc
              (c_view [3%Z]) Hargs [C0; C0; C0] (c_view3_ok [C0; C0; C0] eq_refl))
    as (buf & E & Hl & Hc & _).
  rewrite E. f_equal.
  destruct buf as [|x0 [|x1 [|x2 [|x3 buf]]]]; try discriminate Hl.
  pose proof (Hc 0%nat ltac:(lia)) as H0.
  pose proof (Hc 1%nat ltac:(lia)) as H1.
  pose proof (Hc 2%nat ltac:(lia)) as H2.
  change (Some x0 = Some (integral_spec xi_eta_o weights_o nodes_o jk_inc e_inc 0)) in H0.
  change (Some x1 = Some (integral_spec xi_eta_o weights_o nodes_o jk_inc e_inc 1)) in H1.
  change (Some x2 = Some (integral_spec xi_eta_o weights_o nodes_o jk_inc e_inc 2)) in H2.
  injection H0 as ->. injection H1 as ->. injection H2 as ->. reflexivity.
Qed.

(** The real and imaginary parts of [cexp]. *)
Lemma cexp_parts (z : C) :
  cexp z = mkC (exp (Re z) * cos (Im z)) (exp (Re z) * sin (Im z)).
Proof.
  unfold cexp, creal, cimag. apply C_eq;
    unfold Cadd, Cmul, RtoC, Ci; cbn [Re Im]; ring.
Qed.

(** Evaluates the reads of concrete arrays in the goal. *)
Ltac eval_reads :=
  repeat match goal with
         | |- context [@mv_at ?A ?d ?a ?idx] =>
             let v := eval hnf in (@mv_at A d a idx) in
             change (@mv_at A d a idx) with v
         end.

(** The code's integral on the wave along x: the exponent is [-(j PI)],
    the field at the point is [-e_inc]. *)
Lemma tri_x_integral_code :
  integral_spec Plate.xi_eta_node0 Plate.weights_one Plate.tri_x
                Plate.jk_x Plate.e_inc 1 = RtoC (-1).
Proof.
  unfold integral_spec. change (n_quad Plate.xi_eta_node0) with 1%nat.
  cbn [Csum].
  unfold contribution, e_r, jk_dot_r, rho, r_pt, q_xi, q_eta, q_w, node, jk, e_amp.
  eval_reads.
  match goal with
  | |- context [cexp ?z] =>
      replace z with (mkC 0 (- PI)) by c_ring
  end.
  rewrite cexp_parts. cbn [Re Im].
  rewrite exp_0, cos_neg, cos_PI, sin_neg, sin_PI. c_ring.
Qed.

(** The integral with the exponent of the specification read literally: the
    exponent is [-j (j PI) = PI], the field at the point is [exp(PI) e_inc]. *)
Lemma tri_x_integral_literal :
  integral_spec_literal Plate.xi_eta_node0 Plate.weights_one Plate.tri_x
                        Plate.jk_x Plate.e_inc 1 = RtoC (exp PI).
Proof.
  unfold integral_spec_literal. change (n_quad Plate.xi_eta_node0) with 1%nat.
  cbn [Csum].
  unfold contribution, e_r_literal, jk_dot_r, rho, r_pt, q_xi, q_eta, q_w, node,
    jk, e_amp.
  eval_reads.
  match goal with
  | |- context [cexp ?z] =>
      replace z with (mkC PI 0) by c_ring
  end.
  rewrite cexp_parts. cbn [Re Im].
  rewrite cos_0, sin_0. c_ring.
Qed.

Lemma tri_x_args_ok :
  integrator_args_ok Plate.xi_eta_node0 Plate.weights_one Plate.tri_x
                     Plate.jk_x Plate.e_inc.
Proof. repeat split. Qed.

(** C1, as stated, fails: the specification writes the exponent as
    [-j.(jk_inc . r)], but [jk_inc] already is the wavevector times [j], and
    the code takes [exp(-(jk_inc . r))].  For the wave of [jk_inc = (j PI, 0, 0)]
    and one quadrature point at the node (1,0,0), the code's [I[1]] is [-1],
    where the formula as written gives [exp(PI)]. *)
Lemma C1_counterexample :
  integrator_args_ok Plate.xi_eta_node0 Plate.weights_one Plate.tri_x
                     Plate.jk_x Plate.e_inc
  /\ (0 < n_quad Plate.xi_eta_node0)%nat
  /\ exists I,
       integrator_result Plate.xi_eta_node0 Plate.weights_one Plate.tri_x
                         Plate.jk_x Plate.e_inc = Some I
       /\ nth 1 I C0 = RtoC (-1)
       /\ integral_spec_literal Plate.xi_eta_node0 Plate.weights_one Plate.tri_x
                                Plate.jk_x Plate.e_inc 1 = RtoC (exp PI)
       /\ nth 1 I C0 <>
          integral_spec_literal Plate.xi_eta_node0 Plate.weights_one Plate.tri_x
                                Plate.jk_x Plate.e_inc 1.
Proof.
  split; [exact tri_x_args_ok|]. split; [vm_compute; lia|].
  eexists. split; [apply integrator_result_char; exact tri_x_args_ok|].
  cbn [map range3 nth]. rewrite tri_x_integral_code, tri_x_integral_literal.
  split; [reflexivity|]. split; [reflexivity|].
  intros E. apply (f_equal Re) in E. cbn [Re RtoC] in E.
  pose proof (exp_pos PI). lra.
Qed.

(** C1, amended.  For a non-empty quadrature rule, a triangle of 3 nodes and
    complex 3-vectors [jk_inc] and [e_inc], the integrator returns and leaves
    in [I[a]] the sum over the quadrature points of [(rho[a] . e_r) * w],
    where [r] is the barycentric combination of the nodes with third
    coordinate [1 - xi - eta], [rho[a] = r - node[a]] and
    [e_r = exp(-(jk_inc . r)) * e_inc]; the rest of the buffer of [I] is
    untouched. *)
Theorem C1_source_integral_is_quadrature_sum
        (xi_eta_o weights_o nodes_o : memview R) (jk_inc e_inc : memview C)
        (I : view) (Ibuf : list C) :
  integrator_args_ok xi_eta_o weights_o nodes_o jk_inc e_inc ->
  (0 < n_quad xi_eta_o)%nat ->
  result_view_ok I Ibuf ->
  exists Ibuf',
    source_integral_plane_wave xi_eta_o weights_o nodes_o jk_inc e_inc I Ibuf
      = Some Ibuf' /\
    view_holds I Ibuf (integral_spec xi_eta_o weights_o nodes_o jk_inc e_inc) Ibuf'.
Proof.
  intros Hargs _ HI. apply source_integral_char; assumption.
Qed.

Lemma C1_witness :
  exists Ibuf',
    source_integral_plane_wave Plate.xi_eta_node0 Plate.weights_one Plate.tri_x
                               Plate.jk_x Plate.e_inc (c_view [3%Z])
                               [C1; C1; C1] = Some Ibuf' /\
    view_holds (c_view [3%Z]) [C1; C1; C1]
               (integral_spec Plate.xi_eta_node0 Plate.weights_one Plate.tri_x
                              Plate.jk_x Plate.e_inc) Ibuf'.
Proof.
  apply (C1_source_integral_is_quadrature_sum
           Plate.xi_eta_node0 Plate.weights_one Plate.tri_x
           Plate.jk_x Plate.e_inc (c_view [3%Z]) [C1; C1; C1]).
  - exact tri_x_args_ok.
  - vm_compute. lia.
  - apply c_view3_ok. reflexivity.
Defined.

(* ================================================================= *)
(** * The voltage assembler *)

Lemma nth_map_range3 {A : Type} (f : nat -> A) (d : A) (a : nat) :
  (a < 3)%nat -> nth a (map f range3) d = f a.
Proof.
  intros H. assert (E : a = 0%nat \/ a = 1%nat \/ a = 2%nat) by lia.
  destruct E as [-> | [-> | ->]]; reflexivity.
Qed.

(** C3.  For a well-formed mesh, an in-range basis index table, a quadrature
    rule and a plane wave, and for every schedule of the two parallel loops,
    [voltage_plane_wave] returns a vector [V] of length [num_basis] with
    [V[m] = V_face[tri_plus(m), node_plus(m)] - V_face[tri_minus(m), node_minus(m)]],
    where [V_face[p, :]] is what the integrator returns for the node
    coordinates of triangle [p]. *)
Theorem C3_voltage_is_signed_face_difference
        (nodes : memview R) (triangle_nodes : memview Z)
        (tp tm np nm : memview Z) (xi_eta weights : memview R)
        (e_inc jk_inc : memview C) (env : omp_env) :
  assembler_args_ok nodes triangle_nodes tp tm np nm xi_eta weights e_inc jk_inc ->
  env_ok (num_triangles triangle_nodes) (num_basis tp) env ->
  exists V,
    voltage_plane_wave nodes triangle_nodes tp tm np nm xi_eta weights
                       e_inc jk_inc env = Some V /\
    length V = num_basis tp /\
    forall m, (m < num_basis tp)%nat ->
      exists I_plus I_minus,
        V_face_row nodes triangle_nodes xi_eta weights e_inc jk_inc (tri_plus tp m)
          = Some I_plus /\
        V_face_row nodes triangle_nodes xi_eta weights e_inc jk_inc (tri_minus tm m)
          = Some I_minus /\
        nth_error V m
        = Some (nth (Z.to_nat (node_plus np m)) I_plus C0
                - nth (Z.to_nat (node_minus nm m)) I_minus C0)%C.
Proof.
  intros Hargs Henv.
  destruct (voltage_char _ _ _ _ _ _ _ _ _ _ Hargs env Henv) as (V & EV & Hl & HV).
  exists V. split; [exact EV|]. split; [exact Hl|].
  intros m Hm.
  destruct Hargs as (_ & (_ & Hrange) & Hquad & Hfield).
  destruct (Hrange m Hm) as (R1 & R2 & R3 & R4).
  assert (Hrow : forall p,
            V_face_row nodes triangle_nodes xi_eta weights e_inc jk_inc p
            = Some (map (integral_spec xi_eta weights
                           (gather_nodes nodes triangle_nodes (Z.to_nat p))
                           jk_inc e_inc) range3)).
  { intros p. unfold V_face_row. apply integrator_result_char.
    split; [exact Hquad|]. split; [apply gather_nodes_ok|exact Hfield]. }
  eexists _, _. split; [apply Hrow|]. split; [apply Hrow|].
  rewrite (HV m Hm), !nth_map_range3 by lia. reflexivity.
Qed.

Lemma C3_witness :
  exists V,
    voltage_plane_wave Plate.nodes Plate.triangle_nodes
                       Plate.basis_tri_p Plate.basis_tri_m
                       Plate.basis_node_p Plate.basis_node_m
                       Plate.xi_eta Plate.weights Plate.e_inc Plate.jk_inc
                       Plate.env = Some V /\
    length V = 1%nat /\
    forall m, (m < 1)%nat ->
      exists I_plus I_minus,
        V_face_row Plate.nodes Plate.triangle_nodes Plate.xi_eta Plate.weights
                   Plate.e_inc Plate.jk_inc (tri_plus Plate.basis_tri_p m)
          = Some I_plus /\
        V_face_row Plate.nodes Plate.triangle_nodes Plate.xi_eta Plate.weights
                   Plate.e_inc Plate.jk_inc (tri_minus Plate.basis_tri_m m)
          = Some I_minus /\
        nth_error V m
        = Some (nth (Z.to_nat (node_plus Plate.basis_node_p m)) I_plus C0
                - nth (Z.to_nat (node_minus Plate.basis_node_m m)) I_minus C0)%C.
Proof.
  apply (C3_voltage_is_signed_face_difference
           Plate.nodes Plate.triangle_nodes
           Plate.basis_tri_p Plate.basis_tri_m
           Plate.basis_node_p Plate.basis_node_m
           Plate.xi_eta Plate.weights Plate.e_inc Plate.jk_inc Plate.env).
  - apply (plate_args_ok [C1; C0; C0]). reflexivity.
  - exact plate_env_ok.
Defined.

(** ** Linearity in the field amplitude *)

Lemma Csum_add (f g : nat -> C) (n : nat) :
  Csum (fun k => f k + g k)%C n = (Csum f n + Csum g n)%C.
Proof.
  induction n as [|n IH]; simpl; [c_ring|]. rewrite IH. c_ring.
Qed.

Lemma Csum_zero (f : nat -> C) (n : nat) :
  (forall k, (k < n)%nat -> f k = C0) -> Csum f n = C0.
Proof.
  induction n as [|n IH]; intros H; simpl; [reflexivity|].
  rewrite IH by (intros; apply H; lia). rewrite H by lia. c_ring.
Qed.

Lemma integral_spec_add (xi_eta_o weights_o nodes_o : memview R)
      (jk_inc e1 e2 e12 : memview C) (a : nat) :
  (forall b, (b < 3)%nat -> e_amp e12 b = (e_amp e1 b + e_amp e2 b)%C) ->
  integral_spec xi_eta_o weights_o nodes_o jk_inc e12 a
  = (integral_spec xi_eta_o weights_o nodes_o jk_inc e1 a
     + integral_spec xi_eta_o weights_o nodes_o jk_inc e2 a)%C.
Proof.
  intros H. unfold integral_spec. rewrite <- Csum_add.
  apply Csum_ext. intros k _. unfold contribution, e_r.
  rewrite (H 0%nat), (H 1%nat), (H 2%nat) by lia. c_ring.
Qed.

Lemma nth_error_all_repeat {A : Type} (x : A) (l : list A) (n : nat) :
  length l = n -> (forall m, (m < n)%nat -> nth_error l m = Some x) ->
  l = repeat x n.
Proof.
  revert n. induction l as [|y l IH]; intros n Hl H; simpl in Hl; subst n;
    [reflexivity|].
  simpl. f_equal.
  - specialize (H 0%nat ltac:(lia)). simpl in H. congruence.
  - apply IH; [reflexivity|]. intros m Hm. apply (H (S m)). lia.
Qed.

(** The program over the arithmetic of the reals is the program of the
    first part. *)
Lemma real_voltage (nodes : memview R) (triangle_nodes : memview Z)
      (tp tm np nm : memview Z) (xi_eta weights : memview R)
      (e_inc jk_inc : memview C) (env : omp_env) :
  Gen.voltage_plane_wave real_arith nodes triangle_nodes tp tm np nm
                         xi_eta weights e_inc jk_inc
                         (n_threads env) (malloc_junk env)
                         (sched_tri env) (sched_basis env)
  = voltage_plane_wave nodes triangle_nodes tp tm np nm xi_eta weights
                       e_inc jk_inc env.
Proof. reflexivity. Qed.

Lemma real_source_integral (xi_eta_o weights_o nodes_o : memview R)
      (jk_inc e_inc : memview C) (I : view) (Ibuf : list C) :
  Gen.source_integral_plane_wave real_arith xi_eta_o weights_o nodes_o
                                 jk_inc e_inc I Ibuf
  = source_integral_plane_wave xi_eta_o weights_o nodes_o jk_inc e_inc I Ibuf.
Proof. reflexivity. Qed.

Lemma real_dot_product (r : role) (length : Z) (a : ptr C) (b : ptr R) :
  Gen.dot_product_complex_real real_arith r length a b
  = dot_product_complex_real length a b.
Proof. reflexivity. Qed.

(* ================================================================= *)
(** * Two runs of the program, side by side *)

Lemma option_rel_bind {X Y X' Y' : Type} (P : X -> X' -> Prop)
      (Q : Y -> Y' -> Prop) (o : option X) (o' : option X')
      (k : X -> option Y) (k' : X' -> option Y') :
  option_rel P o o' ->
  (forall x x', P x x' -> option_rel Q (k x) (k' x')) ->
  option_rel Q (bind o k) (bind o' k').
Proof.
  intros Ho Hk. destruct o as [x|], o' as [x'|]; simpl in *;
    try contradiction; [apply Hk; exact Ho|exact I].
Qed.

(** The same read on both sides. *)
Lemma option_rel_same {X Y Y' : Type} (Q : Y -> Y' -> Prop) (o : option X)
      (k : X -> option Y) (k' : X -> option Y') :
  (forall x, option_rel Q (k x) (k' x)) ->
  option_rel Q (bind o k) (bind o k').
Proof.
  intros Hk. destruct o as [x|]; simpl; [apply Hk|exact I].
Qed.

Lemma foldM_rel {S S' X : Type} (P : S -> S' -> Prop)
      (body : X -> S -> option S) (body' : X -> S' -> option S') (l : list X) :
  (forall x s s', P s s' -> option_rel P (body x s) (body' x s')) ->
  forall s s', P s s' -> option_rel P (foldM body l s) (foldM body' l s').
Proof.
  intros Hb. induction l as [|x l IH]; intros s s' Hs; simpl; [exact Hs|].
  apply (option_rel_bind P); [apply Hb; exact Hs|exact IH].
Qed.

Lemma mapM_rel {X Y Y' : Type} (P : Y -> Y' -> Prop)
      (f : X -> option Y) (f' : X -> option Y') (l : list X) :
  (forall x, option_rel P (f x) (f' x)) ->
  option_rel (Forall2 P) (mapM f l) (mapM f' l).
Proof.
  intros Hf. induction l as [|x l IH]; simpl; [constructor|].
  apply (option_rel_bind P); [apply Hf|]. intros y y' Hy.
  apply (option_rel_bind (Forall2 P)); [exact IH|]. intros ys ys' Hys.
  simpl. constructor; assumption.
Qed.

Lemma Forall2_nth_error {X Y : Type} (P : X -> Y -> Prop) (l : list X)
      (l' : list Y) (k : nat) :
  Forall2 P l l' -> option_rel P (nth_error l k) (nth_error l' k).
Proof.
  intros H. revert k. induction H as [|x y l l' Hxy H IH]; intros [|k]; simpl;
    try exact I; [exact Hxy|apply IH].
Qed.

Lemma Forall2_nth {X Y : Type} (P : X -> Y -> Prop) (l : list X)
      (l' : list Y) (k : nat) (d : X) (d' : Y) :
  Forall2 P l l' -> P d d' -> P (nth k l d) (nth k l' d').
Proof.
  intros H Hd. revert k. induction H as [|x y l l' Hxy H IH]; intros [|k]; simpl;
    try exact Hd; [exact Hxy|apply IH].
Qed.

Lemma Forall2_list_set {X Y : Type} (P : X -> Y -> Prop) (l : list X)
      (l' : list Y) (k : nat) (x : X) (y : Y) :
  Forall2 P l l' -> P x y -> Forall2 P (list_set l k x) (list_set l' k y).
Proof.
  intros H Hxy. revert k. induction H as [|a b l l' Hab H IH]; intros [|k]; simpl;
    constructor; try assumption. apply IH.
Qed.

Lemma Forall2_repeat {X Y : Type} (P : X -> Y -> Prop) (x : X) (y : Y) (n : nat) :
  P x y -> Forall2 P (repeat x n) (repeat y n).
Proof.
  intros H. induction n as [|n IH]; simpl; constructor; assumption.
Qed.

Lemma buf_read_rel {X Y : Type} (P : X -> Y -> Prop) (b : list X) (b' : list Y)
      (off : Z) :
  Forall2 P b b' -> option_rel P (buf_read b off) (buf_read b' off).
Proof.
  intros H. unfold buf_read. destruct (off <? 0)%Z; [exact I|].
  apply Forall2_nth_error. exact H.
Qed.

Lemma buf_write_rel {X Y : Type} (P : X -> Y -> Prop) (b : list X) (b' : list Y)
      (off : Z) (x : X) (y : Y) :
  Forall2 P b b' -> P x y ->
  option_rel (Forall2 P) (buf_write b off x) (buf_write b' off y).
Proof.
  intros H Hxy. unfold buf_write. rewrite <- (Forall2_length H).
  destruct ((0 <=? off) && (off <? Z.of_nat (length b)))%Z; [|exact I].
  simpl. apply Forall2_list_set; assumption.
Qed.

Lemma mv_get_rel {X Y : Type} (P : X -> Y -> Prop) (a : memview X)
      (a' : memview Y) (idx : list Z) :
  mv_rel P a a' -> option_rel P (mv_get a idx) (mv_get a' idx).
Proof.
  intros [Hv Hb]. unfold mv_get. rewrite <- Hv. apply buf_read_rel. exact Hb.
Qed.

Section Relational.

Variables A1 A2 : arith.
Variable RD : dbl A1 -> dbl A2 -> Prop.
Variable RK : forall r, cpx A1 r -> cpx A2 r -> Prop.
Hypothesis Hops : ops_related A1 A2 RD RK.

Lemma dot_product_rel (r : role) (length : Z)
      (a : ptr (cpx A1 r)) (a' : ptr (cpx A2 r))
      (b : ptr (dbl A1)) (b' : ptr (dbl A2)) :
  Forall2 (RK r) (fst a) (fst a') -> snd a = snd a' ->
  Forall2 RD (fst b) (fst b') -> snd b = snd b' ->
  option_rel (RK r) (Gen.dot_product_complex_real A1 r length a b)
             (Gen.dot_product_complex_real A2 r length a' b').
Proof.
  intros Ha Hoa Hb Hob.
  destruct Hops as (_ & _ & _ & _ & _ & Hz & Hadd & _ & _ & Hmd & _).
  unfold Gen.dot_product_complex_real, for_range.
  apply (foldM_rel (RK r)); [|apply Hz].
  intros k s s' Hs. unfold ptr_read. rewrite <- Hoa, <- Hob.
  apply (option_rel_bind (RK r)); [apply buf_read_rel; exact Ha|].
  intros x x' Hx.
  apply (option_rel_bind RD); [apply buf_read_rel; exact Hb|].
  intros y y' Hy. simpl. apply Hadd; [exact Hs|]. apply Hmd; assumption.
Qed.

Section IntegratorRel.

Variables (xi_eta_o weights_o nodes_o : memview (dbl A1))
          (xi_eta_o' weights_o' nodes_o' : memview (dbl A2)).
Variables (jk_inc : memview (cpx A1 Phase)) (jk_inc' : memview (cpx A2 Phase)).
Variables (e_inc : memview (cpx A1 Field)) (e_inc' : memview (cpx A2 Field)).
Variable I : view.
Hypothesis Hxi : mv_rel RD xi_eta_o xi_eta_o'.
Hypothesis Hw : mv_rel RD weights_o weights_o'.
Hypothesis Hn : mv_rel RD nodes_o nodes_o'.
Hypothesis Hjk : mv_rel (RK Phase) jk_inc jk_inc'.
Hypothesis He : mv_rel (RK Field) e_inc e_inc'.

Lemma clear_I_rel (Ibuf : list (cpx A1 Field)) (Ibuf' : list (cpx A2 Field)) :
  Forall2 (RK Field) Ibuf Ibuf' ->
  option_rel (Forall2 (RK Field)) (Gen.clear_I A1 I Ibuf) (Gen.clear_I A2 I Ibuf').
Proof.
  intros H. destruct Hops as (_ & _ & _ & _ & _ & Hz & _).
  unfold Gen.clear_I, for_range.
  apply (foldM_rel (Forall2 (RK Field))); [|exact H].
  intros k s s' Hs. apply buf_write_rel; [exact Hs|apply Hz].
Qed.

Lemma quad_point_rel (count_o : nat)
      (Ibuf : list (cpx A1 Field)) (Ibuf' : list (cpx A2 Field)) :
  Forall2 (RK Field) Ibuf Ibuf' ->
  option_rel (Forall2 (RK Field))
    (Gen.quad_point A1 xi_eta_o weights_o nodes_o jk_inc e_inc I count_o Ibuf)
    (Gen.quad_point A2 xi_eta_o' weights_o' nodes_o' jk_inc' e_inc' I count_o Ibuf').
Proof.
  intros H.
  pose proof Hops as (Hd0 & Hd1 & Hdadd & Hdsub & Hdmul & Hz & Hadd & Hsub
                      & Hneg & Hmd & Hexp & Hmul).
  unfold Gen.quad_point.
  apply (option_rel_bind RD); [apply mv_get_rel; exact Hw|]. intros w w' Hw0.
  apply (option_rel_bind RD); [apply mv_get_rel; exact Hxi|]. intros xi xi' Hxi0.
  apply (option_rel_bind RD); [apply mv_get_rel; exact Hxi|]. intros eta eta' Heta.
  cbv zeta.
  apply (option_rel_bind (Forall2 RD)).
  { apply mapM_rel. intros a.
    apply (option_rel_bind RD); [apply mv_get_rel; exact Hn|]. intros n0 n0' Hn0.
    apply (option_rel_bind RD); [apply mv_get_rel; exact Hn|]. intros n1 n1' Hn1.
    apply (option_rel_bind RD); [apply mv_get_rel; exact Hn|]. intros n2 n2' Hn2.
    simpl. apply Hdadd; [apply Hdadd; apply Hdmul; assumption|].
    apply Hdmul; [|exact Hn2]. apply Hdsub; [|exact Hxi0].
    apply Hdsub; [exact Hd1|exact Heta]. }
  intros r_o r_o' Hr.
  apply (option_rel_bind (Forall2 (Forall2 RD))).
  { apply mapM_rel. intros a. apply mapM_rel. intros b.
    apply (option_rel_bind RD); [apply mv_get_rel; exact Hn|]. intros n n' Hn0.
    simpl. apply Hdsub; [|exact Hn0]. apply Forall2_nth; assumption. }
  intros rho rho' Hrho.
  apply (option_rel_bind (RK Phase)).
  { apply dot_product_rel; simpl; try reflexivity; try assumption.
    - apply Hjk.
    - destruct Hjk as [Hv _]. rewrite Hv. reflexivity. }
  intros jkr jkr' Hjkr.
  apply (option_rel_bind (Forall2 (RK Field))).
  { apply mapM_rel. intros a.
    apply (option_rel_bind (RK Field)); [apply mv_get_rel; exact He|].
    intros e e' He0. simpl. apply Hmul; [|exact He0]. apply Hexp, Hneg, Hjkr. }
  intros e_r e_r' Her.
  apply (foldM_rel (Forall2 (RK Field))); [|exact H].
  intros a s s' Hs.
  apply (option_rel_bind (RK Field)).
  { apply dot_product_rel; simpl; try reflexivity; try assumption.
    apply Forall2_nth; [exact Hrho|constructor]. }
  intros d d' Hd.
  apply (option_rel_bind (RK Field)); [apply buf_read_rel; exact Hs|].
  intros cur cur' Hcur.
  apply buf_write_rel; [exact Hs|]. apply Hadd; [exact Hcur|].
  apply Hmd; assumption.
Qed.

Lemma source_integral_rel
      (Ibuf : list (cpx A1 Field)) (Ibuf' : list (cpx A2 Field)) :
  Forall2 (RK Field) Ibuf Ibuf' ->
  option_rel (Forall2 (RK Field))
    (Gen.source_integral_plane_wave A1 xi_eta_o weights_o nodes_o jk_inc e_inc
                                    I Ibuf)
    (Gen.source_integral_plane_wave A2 xi_eta_o' weights_o' nodes_o' jk_inc'
                                    e_inc' I Ibuf').
Proof.
  intros H. unfold Gen.source_integral_plane_wave.
  destruct Hxi as [Hv _]. rewrite <- Hv.
  apply (option_rel_bind (Forall2 (RK Field))); [apply clear_I_rel; exact H|].
  intros b b' Hb. unfold for_range.
  apply (foldM_rel (Forall2 (RK Field))); [|exact Hb].
  intros k s s' Hs. apply quad_point_rel. exact Hs.
Qed.

End IntegratorRel.

Section AssemblerRel.

Variables (nodes : memview (dbl A1)) (nodes' : memview (dbl A2)).
Variable triangle_nodes : memview Z.
Variables tp tm np nm : memview Z.
Variables (xi_eta weights : memview (dbl A1)) (xi_eta' weights' : memview (dbl A2)).
Variables (e_inc : memview (cpx A1 Field)) (e_inc' : memview (cpx A2 Field)).
Variables (jk_inc : memview (cpx A1 Phase)) (jk_inc' : memview (cpx A2 Phase)).
Hypothesis Hn : mv_rel RD nodes nodes'.
Hypothesis Hxi : mv_rel RD xi_eta xi_eta'.
Hypothesis Hw : mv_rel RD weights weights'.
Hypothesis He : mv_rel (RK Field) e_inc e_inc'.
Hypothesis Hjk : mv_rel (RK Phase) jk_inc jk_inc'.

Lemma tri_iter_rel (nt num_triangles : Z) (it : nat * Z)
      (st : list (dbl A1) * list (cpx A1 Field))
      (st' : list (dbl A2) * list (cpx A2 Field)) :
  @state_rel A1 A2 RD RK st st' ->
  option_rel (@state_rel A1 A2 RD RK)
    (Gen.tri_iter A1 nodes triangle_nodes xi_eta weights e_inc jk_inc
                  nt num_triangles it st)
    (Gen.tri_iter A2 nodes' triangle_nodes xi_eta' weights' e_inc' jk_inc'
                  nt num_triangles it st').
Proof.
  destruct it as [p tid], st as [sto vf], st' as [sto' vf'].
  intros [Hs Hv]. simpl in Hs, Hv. unfold Gen.tri_iter.
  apply (option_rel_bind (Forall2 RD)).
  { apply (foldM_rel (Forall2 RD)); [|exact Hs]. intros m s s' Hs0.
    apply (foldM_rel (Forall2 RD)); [|exact Hs0]. intros q t t' Ht.
    apply option_rel_same. intros which.
    apply (option_rel_bind RD); [apply mv_get_rel; exact Hn|]. intros x x' Hx.
    apply buf_write_rel; assumption. }
  intros s1 s1' Hs1.
  apply (option_rel_bind (Forall2 (RK Field))).
  { apply source_integral_rel; try assumption. split; [reflexivity|exact Hs1]. }
  intros v1 v1' Hv1. simpl. split; assumption.
Qed.

Lemma basis_iter_rel (num_triangles : Z)
      (V_face : list (cpx A1 Field)) (V_face' : list (cpx A2 Field)) (m : nat)
      (V : list (cpx A1 Field)) (V' : list (cpx A2 Field)) :
  Forall2 (RK Field) V_face V_face' -> Forall2 (RK Field) V V' ->
  option_rel (Forall2 (RK Field))
    (Gen.basis_iter A1 tp tm np nm num_triangles V_face m V)
    (Gen.basis_iter A2 tp tm np nm num_triangles V_face' m V').
Proof.
  intros Hf HV. destruct Hops as (_ & _ & _ & _ & _ & _ & _ & Hsub & _).
  unfold Gen.basis_iter.
  apply option_rel_same. intros p_p. apply option_rel_same. intros p_m.
  apply option_rel_same. intros ip_p. apply option_rel_same. intros ip_m.
  apply (option_rel_bind (RK Field));
    [apply mv_get_rel; split; [reflexivity|exact Hf]|]. intros a a' Ha.
  apply (option_rel_bind (RK Field));
    [apply mv_get_rel; split; [reflexivity|exact Hf]|]. intros b b' Hb.
  apply buf_write_rel; [exact HV|]. apply Hsub; assumption.
Qed.

Lemma voltage_rel (nt : Z) (storage : list (dbl A1)) (storage' : list (dbl A2))
      (sched_tri : list (nat * Z)) (sched_basis : list nat) :
  Forall2 RD storage storage' ->
  option_rel (Forall2 (RK Field))
    (Gen.voltage_plane_wave A1 nodes triangle_nodes tp tm np nm xi_eta weights
                            e_inc jk_inc nt storage sched_tri sched_basis)
    (Gen.voltage_plane_wave A2 nodes' triangle_nodes tp tm np nm xi_eta' weights'
                            e_inc' jk_inc' nt storage' sched_tri sched_basis).
Proof.
  intros Hs. pose proof Hops as (_ & _ & _ & _ & _ & Hz & _).
  unfold Gen.voltage_plane_wave.
  destruct ((c_int (shape (mv_view tp) 0) <? 0)
            || (c_int (shape (mv_view triangle_nodes) 0) <? 0))%Z; [exact I|].
  cbv zeta.
  apply (option_rel_bind (@state_rel A1 A2 RD RK)).
  { apply (foldM_rel (@state_rel A1 A2 RD RK)).
    - intros it st st' Hst. apply tri_iter_rel. exact Hst.
    - split; simpl; [exact Hs|]. apply Forall2_repeat. apply Hz. }
  intros st st' [_ Hvf].
  apply (foldM_rel (Forall2 (RK Field))).
  - intros m V V' HV. apply basis_iter_rel; assumption.
  - apply Forall2_repeat. apply Hz.
Qed.

End AssemblerRel.

End Relational.

(* ================================================================= *)
(** * Zeros and NaN in IEEE arithmetic *)

Lemma zero_or_nan_cadd (z w : Ieee.complex) :
  Ieee.zero_or_nan z = true -> Ieee.zero_or_nan w = true ->
  Ieee.zero_or_nan (Ieee.cadd z w) = true.
Proof.
  destruct z as [a b], w as [c d].
  destruct a as [[|]|[|]| |[|] ? ?]; try discriminate;
    destruct b as [[|]|[|]| |[|] ? ?]; try discriminate;
    destruct c as [[|]|[|]| |[|] ? ?]; try discriminate;
    destruct d as [[|]|[|]| |[|] ? ?]; try discriminate; reflexivity.
Qed.

Lemma zero_or_nan_csub (z w : Ieee.complex) :
  Ieee.zero_or_nan z = true -> Ieee.zero_or_nan w = true ->
  Ieee.zero_or_nan (Ieee.csub z w) = true.
Proof.
  destruct z as [a b], w as [c d].
  destruct a as [[|]|[|]| |[|] ? ?]; try discriminate;
    destruct b as [[|]|[|]| |[|] ? ?]; try discriminate;
    destruct c as [[|]|[|]| |[|] ? ?]; try discriminate;
    destruct d as [[|]|[|]| |[|] ? ?]; try discriminate; reflexivity.
Qed.

(** A field value that is zero or NaN stays so when it is multiplied by a
    phase, whatever the phase: [0 * x] is [0] for a finite [x] and NaN for
    an infinite one. *)
Lemma zero_or_nan_cmul (p f : Ieee.complex) :
  Ieee.zero_or_nan f = true -> Ieee.zero_or_nan (Ieee.cmul p f) = true.
Proof.
  destruct p as [a b], f as [c d].
  destruct c as [[|]|[|]| |[|] ? ?]; try discriminate;
    destruct d as [[|]|[|]| |[|] ? ?]; try discriminate;
    destruct a as [[|]|[|]| |[|] ? ?];
    destruct b as [[|]|[|]| |[|] ? ?]; reflexivity.
Qed.

Lemma zero_or_nan_cmul_double (z : Ieee.complex) (y : Ieee.double) :
  Ieee.zero_or_nan z = true ->
  Ieee.zero_or_nan (Ieee.cmul z (Ieee.of_double y)) = true.
Proof.
  destruct z as [a b].
  destruct a as [[|]|[|]| |[|] ? ?]; try discriminate;
    destruct b as [[|]|[|]| |[|] ? ?]; try discriminate;
    destruct y as [[|]|[|]| |[|] ? ?]; reflexivity.
Qed.

Lemma zero_field_related (M : Ieee.libm) :
  ops_related (Ieee.arith_of M) real_arith any_double zero_field.
Proof.
  unfold ops_related, any_double.
  repeat (split; [try exact I; try (intros; exact I)|]).
  - intros [|]; [exact I|reflexivity].
  - intros [|] x x' y y' Hx Hy; [exact I|]. apply zero_or_nan_cadd; assumption.
  - intros [|] x x' y y' Hx Hy; [exact I|]. apply zero_or_nan_csub; assumption.
  - intros [|] x x' y y' Hx _; [exact I|]. apply zero_or_nan_cmul_double. exact Hx.
  - intros p p' f f' _ Hf. apply zero_or_nan_cmul. exact Hf.
Qed.

Lemma any_related (M : Ieee.libm) :
  ops_related (Ieee.arith_of M) real_arith any_double any_complex.
Proof.
  unfold ops_related, any_double, any_complex.
  repeat (split; [try exact I; try (intros; exact I)|]). intros; exact I.
Qed.

Lemma Forall2_any {X Y : Type} (l : list X) (l' : list Y) :
  length l = length l' -> Forall2 (fun _ _ => True) l l'.
Proof.
  revert l'. induction l as [|x l IH]; intros [|y l'] H; simpl in H;
    try discriminate; constructor; [exact I|]. apply IH. lia.
Qed.

Lemma Forall2_left {X Y : Type} (P : X -> Prop) (l : list X) (l' : list Y) :
  Forall P l -> length l = length l' -> Forall2 (fun x _ => P x) l l'.
Proof.
  intros H. revert l'. induction H as [|x l Hx H IH]; intros [|y l'] L;
    simpl in L; try discriminate; constructor; [exact Hx|]. apply IH. lia.
Qed.

Lemma Forall2_left_inv {X Y : Type} (P : X -> Prop) (l : list X) (l' : list Y) :
  Forall2 (fun x _ => P x) l l' -> Forall P l.
Proof.
  intros H. induction H; constructor; assumption.
Qed.

Lemma czero_zero_or_nan (z : Ieee.complex) :
  Ieee.czero z = true -> Ieee.zero_or_nan z = true.
Proof.
  destruct z as [a b]. unfold Ieee.czero, Ieee.zero_or_nan, Ieee.zero_or_nan_part.
  cbn [Ieee.re Ieee.im]. intros H. apply andb_prop in H. destruct H as [-> ->].
  reflexivity.
Qed.

(** ** The platform's [libm] *)

Lemma libm_coarse_ok : Ieee.libm_ok Cases.libm_coarse.
Proof.
  unfold Ieee.libm_ok, Cases.libm_coarse. cbn [Ieee.m_exp Ieee.m_cos Ieee.m_sin].
  split; [|split; [|split; [|split]]].
  - intros x H. unfold Cases.exp_coarse. rewrite H. reflexivity.
  - intros x H. unfold Cases.exp_coarse.
    destruct x as [[|]|[|]| |[|] m e]; try discriminate H; try reflexivity.
    change (SFleb (Ieee.of_Z 710) (S754_finite true m e)) with false.
    cbv iota. rewrite H. reflexivity.
  - intros [|]; reflexivity.
  - intros [|]; reflexivity.
  - intros s. reflexivity.
Qed.

Lemma at_special_values_eq (M : Ieee.libm) :
  Ieee.libm_ok M -> Ieee.at_special_values M = M.
Proof.
  intros (Hover & Hunder & He & Hc & Hs). destruct M as [e c s].
  cbn [Ieee.m_exp Ieee.m_cos Ieee.m_sin] in *. unfold Ieee.at_special_values.
  cbn [Ieee.m_exp Ieee.m_cos Ieee.m_sin]. f_equal.
  - apply functional_extensionality. intros x.
    destruct (SFleb (Ieee.of_Z 710) x) eqn:E1; [symmetry; apply Hover; exact E1|].
    destruct (SFleb x (Ieee.of_Z (-746))) eqn:E2; [symmetry; apply Hunder; exact E2|].
    destruct x; try reflexivity. symmetry. apply He.
  - apply functional_extensionality. intros y.
    destruct y; try reflexivity. symmetry. apply Hc.
  - apply functional_extensionality. intros y.
    destruct y; try reflexivity. symmetry. apply Hs.
Qed.

(** ** Linearity in the field amplitude, and the zero field *)

(** On the plate, with a zero field and [jk_inc = (-2000, 0, 0)], the run on
    doubles returns NaN: at the centroid of triangle 0 the exponent is
    about 1333, [exp] overflows, [cexp] is [inf + NaN j], and its product
    with the zero amplitude is NaN. *)
Lemma growing_wave_gives_nan (M : Ieee.libm) :
  Ieee.libm_ok M ->
  Ieee.voltage_plane_wave M Cases.nodes_d Plate.triangle_nodes
    Plate.basis_tri_p Plate.basis_tri_m Plate.basis_node_p Plate.basis_node_m
    Cases.xi_eta_d Cases.weights_d Cases.e_zero_d Cases.jk_growing_d
    (n_threads Plate.env) Cases.junk_d
    (sched_tri Plate.env) (sched_basis Plate.env)
  = Some [Ieee.mkComplex Ieee.nan Ieee.nan].
Proof.
  intros H. rewrite <- (at_special_values_eq M H). vm_compute. reflexivity.
Qed.

(** The plate of §8 in doubles, with the field (1, 0, 0) travelling along z:
    the exponent is 0 on the plate, [cexp] is exactly 1, and the excitation
    value is the double [-0x1.5555555555554p-2], one unit in the last place
    away from the double nearest to the exact value [-1/3]. *)
Example plate_voltage_value_ieee (M : Ieee.libm) :
  Ieee.libm_ok M ->
  exists z,
    Ieee.voltage_plane_wave M Cases.nodes_d Plate.triangle_nodes
      Plate.basis_tri_p Plate.basis_tri_m Plate.basis_node_p Plate.basis_node_m
      Cases.xi_eta_d Cases.weights_d Cases.e_unit_d Cases.jk_inc_d
      (n_threads Plate.env) Cases.junk_d
      (sched_tri Plate.env) (sched_basis Plate.env)
    = Some [z] /\
    Ieee.re z = S754_finite true 6004799503160660 (-54) /\
    Ieee.is_zero (Ieee.im z) = true.
Proof.
  intros H. rewrite <- (at_special_values_eq M H).
  eexists. split; [vm_compute; reflexivity|]. split; reflexivity.
Qed.

Lemma plate_same_shapes :
  same_shape Cases.nodes_d Plate.nodes /\
  same_shape Cases.xi_eta_d Plate.xi_eta /\
  same_shape Cases.weights_d Plate.weights /\
  same_shape Cases.jk_growing_d Plate.jk_inc /\
  same_shape Cases.jk_inc_d Plate.jk_inc /\
  same_shape Cases.e_zero_d Plate.e_inc /\
  length Cases.junk_d = length (malloc_junk Plate.env).
Proof.
  repeat split; repeat constructor.
Qed.


(** The run on doubles goes the way of the run on the reals: it returns
    for arrays of the shapes of well-formed arguments, and a relation that
    the operations preserve holds between the two results. *)
Lemma ieee_voltage_related
      (RK : forall r, Ieee.complex -> C -> Prop) (M : Ieee.libm)
      (nodes : memview R) (triangle_nodes : memview Z)
      (tp tm np nm : memview Z) (xi_eta weights : memview R)
      (e_inc jk_inc : memview C) (env : omp_env)
      (nodes_d xi_eta_d weights_d : memview Ieee.double)
      (e_inc_d jk_inc_d : memview Ieee.complex) (storage_d : list Ieee.double) :
  ops_related (Ieee.arith_of M) real_arith any_double RK ->
  assembler_args_ok nodes triangle_nodes tp tm np nm xi_eta weights e_inc jk_inc ->
  env_ok (num_triangles triangle_nodes) (num_basis tp) env ->
  same_shape nodes_d nodes -> same_shape xi_eta_d xi_eta ->
  same_shape weights_d weights ->
  mv_rel (RK Field) e_inc_d e_inc -> mv_rel (RK Phase) jk_inc_d jk_inc ->
  length storage_d = length (malloc_junk env) ->
  exists V_d V,
    Ieee.voltage_plane_wave M nodes_d triangle_nodes tp tm np nm
      xi_eta_d weights_d e_inc_d jk_inc_d
      (n_threads env) storage_d (sched_tri env) (sched_basis env) = Some V_d /\
    voltage_plane_wave nodes triangle_nodes tp tm np nm xi_eta weights
                       e_inc jk_inc env = Some V /\
    length V_d = num_basis tp /\ Forall2 (RK Field) V_d V.
Proof.
  intros Hops Hargs Henv Sn Sxi Sw Se Sjk Ls.
  destruct (voltage_char _ _ _ _ _ _ _ _ _ _ Hargs env Henv) as (V & E & L & _).
  pose proof (voltage_rel (Ieee.arith_of M) real_arith any_double RK Hops
                nodes_d nodes triangle_nodes tp tm np nm
                xi_eta_d weights_d xi_eta weights e_inc_d e_inc
                jk_inc_d jk_inc Sn Sxi Sw Se Sjk
                (n_threads env) storage_d (malloc_junk env)
                (sched_tri env) (sched_basis env) (Forall2_any _ _ Ls)) as Hrel.
  rewrite real_voltage, E in Hrel. unfold Ieee.voltage_plane_wave.
  destruct (Gen.voltage_plane_wave (Ieee.arith_of M) nodes_d triangle_nodes
              tp tm np nm xi_eta_d weights_d e_inc_d jk_inc_d
              (n_threads env) storage_d (sched_tri env) (sched_basis env))
    as [V_d|]; [|contradiction].
  exists V_d, V. split; [reflexivity|]. split; [exact E|].
  split; [|exact Hrel].
  transitivity (length V); [exact (Forall2_length Hrel)|exact L].
Qed.


Lemma plate_e_amp_sum :
  forall b, (b < 3)%nat ->
    e_amp Plate.e_inc12 b = (e_amp Plate.e_inc b + e_amp Plate.e_inc2 b)%C.
Proof.
  intros b Hb. small_nat b; unfold e_amp; eval_reads; c_ring.
Qed.


(** ** Footprints of the iterations *)

Lemma perm_seq_once (l : list nat) (n p : nat) :
  Permutation l (seq 0 n) -> (p < n)%nat -> count_occ Nat.eq_dec l p = 1%nat.
Proof.
  intros HP Hp.
  rewrite (proj1 (Permutation_count_occ Nat.eq_dec l (seq 0 n)) HP p).
  apply (proj1 (NoDup_count_occ' Nat.eq_dec (seq 0 n)) (seq_NoDup n 0)).
  apply in_seq. lia.
Qed.

(** X19.  Two iterations of the per-triangle loop on different triangles and
    different threads commute: their footprints are disjoint. *)
Lemma tri_iter_commute
      (nodes : memview R) (triangle_nodes : memview Z)
      (tp tm np nm : memview Z) (xi_eta weights : memview R)
      (e_inc jk_inc : memview C) (nt : Z) (p1 p2 : nat) (t1 t2 : Z)
      (storage : list R) (V_face : list C) :
  assembler_args_ok nodes triangle_nodes tp tm np nm xi_eta weights e_inc jk_inc ->
  (p1 < num_triangles triangle_nodes)%nat ->
  (p2 < num_triangles triangle_nodes)%nat ->
  (0 <= t1 < nt)%Z -> (0 <= t2 < nt)%Z -> p1 <> p2 -> t1 <> t2 ->
  length storage = (Z.to_nat nt * 9)%nat ->
  length V_face = (num_triangles triangle_nodes * 3)%nat ->
  (st <- tri_iter nodes triangle_nodes xi_eta weights e_inc jk_inc nt
                  (Z.of_nat (num_triangles triangle_nodes)) (p1, t1)
                  (storage, V_face) ;;
   tri_iter nodes triangle_nodes xi_eta weights e_inc jk_inc nt
            (Z.of_nat (num_triangles triangle_nodes)) (p2, t2) st)
  = (st <- tri_iter nodes triangle_nodes xi_eta weights e_inc jk_inc nt
                    (Z.of_nat (num_triangles triangle_nodes)) (p2, t2)
                    (storage, V_face) ;;
     tri_iter nodes triangle_nodes xi_eta weights e_inc jk_inc nt
              (Z.of_nat (num_triangles triangle_nodes)) (p1, t1) st).
Proof.
  intros Hargs Hp1 Hp2 Ht1 Ht2 Hp Ht Hls Hlv.
  pose proof (tri_iter_char _ _ _ _ _ _ _ _ _ _ Hargs nt) as H.
  destruct (H t1 p1 storage V_face Hp1 Ht1 Hls Hlv)
    as (s1 & v1 & E1 & Ls1 & Fs1 & Cs1 & (Lv1 & Cv1 & Fv1)).
  destruct (H t2 p2 storage V_face Hp2 Ht2 Hls Hlv)
    as (s2 & v2 & E2 & Ls2 & Fs2 & Cs2 & (Lv2 & Cv2 & Fv2)).
  destruct (H t2 p2 s1 v1 Hp2 Ht2 ltac:(congruence) ltac:(congruence))
    as (s12 & v12 & E12 & Ls12 & Fs12 & Cs12 & (Lv12 & Cv12 & Fv12)).
  destruct (H t1 p1 s2 v2 Hp1 Ht1 ltac:(congruence) ltac:(congruence))
    as (s21 & v21 & E21 & Ls21 & Fs21 & Cs21 & (Lv21 & Cv21 & Fv21)).
  rewrite E1, E2. cbn [bind]. rewrite E12, E21. f_equal. f_equal.
  - (* the scratch storage *)
    apply list_ext_nth_error; [congruence|]. intros j Hj.
    assert (Hcell : forall t p (s' : list R),
              (forall m q, (m < 3)%nat -> (q < 3)%nat ->
                 buf_read s' (9 * t + 3 * Z.of_nat m + Z.of_nat q)
                 = Some (tri_node nodes triangle_nodes p m q)) ->
              (0 <= t)%Z -> (9 * t <= Z.of_nat j < 9 * t + 9)%Z ->
              nth_error s' j
              = Some (tri_node nodes triangle_nodes p
                               ((j - Z.to_nat (9 * t)) / 3)
                               ((j - Z.to_nat (9 * t)) mod 3))).
    { intros t p s' Hc Ht0 Hin.
      pose proof (Nat.div_mod_eq (j - Z.to_nat (9 * t)) 3) as Hd.
      pose proof (Nat.mod_upper_bound (j - Z.to_nat (9 * t)) 3 ltac:(lia)) as Hm.
      rewrite <- buf_read_nth. rewrite <- Hc by lia. f_equal. lia. }
    destruct (Z_le_gt_dec (9 * t1) (Z.of_nat j)) as [A1|A1];
      [destruct (Z_lt_ge_dec (Z.of_nat j) (9 * t1 + 9)) as [B1|B1]|].
    + (* in the block of thread 1 *)
      rewrite (Fs12 j) by lia.
      rewrite (Hcell t1 p1 s1 Cs1), (Hcell t1 p1 s21 Cs21) by lia. reflexivity.
    + destruct (Z_le_gt_dec (9 * t2) (Z.of_nat j)) as [A2|A2];
        [destruct (Z_lt_ge_dec (Z.of_nat j) (9 * t2 + 9)) as [B2|B2]|].
      * rewrite (Fs21 j) by lia.
        rewrite (Hcell t2 p2 s12 Cs12), (Hcell t2 p2 s2 Cs2) by lia. reflexivity.
      * rewrite (Fs12 j), (Fs1 j), (Fs21 j), (Fs2 j) by lia. reflexivity.
      * rewrite (Fs12 j), (Fs1 j), (Fs21 j), (Fs2 j) by lia. reflexivity.
    + destruct (Z_le_gt_dec (9 * t2) (Z.of_nat j)) as [A2|A2];
        [destruct (Z_lt_ge_dec (Z.of_nat j) (9 * t2 + 9)) as [B2|B2]|].
      * rewrite (Fs21 j) by lia.
        rewrite (Hcell t2 p2 s12 Cs12), (Hcell t2 p2 s2 Cs2) by lia. reflexivity.
      * rewrite (Fs12 j), (Fs1 j), (Fs21 j), (Fs2 j) by lia. reflexivity.
      * rewrite (Fs12 j), (Fs1 j), (Fs21 j), (Fs2 j) by lia. reflexivity.
  - (* the buffer of V_face *)
    apply list_ext_nth_error; [congruence|]. intros j Hj.
    assert (Hrow : forall p (v' : list C) (acc : nat -> C),
              (forall a, (a < 3)%nat ->
                 buf_read v' (offset (slice0 (V_face_view
                                (Z.of_nat (num_triangles triangle_nodes)))
                                (Z.of_nat p)) [Z.of_nat a]) = Some (acc a)) ->
              (3 * p <= j < 3 * p + 3)%nat ->
              nth_error v' j = Some (acc (j - 3 * p)%nat)).
    { intros p v' acc Hc Hin. rewrite <- buf_read_nth.
      rewrite <- (Hc (j - 3 * p)%nat) by lia.
      rewrite V_face_row_offset. f_equal. lia. }
    assert (Hout : forall p (v v' : list C),
              (forall k, (forall a, (a < 3)%nat ->
                 Z.of_nat k <> offset (slice0 (V_face_view
                                (Z.of_nat (num_triangles triangle_nodes)))
                                (Z.of_nat p)) [Z.of_nat a]) ->
                 nth_error v' k = nth_error v k) ->
              ~ (3 * p <= j < 3 * p + 3)%nat ->
              nth_error v' j = nth_error v j).
    { intros p v v' Hf Hnot. apply Hf. intros a Ha.
      rewrite V_face_row_offset. lia. }
    destruct (le_gt_dec (3 * p1) j) as [A1|A1];
      [destruct (lt_dec j (3 * p1 + 3)) as [B1|B1]|].
    + rewrite (Hout p2 v1 v12 Fv12) by lia.
      rewrite (Hrow p1 v1 _ Cv1), (Hrow p1 v21 _ Cv21) by lia. reflexivity.
    + destruct (le_gt_dec (3 * p2) j) as [A2|A2];
        [destruct (lt_dec j (3 * p2 + 3)) as [B2|B2]|].
      * rewrite (Hout p1 v2 v21 Fv21) by lia.
        rewrite (Hrow p2 v12 _ Cv12), (Hrow p2 v2 _ Cv2) by lia. reflexivity.
      * rewrite (Hout p2 v1 v12 Fv12), (Hout p1 V_face v1 Fv1),
          (Hout p1 v2 v21 Fv21), (Hout p2 V_face v2 Fv2) by lia. reflexivity.
      * rewrite (Hout p2 v1 v12 Fv12), (Hout p1 V_face v1 Fv1),
          (Hout p1 v2 v21 Fv21), (Hout p2 V_face v2 Fv2) by lia. reflexivity.
    + destruct (le_gt_dec (3 * p2) j) as [A2|A2];
        [destruct (lt_dec j (3 * p2 + 3)) as [B2|B2]|].
      * rewrite (Hout p1 v2 v21 Fv21) by lia.
        rewrite (Hrow p2 v12 _ Cv12), (Hrow p2 v2 _ Cv2) by lia. reflexivity.
      * rewrite (Hout p2 v1 v12 Fv12), (Hout p1 V_face v1 Fv1),
          (Hout p1 v2 v21 Fv21), (Hout p2 V_face v2 Fv2) by lia. reflexivity.
      * rewrite (Hout p2 v1 v12 Fv12), (Hout p1 V_face v1 Fv1),
          (Hout p1 v2 v21 Fv21), (Hout p2 V_face v2 Fv2) by lia. reflexivity.
Qed.

(** C8.  In one computation of the excitation vector, for every schedule:
    iteration [p] of the per-triangle loop, run by thread [tid], returns
    having changed only the cells of row [p] of [V_face] and of block [tid]
    of the scratch storage, and what it leaves there is determined by the
    arguments alone, whatever the buffers held; iteration [m] of the
    per-basis loop changes only [V[m]], to the difference of two cells of
    [V_face]; and each iteration index occurs exactly once in its loop, so
    that every cell has exactly one writer. *)
Theorem C8_iterations_touch_only_their_cells
        (nodes : memview R) (triangle_nodes : memview Z)
        (tp tm np nm : memview Z) (xi_eta weights : memview R)
        (e_inc jk_inc : memview C) (env : omp_env) :
  assembler_args_ok nodes triangle_nodes tp tm np nm xi_eta weights e_inc jk_inc ->
  env_ok (num_triangles triangle_nodes) (num_basis tp) env ->
  (forall (p : nat) (tid : Z) (storage : list R) (V_face : list C),
     (p < num_triangles triangle_nodes)%nat -> (0 <= tid < n_threads env)%Z ->
     length storage = (Z.to_nat (n_threads env) * 9)%nat ->
     length V_face = (num_triangles triangle_nodes * 3)%nat ->
     exists storage' V_face',
       tri_iter nodes triangle_nodes xi_eta weights e_inc jk_inc
                (n_threads env) (Z.of_nat (num_triangles triangle_nodes))
                (p, tid) (storage, V_face) = Some (storage', V_face') /\
       length storage' = length storage /\ length V_face' = length V_face /\
       (forall j, ~ (3 * p <= j < 3 * p + 3)%nat ->
          nth_error V_face' j = nth_error V_face j) /\
       (forall j, ~ (9 * tid <= Z.of_nat j < 9 * tid + 9)%Z ->
          nth_error storage' j = nth_error storage j) /\
       (forall a, (a < 3)%nat ->
          nth_error V_face' (3 * p + a)
          = Some (V_face_spec nodes triangle_nodes xi_eta weights e_inc jk_inc
                              (Z.of_nat p) (Z.of_nat a))) /\
       (forall m q, (m < 3)%nat -> (q < 3)%nat ->
          buf_read storage' (9 * tid + 3 * Z.of_nat m + Z.of_nat q)
          = Some (tri_node nodes triangle_nodes p m q))) /\
  (forall (m : nat) (V_face V : list C),
     (m < num_basis tp)%nat -> length V = num_basis tp ->
     length V_face = (num_triangles triangle_nodes * 3)%nat ->
     exists a b V',
       buf_read V_face (3 * tri_plus tp m + node_plus np m) = Some a /\
       buf_read V_face (3 * tri_minus tm m + node_minus nm m) = Some b /\
       basis_iter tp tm np nm (Z.of_nat (num_triangles triangle_nodes))
                  V_face m V = Some V' /\
       length V' = length V /\
       nth_error V' m = Some (a - b)%C /\
       forall k, k <> m -> nth_error V' k = nth_error V k) /\
  (forall p, (p < num_triangles triangle_nodes)%nat ->
     count_occ Nat.eq_dec (map fst (sched_tri env)) p = 1%nat) /\
  (forall m, (m < num_basis tp)%nat ->
     count_occ Nat.eq_dec (sched_basis env) m = 1%nat).
Proof.
  intros Hargs (_ & _ & Hp1 & _ & Hp2).
  split; [|split; [|split]].
  - intros p tid storage V_face Hp Htid Hls Hlv.
    destruct (tri_iter_char _ _ _ _ _ _ _ _ _ _ Hargs (n_threads env) tid p
                storage V_face Hp Htid Hls Hlv)
      as (storage' & V_face' & E & Hl' & Hframe & Hslot & (HL & HC & HR)).
    exists storage', V_face'. split; [exact E|]. split; [exact Hl'|].
    split; [exact HL|]. split; [|split; [exact Hframe|split; [|exact Hslot]]].
    + intros j Hj. apply HR. intros a Ha. rewrite V_face_row_offset. lia.
    + intros a Ha. specialize (HC a Ha). rewrite V_face_row_offset in HC.
      replace (3 * Z.of_nat p + Z.of_nat a)%Z with (Z.of_nat (3 * p + a)) in HC
        by lia.
      rewrite buf_read_nth in HC. exact HC.
  - intros m V_face V Hm Hl HlV.
    destruct (basis_iter_cells _ _ _ _ _ _ _ _ _ _ Hargs V_face V m Hm Hl HlV)
      as (a & b & Ea & Eb & E).
    exists a, b, (list_set V m (a - b)%C).
    split; [exact Ea|]. split; [exact Eb|]. split; [exact E|].
    split; [apply list_set_length|]. split.
    + apply nth_error_list_set_eq. lia.
    + intros k Hk. apply nth_error_list_set_neq. exact Hk.
  - intros p Hp. apply (perm_seq_once _ _ _ Hp1 Hp).
  - intros m Hm. apply (perm_seq_once _ _ _ Hp2 Hm).
Qed.

Lemma C8_witness :
  (exists storage' V_face',
     tri_iter Plate.nodes Plate.triangle_nodes Plate.xi_eta Plate.weights
              Plate.e_inc Plate.jk_inc 2 2 (1%nat, 1%Z)
              (malloc_junk Plate.env, [C1; C1; C1; C1; C1; C1])
       = Some (storage', V_face') /\
     (forall j, ~ (3 <= j < 6)%nat ->
        nth_error V_face' j = nth_error [C1; C1; C1; C1; C1; C1] j) /\
     (forall j, ~ (9 <= Z.of_nat j < 18)%Z ->
        nth_error storage' j = nth_error (malloc_junk Plate.env) j)) /\
  count_occ Nat.eq_dec (map fst (sched_tri Plate.env)) 1 = 1%nat.
Proof.
  destruct (C8_iterations_touch_only_their_cells
              Plate.nodes Plate.triangle_nodes
              Plate.basis_tri_p Plate.basis_tri_m
              Plate.basis_node_p Plate.basis_node_m
              Plate.xi_eta Plate.weights Plate.e_inc Plate.jk_inc Plate.env
              (plate_args_ok [C1; C0; C0] eq_refl) plate_env_ok)
    as (Htri & _ & Honce & _).
  split.
  - destruct (Htri 1%nat 1%Z (malloc_junk Plate.env) [C1; C1; C1; C1; C1; C1])
      as (storage' & V_face' & E & _ & _ & HV & HS & _).
    + vm_compute. lia.
    + vm_compute. intuition discriminate.
    + reflexivity.
    + reflexivity.
    + exists storage', V_face'. split; [exact E|]. split; [exact HV|exact HS].
  - apply Honce. vm_compute. lia.
Defined.

(* ================================================================= *)
(** * Determinism *)

Lemma mat_ext (M1 M2 : matrix) (r c : nat) :
  mat_dims M1 r c -> mat_dims M2 r c ->
  (forall i j, (i < r)%nat -> (j < c)%nat -> mat_get M1 i j = mat_get M2 i j) ->
  M1 = M2.
Proof.
  intros H1 H2 H. pose proof H1 as [L1 _]. pose proof H2 as [L2 _].
  apply (list_ext_nth []); [congruence|].
  intros i Hi. rewrite L1 in Hi.
  apply (list_ext_nth C0).
  - rewrite (mat_dims_row M1 r c i H1 Hi), (mat_dims_row M2 r c i H2 Hi).
    reflexivity.
  - intros j Hj. rewrite (mat_dims_row M1 r c i H1 Hi) in Hj.
    apply (H i j Hi Hj).
Qed.

(** The converter's result never depends on what [np.empty] handed out:
    in-range table or not, either both runs have no defined result or they
    return the same matrices. *)
Lemma triangle_face_to_rwg_junk_independent
      (tp tm np nm : memview Z) (vf sf : memview C)
      (junk_v1 junk_s1 junk_v2 junk_s2 : nat -> nat -> C) :
  (0 <= shape (mv_view tp) 0 < 2147483648)%Z ->
  triangle_face_to_rwg tp tm np nm vf sf junk_v1 junk_s1
  = triangle_face_to_rwg tp tm np nm vf sf junk_v2 junk_s2.
Proof.
  intros HB.
  assert (G : forall j1 j1' j2 j2' r,
            triangle_face_to_rwg tp tm np nm vf sf j1 j1' = Some r ->
            triangle_face_to_rwg tp tm np nm vf sf j2 j2' = Some r).
  { intros j1 j1' j2 j2' r E.
    destruct (triangle_face_to_rwg_defined_reads _ _ _ _ _ _ _ _ _ HB E)
      as [Htab Hface].
    destruct (triangle_face_to_rwg_char tp tm np nm vf sf HB Htab Hface j1 j1')
      as (vr1 & sr1 & E1 & Dv1 & Ds1 & H1).
    destruct (triangle_face_to_rwg_char tp tm np nm vf sf HB Htab Hface j2 j2')
      as (vr2 & sr2 & E2 & Dv2 & Ds2 & H2).
    rewrite E in E1. injection E1 as ->. rewrite E2. f_equal. f_equal.
    - apply (mat_ext _ _ _ _ Dv2 Dv1). intros i j Hi Hj.
      rewrite (proj1 (H1 i j Hi Hj)), (proj1 (H2 i j Hi Hj)). reflexivity.
    - apply (mat_ext _ _ _ _ Ds2 Ds1). intros i j Hi Hj.
      rewrite (proj2 (H1 i j Hi Hj)), (proj2 (H2 i j Hi Hj)). reflexivity. }
  destruct (triangle_face_to_rwg tp tm np nm vf sf junk_v1 junk_s1) as [r1|] eqn:E1.
  - symmetry. apply (G junk_v1 junk_s1 junk_v2 junk_s2 r1 E1).
  - destruct (triangle_face_to_rwg tp tm np nm vf sf junk_v2 junk_s2) as [r2|] eqn:E2;
      [|reflexivity].
    rewrite (G junk_v2 junk_s2 junk_v1 junk_s1 r2 E2) in E1. discriminate.
Qed.

(** C9.  Both public operations are deterministic.  On well-formed
    arguments [voltage_plane_wave] returns the same vector for any two
    schedules, numbers of threads and contents of the scratch storage; and
    two runs of [triangle_face_to_rwg] on the same arguments return the same
    two matrices, or both have no defined result, whatever the memory handed
    out by [np.empty] held: the results depend on the arguments only. *)
Theorem C9_results_depend_on_arguments_only
        (nodes : memview R) (triangle_nodes : memview Z)
        (tp tm np nm : memview Z) (xi_eta weights : memview R)
        (e_inc jk_inc : memview C) (env1 env2 : omp_env)
        (ctp ctm cnp cnm : memview Z) (vf sf : memview C)
        (junk_v1 junk_s1 junk_v2 junk_s2 : nat -> nat -> C) :
  assembler_args_ok nodes triangle_nodes tp tm np nm xi_eta weights e_inc jk_inc ->
  env_ok (num_triangles triangle_nodes) (num_basis tp) env1 ->
  env_ok (num_triangles triangle_nodes) (num_basis tp) env2 ->
  (0 <= shape (mv_view ctp) 0 < 2147483648)%Z ->
  (exists V,
     voltage_plane_wave nodes triangle_nodes tp tm np nm xi_eta weights
                        e_inc jk_inc env1 = Some V /\
     voltage_plane_wave nodes triangle_nodes tp tm np nm xi_eta weights
                        e_inc jk_inc env2 = Some V) /\
  triangle_face_to_rwg ctp ctm cnp cnm vf sf junk_v1 junk_s1
  = triangle_face_to_rwg ctp ctm cnp cnm vf sf junk_v2 junk_s2.
Proof.
  intros Hargs He1 He2 HB. split.
  - destruct (voltage_char _ _ _ _ _ _ _ _ _ _ Hargs env1 He1) as (V1 & E1 & L1 & HV1).
    destruct (voltage_char _ _ _ _ _ _ _ _ _ _ Hargs env2 He2) as (V2 & E2 & L2 & HV2).
    exists V1. split; [exact E1|]. rewrite E2. f_equal.
    apply list_ext_nth_error; [congruence|].
    intros m Hm. rewrite L2 in Hm. rewrite (HV1 m Hm), (HV2 m Hm). reflexivity.
  - apply triangle_face_to_rwg_junk_independent. exact HB.
Qed.

Lemma C9_witness :
  (exists V,
     voltage_plane_wave Plate.nodes Plate.triangle_nodes
                        Plate.basis_tri_p Plate.basis_tri_m
                        Plate.basis_node_p Plate.basis_node_m
                        Plate.xi_eta Plate.weights Plate.e_inc Plate.jk_inc
                        Plate.env = Some V /\
     voltage_plane_wave Plate.nodes Plate.triangle_nodes
                        Plate.basis_tri_p Plate.basis_tri_m
                        Plate.basis_node_p Plate.basis_node_m
                        Plate.xi_eta Plate.weights Plate.e_inc Plate.jk_inc
                        Plate.env_serial = Some V) /\
  triangle_face_to_rwg Plate.basis_tri_p Plate.basis_tri_m
                       Plate.basis_node_p Plate.basis_node_m
                       Plate.vector_face Plate.scalar_face
                       Plate.junk Plate.junk'
  = triangle_face_to_rwg Plate.basis_tri_p Plate.basis_tri_m
                         Plate.basis_node_p Plate.basis_node_m
                         Plate.vector_face Plate.scalar_face
                         Plate.junk' Plate.junk.
Proof.
  apply (C9_results_depend_on_arguments_only
           Plate.nodes Plate.triangle_nodes
           Plate.basis_tri_p Plate.basis_tri_m
           Plate.basis_node_p Plate.basis_node_m
           Plate.xi_eta Plate.weights Plate.e_inc Plate.jk_inc
           Plate.env Plate.env_serial
           Plate.basis_tri_p Plate.basis_tri_m
           Plate.basis_node_p Plate.basis_node_m
           Plate.vector_face Plate.scalar_face
           Plate.junk Plate.junk' Plate.junk' Plate.junk).
  - apply (plate_args_ok [C1; C0; C0]). reflexivity.
  - exact plate_env_ok.
  - exact plate_env_serial_ok.
  - vm_compute. split; [discriminate|reflexivity].
Defined.

(* ================================================================= *)
(** * Empty quadrature rule *)

(** C10.  With no quadrature point the integrator still returns, whatever
    the weights, the triangle, [jk_inc] and [e_inc] are, and leaves
    [(0, 0, 0)] in [I]; and [voltage_plane_wave] returns the zero vector. *)
Theorem C10_empty_quadrature_gives_zero
        (nodes : memview R) (triangle_nodes : memview Z)
        (tp tm np nm : memview Z) (xi_eta weights : memview R)
        (e_inc jk_inc : memview C) (env : omp_env)
        (I : view) (Ibuf : list C) :
  shape (mv_view xi_eta) 0 = 0%Z ->
  result_view_ok I Ibuf ->
  assembler_args_ok nodes triangle_nodes tp tm np nm xi_eta weights e_inc jk_inc ->
  env_ok (num_triangles triangle_nodes) (num_basis tp) env ->
  (forall (weights_o nodes_o : memview R) (jk e : memview C),
     exists Ibuf',
       source_integral_plane_wave xi_eta weights_o nodes_o jk e I Ibuf
         = Some Ibuf' /\
       view_holds I Ibuf (fun _ => C0) Ibuf') /\
  voltage_plane_wave nodes triangle_nodes tp tm np nm xi_eta weights
                     e_inc jk_inc env = Some (repeat C0 (num_basis tp)).
Proof.
  intros Hempty HI Hargs Henv. split.
  - intros weights_o nodes_o jk e. unfold source_integral_plane_wave.
    destruct (clear_I_char I Ibuf HI) as (buf1 & E1 & H1).
    rewrite E1, Hempty. cbn [bind]. exists buf1. split; [reflexivity|exact H1].
  - destruct (voltage_char _ _ _ _ _ _ _ _ _ _ Hargs env Henv) as (V & EV & L & HV).
    rewrite EV. f_equal. apply nth_error_all_repeat; [exact L|].
    intros m Hm. rewrite (HV m Hm). f_equal.
    unfold V_spec, V_face_spec, integral_spec, n_quad. rewrite Hempty.
    apply Csub_diag.
Qed.

Lemma plate_empty_args_ok :
  assembler_args_ok Plate.nodes Plate.triangle_nodes
                    Plate.basis_tri_p Plate.basis_tri_m
                    Plate.basis_node_p Plate.basis_node_m
                    Plate.xi_eta_empty Plate.weights_empty
                    Plate.e_inc Plate.jk_inc.
Proof.
  split; [exact plate_mesh_ok|]. split; [exact plate_basis_ok|].
  split; [exact plate_empty_quadrature_ok|]. apply plate_field_ok. reflexivity.
Qed.

Lemma C10_witness :
  (forall (weights_o nodes_o : memview R) (jk e : memview C),
     exists Ibuf',
       source_integral_plane_wave Plate.xi_eta_empty weights_o nodes_o jk e
                                  (c_view [3%Z]) [C1; C1; C1] = Some Ibuf' /\
       view_holds (c_view [3%Z]) [C1; C1; C1] (fun _ => C0) Ibuf') /\
  voltage_plane_wave Plate.nodes Plate.triangle_nodes
                     Plate.basis_tri_p Plate.basis_tri_m
                     Plate.basis_node_p Plate.basis_node_m
                     Plate.xi_eta_empty Plate.weights_empty
                     Plate.e_inc Plate.jk_inc Plate.env
  = Some (repeat C0 1).
Proof.
  apply (C10_empty_quadrature_gives_zero
           Plate.nodes Plate.triangle_nodes
           Plate.basis_tri_p Plate.basis_tri_m
           Plate.basis_node_p Plate.basis_node_m
           Plate.xi_eta_empty Plate.weights_empty
           Plate.e_inc Plate.jk_inc Plate.env (c_view [3%Z]) [C1; C1; C1]).
  - reflexivity.
  - apply c_view3_ok. reflexivity.
  - exact plate_empty_args_ok.
  - exact plate_env_ok.
Defined.

(* ================================================================= *)
(** * The synthesised complex exponential is the complex exponential *)

(** ** Finite sums *)

Lemma Csum_shift (f : nat -> C) (n : nat) :
  Csum f (S n) = (f 0%nat + Csum (fun k => f (S k)) n)%C.
Proof.
  induction n as [|n IH]; [simpl; c_ring|].
  change (Csum f (S (S n))) with (Csum f (S n) + f (S n))%C.
  rewrite IH. simpl. c_ring.
Qed.

Lemma Csum_scal (c : C) (f : nat -> C) (n : nat) :
  (c * Csum f n)%C = Csum (fun k => c * f k)%C n.
Proof.
  induction n as [|n IH]; simpl; [c_ring|]. rewrite <- IH. c_ring.
Qed.

Lemma Re_Csum (f : nat -> C) (N : nat) :
  Re (Csum f (S N)) = sum_f_R0 (fun k => Re (f k)) N.
Proof.
  induction N as [|N IH]; [simpl; ring|].
  change (Csum f (S (S N))) with (Csum f (S N) + f (S N))%C.
  change (Re (Csum f (S N) + f (S N))%C) with (Re (Csum f (S N)) + Re (f (S N)))%R.
  rewrite IH. reflexivity.
Qed.

Lemma Im_Csum (f : nat -> C) (N : nat) :
  Im (Csum f (S N)) = sum_f_R0 (fun k => Im (f k)) N.
Proof.
  induction N as [|N IH]; [simpl; ring|].
  change (Csum f (S (S N))) with (Csum f (S N) + f (S N))%C.
  change (Im (Csum f (S N) + f (S N))%C) with (Im (Csum f (S N)) + Im (f (S N)))%R.
  rewrite IH. reflexivity.
Qed.

(** ** The terms of the series *)

Lemma exp_term_0 (z : C) : exp_term z 0 = C1.
Proof.
  unfold exp_term. simpl. rewrite Rinv_1. c_ring.
Qed.

Lemma exp_term_S (z : C) (n : nat) :
  (RtoC (INR (S n)) * exp_term z (S n))%C = (z * exp_term z n)%C.
Proof.
  unfold exp_term. change (Cpow z (S n)) with (z * Cpow z n)%C.
  rewrite fact_simpl, mult_INR, Rinv_mult.
  assert (H : (INR (S n) * (/ INR (S n) * / INR (fact n)) = / INR (fact n))%R).
  { field. split; [apply INR_fact_neq_0|apply not_0_INR; discriminate]. }
  apply C_eq; unfold Cmul, RtoC; cbn [Re Im].
  - transitivity ((INR (S n) * (/ INR (S n) * / INR (fact n)))
                  * (Re z * Re (Cpow z n) - Im z * Im (Cpow z n)))%R; [ring|].
    rewrite H. ring.
  - transitivity ((INR (S n) * (/ INR (S n) * / INR (fact n)))
                  * (Re z * Im (Cpow z n) + Im z * Re (Cpow z n)))%R; [ring|].
    rewrite H. ring.
Qed.

Lemma RtoC_cancel (s : R) (a b : C) :
  s <> 0%R -> (RtoC s * a)%C = (RtoC s * b)%C -> a = b.
Proof.
  intros Hs E. apply C_eq.
  - apply (f_equal Re) in E. unfold Cmul, RtoC in E. cbn [Re Im] in E.
    apply (Rmult_eq_reg_l s); [lra|exact Hs].
  - apply (f_equal Im) in E. unfold Cmul, RtoC in E. cbn [Re Im] in E.
    apply (Rmult_eq_reg_l s); [lra|exact Hs].
Qed.

(** The term of [u + v] is the Cauchy product of the terms of [u] and of
    [v]: the binomial formula divided by [n!]. *)
Lemma exp_term_conv (u v : C) (n : nat) :
  exp_term (u + v) n = Csum (fun k => exp_term u k * exp_term v (n - k))%C (S n).
Proof.
  induction n as [|n IH].
  - simpl. rewrite !exp_term_0. c_ring.
  - apply (RtoC_cancel (INR (S n))); [apply not_0_INR; discriminate|].
    rewrite exp_term_S, IH.
    rewrite (Csum_scal (RtoC (INR (S n)))).
    (* split the factor [n + 1] as [k + (n + 1 - k)] in each term *)
    rewrite (Csum_ext (fun k => RtoC (INR (S n))
                                * (exp_term u k * exp_term v (S n - k)))%C
               (fun k =>
                (RtoC (INR k) * exp_term u k * exp_term v (S n - k)
                 + exp_term u k
                   * (RtoC (INR (S n - k)) * exp_term v (S n - k)))%C)
               (S (S n))).
    2:{ intros k Hk.
        replace (INR (S n)) with (INR k + INR (S n - k))%R
          by (rewrite <- plus_INR; f_equal; lia).
        c_ring. }
    rewrite Csum_add.
    (* first sum: the term [k = 0] vanishes, the others give [u * conv] *)
    rewrite (Csum_shift (fun k => RtoC (INR k) * exp_term u k * exp_term v (S n - k))%C).
    rewrite (Csum_ext (fun k => RtoC (INR (S k)) * exp_term u (S k)
                                * exp_term v (S n - S k))%C
                      (fun k => u * (exp_term u k * exp_term v (n - k)))%C).
    2:{ intros k Hk. rewrite exp_term_S. replace (S n - S k)%nat with (n - k)%nat by lia.
        c_ring. }
    rewrite <- Csum_scal.
    (* second sum: the term [k = n + 1] vanishes, the others give [v * conv] *)
    change (Csum (fun k => exp_term u k
                           * (RtoC (INR (S n - k)) * exp_term v (S n - k)))%C
                 (S (S n)))
      with (Csum (fun k => exp_term u k
                           * (RtoC (INR (S n - k)) * exp_term v (S n - k)))%C
                 (S n)
            + exp_term u (S n)
              * (RtoC (INR (S n - S n)) * exp_term v (S n - S n)))%C.
    rewrite (Csum_ext (fun k => exp_term u k
                                * (RtoC (INR (S n - k)) * exp_term v (S n - k)))%C
                      (fun k => v * (exp_term u k * exp_term v (n - k)))%C).
    2:{ intros k Hk. replace (S n - k)%nat with (S (n - k)) by lia.
        rewrite exp_term_S. c_ring. }
    rewrite <- Csum_scal.
    rewrite Nat.sub_diag. change (INR 0) with 0%R. c_ring.
Qed.

(** ** Real and purely imaginary arguments *)

Lemma Cpow_real (x : R) (k : nat) : Cpow (RtoC x) k = RtoC (x ^ k).
Proof.
  induction k as [|k IH]; [reflexivity|].
  change (Cpow (RtoC x) (S k)) with (RtoC x * Cpow (RtoC x) k)%C.
  rewrite IH. simpl. c_ring.
Qed.

Lemma exp_term_real (x : R) (k : nat) :
  exp_term (RtoC x) k = RtoC (/ INR (fact k) * x ^ k).
Proof.
  unfold exp_term. rewrite Cpow_real. c_ring.
Qed.

Lemma Cpow_imag_SS (y : R) (j : nat) :
  Cpow (mkC 0 y) (S (S j)) = (RtoC (- (y * y)) * Cpow (mkC 0 y) j)%C.
Proof.
  change (Cpow (mkC 0 y) (S (S j)))
    with (mkC 0 y * (mkC 0 y * Cpow (mkC 0 y) j))%C.
  c_ring.
Qed.

Lemma Cpow_imag_even (y : R) (m : nat) :
  Cpow (mkC 0 y) (2 * m) = RtoC ((-1) ^ m * y ^ (2 * m)).
Proof.
  induction m as [|m IH]; [simpl; c_ring|].
  replace (2 * S m)%nat with (S (S (2 * m))) by lia.
  rewrite Cpow_imag_SS, IH. simpl. c_ring.
Qed.

Lemma Cpow_imag_odd (y : R) (m : nat) :
  Cpow (mkC 0 y) (2 * m + 1) = mkC 0 ((-1) ^ m * y ^ (2 * m + 1)).
Proof.
  induction m as [|m IH]; [simpl; c_ring|].
  replace (2 * S m + 1)%nat with (S (S (2 * m + 1))) by lia.
  rewrite Cpow_imag_SS, IH. simpl. c_ring.
Qed.

Lemma cre_even (y : R) (m : nat) :
  cre y (2 * m) = ((-1) ^ m / INR (fact (2 * m)) * y ^ (2 * m))%R.
Proof.
  unfold cre, exp_term. rewrite Cpow_imag_even.
  unfold Cmul, RtoC; cbn [Re Im]. unfold Rdiv. ring.
Qed.

Lemma cre_odd (y : R) (m : nat) : cre y (2 * m + 1) = 0%R.
Proof.
  unfold cre, exp_term. rewrite Cpow_imag_odd.
  unfold Cmul, RtoC; cbn [Re Im]. ring.
Qed.

Lemma cim_even (y : R) (m : nat) : cim y (2 * m) = 0%R.
Proof.
  unfold cim, exp_term. rewrite Cpow_imag_even.
  unfold Cmul, RtoC; cbn [Re Im]. ring.
Qed.

Lemma cim_odd (y : R) (m : nat) :
  cim y (2 * m + 1) = ((-1) ^ m / INR (fact (2 * m + 1)) * y ^ (2 * m + 1))%R.
Proof.
  unfold cim, exp_term. rewrite Cpow_imag_odd.
  unfold Cmul, RtoC; cbn [Re Im]. unfold Rdiv. ring.
Qed.

(** The partial sums of the real parts are those of the cosine series, and
    the partial sums of the imaginary parts those of the sine series. *)
Lemma sum_cre (y : R) (m : nat) :
  sum_f_R0 (cre y) (2 * m) = A1 y m /\ sum_f_R0 (cre y) (2 * m + 1) = A1 y m.
Proof.
  induction m as [|m [IH0 IH1]].
  - split.
    + change (sum_f_R0 (cre y) (2 * 0)) with (cre y (2 * 0)).
      rewrite cre_even. reflexivity.
    + change (sum_f_R0 (cre y) (2 * 0 + 1))
        with (cre y (2 * 0) + cre y (2 * 0 + 1))%R.
      rewrite cre_even, cre_odd. unfold A1. cbn [sum_f_R0]. ring.
  - assert (E0 : sum_f_R0 (cre y) (2 * S m) = A1 y (S m)).
    { replace (2 * S m)%nat with (S (2 * m + 1)) by lia.
      cbn [sum_f_R0]. rewrite IH1.
      replace (S (2 * m + 1)) with (2 * S m)%nat by lia.
      rewrite cre_even. unfold A1. cbn [sum_f_R0]. reflexivity. }
    split; [exact E0|].
    replace (2 * S m + 1)%nat with (S (2 * S m)) by lia.
    cbn [sum_f_R0]. rewrite E0.
    replace (S (2 * S m)) with (2 * S m + 1)%nat by lia.
    rewrite cre_odd. ring.
Qed.

Lemma sum_cim (y : R) (m : nat) :
  sum_f_R0 (cim y) (2 * m + 1) = B1 y m /\ sum_f_R0 (cim y) (2 * m + 2) = B1 y m.
Proof.
  induction m as [|m [IH0 IH1]].
  - split.
    + change (sum_f_R0 (cim y) (2 * 0 + 1))
        with (cim y (2 * 0) + cim y (2 * 0 + 1))%R.
      rewrite cim_even, cim_odd. unfold B1. cbn [sum_f_R0]. ring.
    + change (sum_f_R0 (cim y) (2 * 0 + 2))
        with (cim y (2 * 0) + cim y (2 * 0 + 1) + cim y (2 * 1))%R.
      rewrite !cim_even, cim_odd. unfold B1. cbn [sum_f_R0]. ring.
  - assert (E0 : sum_f_R0 (cim y) (2 * S m + 1) = B1 y (S m)).
    { replace (2 * S m + 1)%nat with (S (2 * m + 2)) by lia.
      cbn [sum_f_R0]. rewrite IH1.
      replace (S (2 * m + 2)) with (2 * S m + 1)%nat by lia.
      rewrite cim_odd. unfold B1. cbn [sum_f_R0]. reflexivity. }
    split; [exact E0|].
    replace (2 * S m + 2)%nat with (S (2 * S m + 1)) by lia.
    cbn [sum_f_R0]. rewrite E0.
    replace (S (2 * S m + 1)) with (2 * (S m + 1))%nat by lia.
    rewrite cim_even. ring.
Qed.

Lemma parity_cases (n : nat) : exists m, n = (2 * m)%nat \/ n = (2 * m + 1)%nat.
Proof.
  induction n as [|n [m [E|E]]].
  - exists 0%nat. left. reflexivity.
  - exists m. right. lia.
  - exists (S m). left. lia.
Qed.

Lemma sum_cre_cv (y : R) : Un_cv (sum_f_R0 (cre y)) (cos y).
Proof.
  intros eps Heps. destruct (A1_cvg y eps Heps) as [N0 HN0].
  exists (2 * N0)%nat. intros n Hn.
  destruct (parity_cases n) as [m [E|E]]; subst n.
  - rewrite (proj1 (sum_cre y m)). apply HN0. lia.
  - rewrite (proj2 (sum_cre y m)). apply HN0. lia.
Qed.

Lemma sum_cim_cv (y : R) : Un_cv (sum_f_R0 (cim y)) (sin y).
Proof.
  intros eps Heps. destruct (B1_cvg y eps Heps) as [N0 HN0].
  exists (2 * N0 + 1)%nat. intros n Hn.
  destruct (parity_cases n) as [m [E|E]]; subst n.
  - destruct m as [|m]; [lia|].
    replace (2 * S m)%nat with (2 * m + 2)%nat by lia.
    rewrite (proj2 (sum_cim y m)). apply HN0. lia.
  - rewrite (proj1 (sum_cim y m)). apply HN0. lia.
Qed.

Lemma Cpow_imag_bound (y : R) (j : nat) :
  (Rabs (Re (Cpow (mkC 0 y) j)) <= Rabs y ^ j)%R /\
  (Rabs (Im (Cpow (mkC 0 y) j)) <= Rabs y ^ j)%R.
Proof.
  induction j as [|j [IHr IHi]].
  - simpl. rewrite Rabs_R1, Rabs_R0. lra.
  - change (Cpow (mkC 0 y) (S j)) with (mkC 0 y * Cpow (mkC 0 y) j)%C.
    unfold Cmul; cbn [Re Im pow].
    pose proof (Rabs_pos y) as Hy. split.
    + replace (0 * Re (Cpow (mkC 0 y) j) - y * Im (Cpow (mkC 0 y) j))%R
        with (- (y * Im (Cpow (mkC 0 y) j)))%R by ring.
      rewrite Rabs_Ropp, Rabs_mult. apply Rmult_le_compat_l; assumption.
    + replace (0 * Im (Cpow (mkC 0 y) j) + y * Re (Cpow (mkC 0 y) j))%R
        with (y * Re (Cpow (mkC 0 y) j))%R by ring.
      rewrite Rabs_mult. apply Rmult_le_compat_l; assumption.
Qed.

Lemma inv_fact_pos (j : nat) : (0 < / INR (fact j))%R.
Proof. apply Rinv_0_lt_compat. apply INR_fact_lt_0. Qed.

Lemma cre_bound (y : R) (j : nat) :
  (Rabs (cre y j) <= / INR (fact j) * Rabs y ^ j)%R.
Proof.
  unfold cre, exp_term, Cmul, RtoC; cbn [Re Im].
  replace (/ INR (fact j) * Re (Cpow (mkC 0 y) j) - 0 * Im (Cpow (mkC 0 y) j))%R
    with (/ INR (fact j) * Re (Cpow (mkC 0 y) j))%R by ring.
  rewrite Rabs_mult, (Rabs_pos_eq (/ INR (fact j))) by (left; apply inv_fact_pos).
  apply Rmult_le_compat_l; [left; apply inv_fact_pos|].
  apply Cpow_imag_bound.
Qed.

Lemma cim_bound (y : R) (j : nat) :
  (Rabs (cim y j) <= / INR (fact j) * Rabs y ^ j)%R.
Proof.
  unfold cim, exp_term, Cmul, RtoC; cbn [Re Im].
  replace (/ INR (fact j) * Im (Cpow (mkC 0 y) j) + 0 * Re (Cpow (mkC 0 y) j))%R
    with (/ INR (fact j) * Im (Cpow (mkC 0 y) j))%R by ring.
  rewrite Rabs_mult, (Rabs_pos_eq (/ INR (fact j))) by (left; apply inv_fact_pos).
  apply Rmult_le_compat_l; [left; apply inv_fact_pos|].
  apply Cpow_imag_bound.
Qed.

(** ** The Cauchy product of the exponential series with a dominated series *)

Lemma Un_cv_0_dominated (r g : nat -> R) :
  (forall n, (Rabs (r n) <= g n)%R) -> Un_cv g 0 -> Un_cv r 0.
Proof.
  intros Hb Hg eps Heps. destruct (Hg eps Heps) as [N0 HN0].
  exists N0. intros n Hn. specialize (HN0 n Hn).
  unfold Rdist in *. rewrite Rminus_0_r in *.
  apply Rle_lt_trans with (g n); [apply Hb|].
  apply Rle_lt_trans with (Rabs (g n)); [apply Rle_abs|exact HN0].
Qed.

Lemma Un_cv_eventually (u v : nat -> R) (l : R) :
  (forall n, (0 < n)%nat -> u n = v n) -> Un_cv v l -> Un_cv u l.
Proof.
  intros E Hv eps Heps. destruct (Hv eps Heps) as [N0 HN0].
  exists (S N0). intros n Hn. rewrite E by lia. apply HN0. lia.
Qed.

Section CauchyProduct.

Variables x y : R.
Variable c : nat -> R.
Variable lc : R.
Hypothesis c_bound : forall j, (Rabs (c j) <= / INR (fact j) * Rabs y ^ j)%R.
Hypothesis c_cv : Un_cv (sum_f_R0 c) lc.

Local Abbreviation a := (exp_coeff x).
Local Abbreviation rest := (cauchy_rest x c).

Lemma rest_dominated (N : nat) :
  (Rabs (rest N) <= Reste_E (Rabs x) (Rabs y) N)%R.
Proof.
  unfold cauchy_rest, Reste_E.
  eapply Rle_trans; [apply Rsum_abs|]. apply sum_Rle. intros k _.
  eapply Rle_trans; [apply Rsum_abs|]. apply sum_Rle. intros l _.
  rewrite Rabs_mult. unfold exp_coeff.
  rewrite Rabs_mult, (Rabs_pos_eq (/ INR (fact (S (l + k)))))
    by (left; apply inv_fact_pos).
  rewrite <- RPow_abs.
  apply Rmult_le_compat_l; [|apply c_bound].
  apply Rmult_le_pos; [left; apply inv_fact_pos|].
  apply pow_le. apply Rabs_pos.
Qed.

Lemma rest_cv : Un_cv rest 0.
Proof.
  apply (Un_cv_0_dominated rest (Reste_E (Rabs x) (Rabs y))).
  - exact rest_dominated.
  - apply Reste_E_cv.
Qed.

Lemma cauchy_product_cv :
  Un_cv (fun N => sum_f_R0 (fun n => sum_f_R0 (fun p => (a p * c (n - p)%nat)%R) n) N)
        (exp x * lc).
Proof.
  apply (Un_cv_eventually _ (fun N => E1 x N * sum_f_R0 c N - rest N)%R).
  - intros N HN. unfold E1. fold (exp_coeff x).
    rewrite (cauchy_finite a c N HN). fold (cauchy_rest x c N). ring.
  - replace (exp x * lc)%R with (exp x * lc - 0)%R by ring.
    apply CV_minus; [|exact rest_cv].
    apply CV_mult; [apply E1_cvg|exact c_cv].
Qed.

End CauchyProduct.

(** ** The partial sums of the series converge to [cexp] *)

Lemma C_split (x y : R) : mkC x y = (RtoC x + mkC 0 y)%C.
Proof. c_ring. Qed.

Lemma Re_exp_term (x y : R) (n : nat) :
  Re (exp_term (mkC x y) n)
  = sum_f_R0 (fun p => (/ INR (fact p) * x ^ p * cre y (n - p)%nat)%R) n.
Proof.
  rewrite (C_split x y), exp_term_conv, Re_Csum.
  apply sum_eq. intros p Hp. rewrite exp_term_real.
  unfold cre, Cmul, RtoC; cbn [Re Im]. ring.
Qed.

Lemma Im_exp_term (x y : R) (n : nat) :
  Im (exp_term (mkC x y) n)
  = sum_f_R0 (fun p => (/ INR (fact p) * x ^ p * cim y (n - p)%nat)%R) n.
Proof.
  rewrite (C_split x y), exp_term_conv, Im_Csum.
  apply sum_eq. intros p Hp. rewrite exp_term_real.
  unfold cim, Cmul, RtoC; cbn [Re Im]. ring.
Qed.

Lemma exp_partial_cv (z : C) : is_Cexp z (cexp z).
Proof.
  destruct z as [x y]. unfold is_Cexp, Ccv, exp_partial.
  rewrite cexp_parts. cbn [Re Im]. split.
  - apply (Un_cv_eventually _ _ _
             (fun N _ => eq_trans (Re_Csum (exp_term (mkC x y)) N)
                           (sum_eq _ _ N (fun n _ => Re_exp_term x y n)))).
    apply (cauchy_product_cv x y (cre y) (cos y) (cre_bound y) (sum_cre_cv y)).
  - apply (Un_cv_eventually _ _ _
             (fun N _ => eq_trans (Im_Csum (exp_term (mkC x y)) N)
                           (sum_eq _ _ N (fun n _ => Im_exp_term x y n)))).
    apply (cauchy_product_cv x y (cim y) (sin y) (cim_bound y) (sum_cim_cv y)).
Qed.

Lemma is_Cexp_unique (z l1 l2 : C) : is_Cexp z l1 -> is_Cexp z l2 -> l1 = l2.
Proof.
  intros [R1 I1] [R2 I2]. apply C_eq.
  - exact (UL_sequence _ _ _ R1 R2).
  - exact (UL_sequence _ _ _ I1 I2).
Qed.

(** C7.  [cexp] is built from the real [exp], [cos] and [sin] alone: its
    real part is [exp(Re z) * cos(Im z)] and its imaginary part
    [exp(Re z) * sin(Im z)]; and for every complex [z] it is the mathematical
    complex exponential of [z], the sum of the series of the [z^n / n!]. *)
Theorem C7_cexp_is_the_complex_exponential (z : C) :
  cexp z = mkC (exp (Re z) * cos (Im z)) (exp (Re z) * sin (Im z)) /\
  is_Cexp z (cexp z) /\
  forall l, is_Cexp z l -> l = cexp z.
Proof.
  split; [apply cexp_parts|]. split; [apply exp_partial_cv|].
  intros l Hl. apply (is_Cexp_unique z l (cexp z) Hl (exp_partial_cv z)).
Qed.

(* ================================================================= *)
(** * The plate of §8, evaluated *)

Lemma cexp_0 : cexp C0 = C1.
Proof.
  rewrite cexp_parts. unfold C0, C1. cbn [Re Im].
  rewrite exp_0, cos_0, sin_0. apply C_eq; cbn [Re Im]; ring.
Qed.

(** On the square plate with the one-point centroid rule, the wave
    [jk_inc = (0, 0, j)], [e_inc = (1, 0, 0)] gives [V = (-1/3)] for both
    schedules: [-1/6] from the plus triangle, [1/6] from the minus one. *)
Example plate_voltage_value :
  voltage_plane_wave Plate.nodes Plate.triangle_nodes
                     Plate.basis_tri_p Plate.basis_tri_m
                     Plate.basis_node_p Plate.basis_node_m
                     Plate.xi_eta Plate.weights Plate.e_inc Plate.jk_inc
                     Plate.env = Some [RtoC (- (1 / 3))].
Proof.
  destruct (voltage_char _ _ _ _ _ _ _ _ _ _ (plate_args_ok [C1; C0; C0] eq_refl)
              Plate.env plate_env_ok) as (V & E & L & HV).
  fold Plate.e_inc in E, HV. rewrite E. f_equal.
  change (num_basis Plate.basis_tri_p) with 1%nat in L, HV.
  destruct V as [|v [|v' V]]; try discriminate L.
  specialize (HV 0%nat ltac:(lia)). injection HV as ->. f_equal.
  unfold V_spec, V_face_spec, integral_spec.
  change (n_quad Plate.xi_eta) with 1%nat. cbn [Csum].
  unfold contribution, e_r, jk_dot_r, rho, r_pt, q_xi, q_eta, q_w, node, jk, e_amp,
    tri_plus, tri_minus, node_plus, node_minus.
  eval_reads.
  repeat match goal with
         | |- context [cexp (- ?z)%C] =>
             replace (- z)%C with C0 by c_ring; rewrite cexp_0
         end.
  apply C_eq; unfold Cadd, Csub, Cmul, Copp, RtoC, C0, C1; cbn [Re Im]; lra.
Qed.

(* ================================================================= *)
(** * Further properties of the code *)

(** ** [cexp] *)

Lemma cexp_add (u v : C) : cexp (u + v) = (cexp u * cexp v)%C.
Proof.
  rewrite !cexp_parts. unfold Cadd, Cmul. cbn [Re Im].
  rewrite exp_plus, cos_plus, sin_plus. apply C_eq; cbn [Re Im]; ring.
Qed.

(** X1.  Over the reals [cexp] turns sums into products: [cexp 0 = 1] and
    [cexp (z + w) = cexp z * cexp w].  In IEEE doubles, with any [libm] that
    follows C99, [cexp] of a zero is exactly 1; it is exactly 0 for a real
    argument of -746 or less, where [exp] underflows, so that [cexp] does
    return 0; and it is [inf + NaN j], not an infinity, for a real argument
    of 710 or more, where [exp] overflows. *)
Theorem cexp_is_a_homomorphism (z w : C) (M : Ieee.libm) :
  Ieee.libm_ok M ->
  (cexp C0 = C1 /\ cexp (z + w) = (cexp z * cexp w)%C) /\
  (forall s s',
     Ieee.re (Ieee.cexp M (Ieee.mkComplex (S754_zero s) (S754_zero s')))
     = Ieee.one /\
     Ieee.is_zero
       (Ieee.im (Ieee.cexp M (Ieee.mkComplex (S754_zero s) (S754_zero s'))))
     = true) /\
  (forall x s, SFleb x (Ieee.of_Z (-746)) = true ->
     Ieee.czero (Ieee.cexp M (Ieee.mkComplex x (S754_zero s))) = true) /\
  (forall x s, SFleb (Ieee.of_Z 710) x = true ->
     Ieee.cexp M (Ieee.mkComplex x (S754_zero s))
     = Ieee.mkComplex Ieee.infinity Ieee.nan).
Proof.
  intros (Hover & Hunder & He & Hc & Hs).
  split; [split; [apply cexp_0|apply cexp_add]|].
  split; [|split].
  - intros s s'. unfold Ieee.cexp. cbn [Ieee.re Ieee.im].
    rewrite He, Hc, Hs. destruct s'; split; reflexivity.
  - intros x s H. unfold Ieee.cexp. cbn [Ieee.re Ieee.im].
    rewrite (Hunder x H), Hc, Hs. destruct s; reflexivity.
  - intros x s H. unfold Ieee.cexp. cbn [Ieee.re Ieee.im].
    rewrite (Hover x H), Hc, Hs. destruct s; reflexivity.
Qed.

Lemma cexp_is_a_homomorphism_witness :
  (cexp C0 = C1 /\ cexp (Ci + C1) = (cexp Ci * cexp C1)%C) /\
  (Ieee.re (Ieee.cexp Cases.libm_coarse (Ieee.mkComplex Ieee.zero Ieee.zero))
   = Ieee.one /\
   Ieee.is_zero
     (Ieee.im (Ieee.cexp Cases.libm_coarse (Ieee.mkComplex Ieee.zero Ieee.zero)))
   = true) /\
  Ieee.czero (Ieee.cexp Cases.libm_coarse
                (Ieee.mkComplex (Ieee.of_Z (-1000)) Ieee.zero)) = true /\
  Ieee.cexp Cases.libm_coarse (Ieee.mkComplex (Ieee.of_Z 1000) Ieee.zero)
  = Ieee.mkComplex Ieee.infinity Ieee.nan.
Proof.
  destruct (cexp_is_a_homomorphism Ci C1 Cases.libm_coarse libm_coarse_ok)
    as (H1 & H2 & H3 & H4).
  split; [exact H1|]. split; [apply (H2 false false)|].
  split; [apply (H3 (Ieee.of_Z (-1000)) false); reflexivity|].
  apply (H4 (Ieee.of_Z 1000) false). reflexivity.
Defined.

(** X2.  The modulus of [cexp z] is [exp (Re z)]: the squares of its two parts
    add up to [exp (2 * Re z)], so that a plane-wave factor [cexp (j t)] has
    modulus 1; and [cexp] has period [2 PI j]. *)
Theorem cexp_modulus_and_period (z : C) (t : R) (k : nat) :
  (Re (cexp z) * Re (cexp z) + Im (cexp z) * Im (cexp z) = exp (2 * Re z))%R /\
  (Re (cexp (mkC 0 t)) * Re (cexp (mkC 0 t))
   + Im (cexp (mkC 0 t)) * Im (cexp (mkC 0 t)) = 1)%R /\
  cexp (z + mkC 0 (2 * INR k * PI)) = cexp z.
Proof.
  assert (Hmod : forall u,
            (Re (cexp u) * Re (cexp u) + Im (cexp u) * Im (cexp u)
             = exp (2 * Re u))%R).
  { intros u. rewrite cexp_parts. cbn [Re Im].
    replace (2 * Re u)%R with (Re u + Re u)%R by ring. rewrite exp_plus.
    pose proof (sin2_cos2 (Im u)) as H. unfold Rsqr in H.
    transitivity (exp (Re u) * exp (Re u)
                  * (sin (Im u) * sin (Im u) + cos (Im u) * cos (Im u)))%R;
      [ring|]. rewrite H. ring. }
  split; [apply Hmod|]. split.
  - rewrite Hmod. cbn [Re]. rewrite Rmult_0_r. apply exp_0.
  - rewrite !cexp_parts. unfold Cadd. cbn [Re Im].
    rewrite Rplus_0_r, cos_period, sin_period. reflexivity.
Qed.

(** ** [dot_product_complex_real] *)

Lemma foldM_fails {S X : Type} (body : X -> S -> option S) (l : list X) (x : X) :
  In x l -> (forall s, body x s = None) -> forall s, foldM body l s = None.
Proof.
  intros Hin Hx. induction l as [|x0 l IH]; intros s; [contradiction|].
  simpl. destruct Hin as [->|Hin].
  - rewrite Hx. reflexivity.
  - destruct (body x0 s) as [s'|]; [|reflexivity]. simpl. apply IH. exact Hin.
Qed.

(** X3.  For any length, when the first [n] cells behind both pointers can be
    read, the dot product returns the sum of the [n] products
    [a[k] * b[k]], accumulated from 0 in index order. *)
Theorem dot_product_is_sum_of_products
        (n : nat) (a : ptr C) (b : ptr R) (x : nat -> C) (y : nat -> R) :
  (forall k, (k < n)%nat -> ptr_read a (Z.of_nat k) = Some (x k)) ->
  (forall k, (k < n)%nat -> ptr_read b (Z.of_nat k) = Some (y k)) ->
  dot_product_complex_real (Z.of_nat n) a b
  = Some (Csum (fun k => x k * RtoC (y k))%C n).
Proof.
  intros Ha Hb. unfold dot_product_complex_real. rewrite Nat2Z.id.
  destruct (for_range_inv
              (fun k r => r = Csum (fun k => x k * RtoC (y k))%C k) n
              (fun counter result =>
                 u <- ptr_read a (Z.of_nat counter) ;;
                 v <- ptr_read b (Z.of_nat counter) ;;
                 Some (result + u * RtoC v)%C) (RtoC 0)) as (r & E & Hr).
  - reflexivity.
  - intros k t Hk ->. rewrite (Ha k Hk), (Hb k Hk). cbn [bind].
    eexists. split; reflexivity.
  - rewrite E, Hr. reflexivity.
Qed.

Lemma dot_product_is_sum_of_products_witness :
  dot_product_complex_real 2 (local_ptr [C1; Ci]) (local_ptr [2%R; 3%R])
  = Some (Csum (fun k => nth k [C1; Ci] C0 * RtoC (nth k [2%R; 3%R] 0%R))%C 2).
Proof.
  apply (dot_product_is_sum_of_products 2 (local_ptr [C1; Ci])
           (local_ptr [2%R; 3%R])
           (fun k => nth k [C1; Ci] C0) (fun k => nth k [2%R; 3%R] 0%R)).
  - intros k Hk. destruct k as [|[|k]]; [reflexivity|reflexivity|lia].
  - intros k Hk. destruct k as [|[|k]]; [reflexivity|reflexivity|lia].
Defined.

(** X4.  A length that is not positive gives 0 without any read; and a length
    that reaches a cell outside one of the two buffers gives no defined
    result, whatever the other cells hold. *)
Theorem dot_product_bounds (length : Z) (a : ptr C) (b : ptr R) :
  ((length <= 0)%Z -> dot_product_complex_real length a b = Some C0) /\
  (forall k, (0 <= k < length)%Z ->
     ptr_read a k = None \/ ptr_read b k = None ->
     dot_product_complex_real length a b = None).
Proof.
  split.
  - intros H. unfold dot_product_complex_real.
    replace (Z.to_nat length) with 0%nat by lia. reflexivity.
  - intros k Hk Hnone. unfold dot_product_complex_real, for_range.
    apply (foldM_fails _ _ (Z.to_nat k)).
    + apply in_seq. lia.
    + intros s. rewrite Z2Nat.id by lia.
      destruct Hnone as [-> | Hb]; [reflexivity|].
      rewrite Hb. destruct (ptr_read a k); reflexivity.
Qed.

(** ** [source_integral_plane_wave] *)

Lemma integral_spec_translate (xi_eta_o weights_o nodes1 nodes2 : memview R)
      (jk_inc e_inc : memview C) (d : nat -> R) (a : nat) :
  (forall i b, (i < 3)%nat -> (b < 3)%nat ->
     node nodes2 i b = (node nodes1 i b + d b)%R) ->
  (a < 3)%nat ->
  integral_spec xi_eta_o weights_o nodes2 jk_inc e_inc a
  = (cexp (- (jk jk_inc 0 * RtoC (d 0%nat) + jk jk_inc 1 * RtoC (d 1%nat)
              + jk jk_inc 2 * RtoC (d 2%nat)))
     * integral_spec xi_eta_o weights_o nodes1 jk_inc e_inc a)%C.
Proof.
  intros Hd Ha.
  unfold integral_spec. rewrite Csum_scal. apply Csum_ext. intros k _.
  unfold contribution, e_r.
  replace (- jk_dot_r xi_eta_o nodes2 jk_inc k)%C
    with (- (jk jk_inc 0 * RtoC (d 0%nat) + jk jk_inc 1 * RtoC (d 1%nat)
             + jk jk_inc 2 * RtoC (d 2%nat))
          + - jk_dot_r xi_eta_o nodes1 jk_inc k)%C.
  2:{ unfold jk_dot_r, r_pt.
      rewrite !(Hd 0%nat), !(Hd 1%nat), !(Hd 2%nat) by lia. c_ring. }
  rewrite cexp_add.
  replace (rho xi_eta_o nodes2 k a 0) with (rho xi_eta_o nodes1 k a 0)
    by (unfold rho, r_pt; rewrite !(Hd 0%nat), !(Hd 1%nat), !(Hd 2%nat), !(Hd a) by lia; ring).
  replace (rho xi_eta_o nodes2 k a 1) with (rho xi_eta_o nodes1 k a 1)
    by (unfold rho, r_pt; rewrite !(Hd 0%nat), !(Hd 1%nat), !(Hd 2%nat), !(Hd a) by lia; ring).
  replace (rho xi_eta_o nodes2 k a 2) with (rho xi_eta_o nodes1 k a 2)
    by (unfold rho, r_pt; rewrite !(Hd 0%nat), !(Hd 1%nat), !(Hd 2%nat), !(Hd a) by lia; ring).
  c_ring.
Qed.

(** X5.  Translating the triangle by a vector [d] multiplies the three integrals
    by the phase factor [cexp (- (jk_inc . d))]: the vectors [rho] do not
    move, and the barycentric coordinates add up to 1. *)
Theorem integrator_translation_is_a_phase
        (xi_eta_o weights_o nodes1 nodes2 : memview R)
        (jk_inc e_inc : memview C) (d : nat -> R) :
  integrator_args_ok xi_eta_o weights_o nodes1 jk_inc e_inc ->
  integrator_args_ok xi_eta_o weights_o nodes2 jk_inc e_inc ->
  (forall a b, (a < 3)%nat -> (b < 3)%nat ->
     node nodes2 a b = (node nodes1 a b + d b)%R) ->
  exists I1 I2,
    integrator_result xi_eta_o weights_o nodes1 jk_inc e_inc = Some I1 /\
    integrator_result xi_eta_o weights_o nodes2 jk_inc e_inc = Some I2 /\
    forall a, (a < 3)%nat ->
      nth a I2 C0
      = (cexp (- (jk jk_inc 0 * RtoC (d 0%nat) + jk jk_inc 1 * RtoC (d 1%nat)
                  + jk jk_inc 2 * RtoC (d 2%nat)))
         * nth a I1 C0)%C.
Proof.
  intros H1 H2 Hd.
  eexists _, _. split; [apply integrator_result_char; exact H1|].
  split; [apply integrator_result_char; exact H2|].
  intros a Ha. rewrite !nth_map_range3 by exact Ha.
  apply integral_spec_translate; assumption.
Qed.

Lemma tri_x_shifted_args_ok :
  integrator_args_ok Plate.xi_eta_node0 Plate.weights_one Cases.tri_x_shifted
                     Plate.jk_x Plate.e_inc.
Proof. repeat split. Qed.

Lemma tri_x_shifted_nodes (a b : nat) :
  (a < 3)%nat -> (b < 3)%nat ->
  node Cases.tri_x_shifted a b = (node Plate.tri_x a b + Cases.shift b)%R.
Proof.
  intros Ha Hb. small_nat a; small_nat b; unfold node; eval_reads;
    cbn [Cases.shift]; first [ring | change (R1 + IPR_2 1)%R with 3%R; ring].
Qed.

Lemma integrator_translation_is_a_phase_witness :
  exists I1 I2,
    integrator_result Plate.xi_eta_node0 Plate.weights_one Plate.tri_x
                      Plate.jk_x Plate.e_inc = Some I1 /\
    integrator_result Plate.xi_eta_node0 Plate.weights_one Cases.tri_x_shifted
                      Plate.jk_x Plate.e_inc = Some I2 /\
    forall a, (a < 3)%nat ->
      nth a I2 C0
      = (cexp (- (jk Plate.jk_x 0 * RtoC (Cases.shift 0%nat)
                  + jk Plate.jk_x 1 * RtoC (Cases.shift 1%nat)
                  + jk Plate.jk_x 2 * RtoC (Cases.shift 2%nat)))
         * nth a I1 C0)%C.
Proof.
  apply (integrator_translation_is_a_phase
           Plate.xi_eta_node0 Plate.weights_one Plate.tri_x Cases.tri_x_shifted
           Plate.jk_x Plate.e_inc Cases.shift).
  - exact tri_x_args_ok.
  - exact tri_x_shifted_args_ok.
  - exact tri_x_shifted_nodes.
Defined.

(** ** [source_integral_plane_wave], the result buffer *)

(** Two buffers that hold the same values in the cells of [I] and agree
    elsewhere are equal. *)
Lemma view_holds_unique (I : view) (b0 b0' b b' : list C) (acc : nat -> C) :
  length b0' = length b0 ->
  (forall j, (forall a, (a < 3)%nat -> Z.of_nat j <> offset I [Z.of_nat a]) ->
     nth_error b0' j = nth_error b0 j) ->
  view_holds I b0 acc b -> view_holds I b0' acc b' -> b = b'.
Proof.
  intros L Hrest (Lb & Cb & Rb) (Lb' & Cb' & Rb').
  apply list_ext_nth_error; [congruence|].
  intros j _.
  destruct (Z.eq_dec (Z.of_nat j) (offset I [Z.of_nat 0])) as [E0|N0].
  { rewrite <- !buf_read_nth, E0, (Cb 0%nat), (Cb' 0%nat) by lia. reflexivity. }
  destruct (Z.eq_dec (Z.of_nat j) (offset I [Z.of_nat 1])) as [E1|N1].
  { rewrite <- !buf_read_nth, E1, (Cb 1%nat), (Cb' 1%nat) by lia. reflexivity. }
  destruct (Z.eq_dec (Z.of_nat j) (offset I [Z.of_nat 2])) as [E2|N2].
  { rewrite <- !buf_read_nth, E2, (Cb 2%nat), (Cb' 2%nat) by lia. reflexivity. }
  assert (Hj : forall a, (a < 3)%nat -> Z.of_nat j <> offset I [Z.of_nat a]).
  { intros a Ha. small_nat a; assumption. }
  rewrite (Rb j Hj), (Rb' j Hj). symmetry. apply Hrest. exact Hj.
Qed.

(** X7.  The integrator overwrites [I]: what the three cells of [I] held before
    the call has no effect on the result, and a second call on the buffer
    the first one left changes nothing. *)
Theorem integrator_overwrites_its_result
        (xi_eta_o weights_o nodes_o : memview R) (jk_inc e_inc : memview C)
        (I : view) (buf1 buf2 : list C) :
  integrator_args_ok xi_eta_o weights_o nodes_o jk_inc e_inc ->
  result_view_ok I buf1 ->
  length buf2 = length buf1 ->
  (forall j, (forall a, (a < 3)%nat -> Z.of_nat j <> offset I [Z.of_nat a]) ->
     nth_error buf2 j = nth_error buf1 j) ->
  exists buf',
    source_integral_plane_wave xi_eta_o weights_o nodes_o jk_inc e_inc I buf1
    = Some buf' /\
    source_integral_plane_wave xi_eta_o weights_o nodes_o jk_inc e_inc I buf2
    = Some buf' /\
    source_integral_plane_wave xi_eta_o weights_o nodes_o jk_inc e_inc I buf'
    = Some buf'.
Proof.
  intros Hargs HI L Hrest.
  destruct (source_integral_char xi_eta_o weights_o nodes_o jk_inc e_inc I
              Hargs buf1 HI) as (b1 & E1 & H1).
  assert (HI2 : result_view_ok I buf2)
    by (apply (result_view_ok_length I buf1); assumption).
  destruct (source_integral_char xi_eta_o weights_o nodes_o jk_inc e_inc I
              Hargs buf2 HI2) as (b2 & E2 & H2).
  assert (HI' : result_view_ok I b1)
    by (apply (result_view_ok_length I buf1); [apply H1|exact HI]).
  destruct (source_integral_char xi_eta_o weights_o nodes_o jk_inc e_inc I
              Hargs b1 HI') as (b3 & E3 & H3).
  exists b1. split; [exact E1|]. split.
  - rewrite E2. f_equal. symmetry.
    apply (view_holds_unique I buf1 buf2 b1 b2 _ L Hrest H1 H2).
  - rewrite E3. f_equal. symmetry.
    apply (view_holds_unique I buf1 b1 b1 b3 _ (proj1 H1) (proj2 (proj2 H1)) H1 H3).
Qed.

Lemma integrator_overwrites_its_result_witness :
  exists buf',
    source_integral_plane_wave Plate.xi_eta_node0 Plate.weights_one Plate.tri_x
                               Plate.jk_x Plate.e_inc (c_view [3%Z])
                               [C1; C1; C1] = Some buf' /\
    source_integral_plane_wave Plate.xi_eta_node0 Plate.weights_one Plate.tri_x
                               Plate.jk_x Plate.e_inc (c_view [3%Z])
                               [Ci; C0; C1] = Some buf' /\
    source_integral_plane_wave Plate.xi_eta_node0 Plate.weights_one Plate.tri_x
                               Plate.jk_x Plate.e_inc (c_view [3%Z])
                               buf' = Some buf'.
Proof.
  apply (integrator_overwrites_its_result
           Plate.xi_eta_node0 Plate.weights_one Plate.tri_x
           Plate.jk_x Plate.e_inc (c_view [3%Z]) [C1; C1; C1] [Ci; C0; C1]).
  - exact tri_x_args_ok.
  - apply c_view3_ok. reflexivity.
  - reflexivity.
  - intros j Hj. destruct j as [|[|[|j]]]; [| | |reflexivity]; exfalso.
    + apply (Hj 0%nat); [lia|reflexivity].
    + apply (Hj 1%nat); [lia|reflexivity].
    + apply (Hj 2%nat); [lia|reflexivity].
Defined.

(** X8.  With bounds checking off, a quadrature point whose weight or whose
    coordinates lie outside their buffer leaves the integrator without a
    defined result: every point counted by [xi_eta_o.shape[0]] is read,
    whatever the length of [weights_o]. *)
Theorem integrator_reads_every_quadrature_point
        (xi_eta_o weights_o nodes_o : memview R) (jk_inc e_inc : memview C)
        (I : view) (Ibuf : list C) (k : nat) :
  (k < Z.to_nat (c_int (shape (mv_view xi_eta_o) 0)))%nat ->
  mv_get weights_o [Z.of_nat k] = None \/
  mv_get xi_eta_o [Z.of_nat k; 0%Z] = None \/
  mv_get xi_eta_o [Z.of_nat k; 1%Z] = None ->
  source_integral_plane_wave xi_eta_o weights_o nodes_o jk_inc e_inc I Ibuf
  = None.
Proof.
  intros Hk Hread. unfold source_integral_plane_wave.
  destruct (clear_I I Ibuf) as [buf0|]; [|reflexivity]. cbn [bind].
  unfold for_range. apply (foldM_fails _ _ k).
  - apply in_seq. lia.
  - intros s. unfold quad_point.
    destruct Hread as [H | [H | H]].
    + rewrite H. reflexivity.
    + destruct (mv_get weights_o [Z.of_nat k]); [|reflexivity]. cbn [bind].
      rewrite H. reflexivity.
    + destruct (mv_get weights_o [Z.of_nat k]); [|reflexivity]. cbn [bind].
      destruct (mv_get xi_eta_o [Z.of_nat k; 0%Z]); [|reflexivity]. cbn [bind].
      rewrite H. reflexivity.
Qed.

Lemma integrator_reads_every_quadrature_point_witness :
  source_integral_plane_wave Plate.xi_eta Plate.weights_empty Plate.tri_x
                             Plate.jk_x Plate.e_inc (c_view [3%Z]) [C0; C0; C0]
  = None.
Proof.
  apply (integrator_reads_every_quadrature_point
           Plate.xi_eta Plate.weights_empty Plate.tri_x Plate.jk_x Plate.e_inc
           (c_view [3%Z]) [C0; C0; C0] 0%nat).
  - vm_compute. lia.
  - left. reflexivity.
Defined.

Lemma Csum_app (f : nat -> C) (n m : nat) :
  Csum f (n + m) = (Csum f n + Csum (fun k => f (n + k)%nat) m)%C.
Proof.
  induction m as [|m IH].
  - rewrite Nat.add_0_r. simpl. c_ring.
  - rewrite Nat.add_succ_r. simpl. rewrite IH. c_ring.
Qed.

(** X9.  The integrals are additive in the quadrature rule: for a rule made of
    the points and weights of a first rule followed by those of a second,
    each of the three integrals is the sum of the integrals of the two
    rules. *)
Theorem integrator_additive_in_the_rule
        (xi1 w1 xi2 w2 xi12 w12 nodes_o : memview R)
        (jk_inc e_inc : memview C) :
  integrator_args_ok xi1 w1 nodes_o jk_inc e_inc ->
  integrator_args_ok xi2 w2 nodes_o jk_inc e_inc ->
  integrator_args_ok xi12 w12 nodes_o jk_inc e_inc ->
  n_quad xi12 = (n_quad xi1 + n_quad xi2)%nat ->
  (forall k, (k < n_quad xi1)%nat ->
     q_xi xi12 k = q_xi xi1 k /\ q_eta xi12 k = q_eta xi1 k /\
     q_w w12 k = q_w w1 k) ->
  (forall k, (k < n_quad xi2)%nat ->
     q_xi xi12 (n_quad xi1 + k) = q_xi xi2 k /\
     q_eta xi12 (n_quad xi1 + k) = q_eta xi2 k /\
     q_w w12 (n_quad xi1 + k) = q_w w2 k) ->
  exists I1 I2 I12,
    integrator_result xi1 w1 nodes_o jk_inc e_inc = Some I1 /\
    integrator_result xi2 w2 nodes_o jk_inc e_inc = Some I2 /\
    integrator_result xi12 w12 nodes_o jk_inc e_inc = Some I12 /\
    forall a, (a < 3)%nat -> nth a I12 C0 = (nth a I1 C0 + nth a I2 C0)%C.
Proof.
  intros H1 H2 H12 Hn Hfst Hsnd.
  eexists _, _, _. split; [apply integrator_result_char; exact H1|].
  split; [apply integrator_result_char; exact H2|].
  split; [apply integrator_result_char; exact H12|].
  intros a Ha. rewrite !nth_map_range3 by exact Ha.
  unfold integral_spec. rewrite Hn, Csum_app. f_equal.
  - apply Csum_ext. intros k Hk. destruct (Hfst k Hk) as (E1 & E2 & E3).
    unfold contribution, e_r, jk_dot_r, rho, r_pt. rewrite E1, E2, E3.
    reflexivity.
  - apply Csum_ext. intros k Hk. destruct (Hsnd k Hk) as (E1 & E2 & E3).
    unfold contribution, e_r, jk_dot_r, rho, r_pt. rewrite E1, E2, E3.
    reflexivity.
Qed.

Lemma both_args_ok :
  integrator_args_ok Cases.xi_eta_both Cases.weights_both Plate.tri_x
                     Plate.jk_x Plate.e_inc.
Proof. repeat split. Qed.

Lemma second_args_ok :
  integrator_args_ok Plate.xi_eta Plate.weights Plate.tri_x
                     Plate.jk_x Plate.e_inc.
Proof. repeat split. Qed.

Lemma both_first (k : nat) :
  (k < n_quad Plate.xi_eta_node0)%nat ->
  q_xi Cases.xi_eta_both k = q_xi Plate.xi_eta_node0 k /\
  q_eta Cases.xi_eta_both k = q_eta Plate.xi_eta_node0 k /\
  q_w Cases.weights_both k = q_w Plate.weights_one k.
Proof.
  intros Hk. change (k < 1)%nat in Hk. assert (k = 0%nat) by lia. subst k.
  repeat split.
Qed.

Lemma both_second (k : nat) :
  (k < n_quad Plate.xi_eta)%nat ->
  q_xi Cases.xi_eta_both (n_quad Plate.xi_eta_node0 + k) = q_xi Plate.xi_eta k /\
  q_eta Cases.xi_eta_both (n_quad Plate.xi_eta_node0 + k) = q_eta Plate.xi_eta k /\
  q_w Cases.weights_both (n_quad Plate.xi_eta_node0 + k) = q_w Plate.weights k.
Proof.
  intros Hk. change (k < 1)%nat in Hk. assert (k = 0%nat) by lia. subst k.
  repeat split.
Qed.

Lemma integrator_additive_in_the_rule_witness :
  exists I1 I2 I12,
    integrator_result Plate.xi_eta_node0 Plate.weights_one Plate.tri_x
                      Plate.jk_x Plate.e_inc = Some I1 /\
    integrator_result Plate.xi_eta Plate.weights Plate.tri_x
                      Plate.jk_x Plate.e_inc = Some I2 /\
    integrator_result Cases.xi_eta_both Cases.weights_both Plate.tri_x
                      Plate.jk_x Plate.e_inc = Some I12 /\
    forall a, (a < 3)%nat -> nth a I12 C0 = (nth a I1 C0 + nth a I2 C0)%C.
Proof.
  apply (integrator_additive_in_the_rule
           Plate.xi_eta_node0 Plate.weights_one Plate.xi_eta Plate.weights
           Cases.xi_eta_both Cases.weights_both Plate.tri_x
           Plate.jk_x Plate.e_inc).
  - exact tri_x_args_ok.
  - exact second_args_ok.
  - exact both_args_ok.
  - reflexivity.
  - exact both_first.
  - exact both_second.
Defined.

(** ** [triangle_face_to_rwg] *)

(** The entries of the two matrices, on a well-formed table within the
    extents of well-formed face tensors. *)
Ltac converter_entries tp tm np nm vf sf jv js Htab Hvf Hsf Hin vr sr E Hent :=
  let Dv := fresh "Dv" in
  let Ds := fresh "Ds" in
  destruct (triangle_face_to_rwg_char tp tm np nm vf sf
              (mv_okb_shape 1 tp 0 (proj1 Htab))
              (table_views_reads tp tm np nm Htab)
              (table_in_range_reads tp tm np nm vf sf Hvf Hsf Hin) jv js)
    as (vr & sr & E & Dv & Ds & Hent).


Lemma two_table_views_ok :
  table_views_ok Cases.two_tri_p Cases.two_tri_m
                 Cases.two_node_p Cases.two_node_m.
Proof. repeat split. Qed.

(** The indices of the two-function table are within any pair of face
    tensors of extents 2, 2, 3, 3 and 2, 2. *)
Lemma two_table_in_range (vf sf : memview C) :
  v_shape (mv_view vf) = [2; 2; 3; 3]%Z -> v_shape (mv_view sf) = [2; 2]%Z ->
  table_in_range Cases.two_tri_p Cases.two_tri_m
                 Cases.two_node_p Cases.two_node_m vf sf.
Proof.
  intros Sv Ss m Hm p i Hpi. change (m < 2)%nat in Hm. unfold shape.
  rewrite Sv, Ss. cbn [nth].
  destruct m as [|[|m]]; [| |lia];
    destruct Hpi as [E|E]; injection E as -> ->; vm_compute;
    intuition discriminate.
Qed.

Lemma sym_vector_face_symmetric (p q i j : Z) :
  (0 <= p < shape (mv_view Cases.sym_vector_face) 0)%Z ->
  (0 <= q < shape (mv_view Cases.sym_vector_face) 0)%Z ->
  (0 <= i < shape (mv_view Cases.sym_vector_face) 2)%Z ->
  (0 <= j < shape (mv_view Cases.sym_vector_face) 2)%Z ->
  vface Cases.sym_vector_face p q i j = vface Cases.sym_vector_face q p j i.
Proof.
  intros Hp Hq Hi Hj.
  change (0 <= p < 2)%Z in Hp. change (0 <= q < 2)%Z in Hq.
  change (0 <= i < 3)%Z in Hi. change (0 <= j < 3)%Z in Hj.
  assert (Ep : p = 0%Z \/ p = 1%Z) by lia.
  assert (Eq : q = 0%Z \/ q = 1%Z) by lia.
  assert (Ei : i = 0%Z \/ i = 1%Z \/ i = 2%Z) by lia.
  assert (Ej : j = 0%Z \/ j = 1%Z \/ j = 2%Z) by lia.
  destruct Ep as [-> | ->]; destruct Eq as [-> | ->];
    destruct Ei as [-> | [-> | ->]]; destruct Ej as [-> | [-> | ->]];
    reflexivity.
Qed.

Lemma sym_scalar_face_symmetric (p q : Z) :
  (0 <= p < shape (mv_view Cases.sym_scalar_face) 0)%Z ->
  (0 <= q < shape (mv_view Cases.sym_scalar_face) 0)%Z ->
  sface Cases.sym_scalar_face p q = sface Cases.sym_scalar_face q p.
Proof.
  intros Hp Hq. change (0 <= p < 2)%Z in Hp. change (0 <= q < 2)%Z in Hq.
  assert (Ep : p = 0%Z \/ p = 1%Z) by lia.
  assert (Eq : q = 0%Z \/ q = 1%Z) by lia.
  destruct Ep as [-> | ->]; destruct Eq as [-> | ->]; reflexivity.
Qed.


(** X11.  The converter is linear in the face tensors: for face tensors that are
    the combination [c1 * first + c2 * second] of two others, cell by cell,
    the two matrices are the same combination of the matrices of the two. *)
Theorem converter_linear_in_the_faces
        (tp tm np nm : memview Z) (vf1 sf1 vf2 sf2 vf sf : memview C)
        (c1 c2 : C) (junk_v junk_s : nat -> nat -> C) :
  table_views_ok tp tm np nm ->
  mv_okb 4 vf1 = true -> mv_okb 2 sf1 = true ->
  mv_okb 4 vf2 = true -> mv_okb 2 sf2 = true ->
  mv_okb 4 vf = true -> mv_okb 2 sf = true ->
  table_in_range tp tm np nm vf1 sf1 ->
  table_in_range tp tm np nm vf2 sf2 ->
  table_in_range tp tm np nm vf sf ->
  (forall p q i j,
     (0 <= p < shape (mv_view vf) 0)%Z -> (0 <= q < shape (mv_view vf) 1)%Z ->
     (0 <= i < shape (mv_view vf) 2)%Z -> (0 <= j < shape (mv_view vf) 3)%Z ->
     vface vf p q i j = (c1 * vface vf1 p q i j + c2 * vface vf2 p q i j)%C) ->
  (forall p q,
     (0 <= p < shape (mv_view sf) 0)%Z -> (0 <= q < shape (mv_view sf) 1)%Z ->
     sface sf p q = (c1 * sface sf1 p q + c2 * sface sf2 p q)%C) ->
  exists vr1 sr1 vr2 sr2 vr sr,
    triangle_face_to_rwg tp tm np nm vf1 sf1 junk_v junk_s = Some (vr1, sr1) /\
    triangle_face_to_rwg tp tm np nm vf2 sf2 junk_v junk_s = Some (vr2, sr2) /\
    triangle_face_to_rwg tp tm np nm vf sf junk_v junk_s = Some (vr, sr) /\
    forall m n, (m < num_basis tp)%nat -> (n < num_basis tp)%nat ->
      mat_get vr m n = (c1 * mat_get vr1 m n + c2 * mat_get vr2 m n)%C /\
      mat_get sr m n = (c1 * mat_get sr1 m n + c2 * mat_get sr2 m n)%C.
Proof.
  intros Htab Hvf1 Hsf1 Hvf2 Hsf2 Hvf Hsf Hin1 Hin2 Hin Hv Hs.
  converter_entries tp tm np nm vf1 sf1 junk_v junk_s Htab Hvf1 Hsf1 Hin1
                    vr1 sr1 Eqa Hent1.
  converter_entries tp tm np nm vf2 sf2 junk_v junk_s Htab Hvf2 Hsf2 Hin2
                    vr2 sr2 Eqb Hent2.
  converter_entries tp tm np nm vf sf junk_v junk_s Htab Hvf Hsf Hin
                    vr sr E Hent.
  exists vr1, sr1, vr2, sr2, vr, sr. repeat (split; [assumption|]).
  intros m n Hm Hn.
  destruct (Hent1 m n Hm Hn) as [V1 S1]. destruct (Hent2 m n Hm Hn) as [V2 S2].
  destruct (Hent m n Hm Hn) as [V S]. rewrite V1, S1, V2, S2, V, S.
  destruct (Hin m Hm _ _ (or_introl eq_refl)) as (Pm0 & _ & Pm2 & _ & Pm4 & _).
  destruct (Hin m Hm _ _ (or_intror eq_refl)) as (Mm0 & _ & Mm2 & _ & Mm4 & _).
  destruct (Hin n Hn _ _ (or_introl eq_refl)) as (_ & Pn1 & _ & Pn3 & _ & Pn5).
  destruct (Hin n Hn _ _ (or_intror eq_refl)) as (_ & Mn1 & _ & Mn3 & _ & Mn5).
  unfold vector_rwg_spec, scalar_rwg_spec. split.
  - rewrite !Hv by assumption. c_ring.
  - rewrite !Hs by assumption. c_ring.
Qed.

Lemma plate_two_table_in_range :
  table_in_range Cases.two_tri_p Cases.two_tri_m
                 Cases.two_node_p Cases.two_node_m
                 Plate.vector_face Plate.scalar_face.
Proof. apply two_table_in_range; reflexivity. Qed.

Lemma mixed_vector_face_cells (p q i j : Z) :
  (0 <= p < shape (mv_view Cases.mixed_vector_face) 0)%Z ->
  (0 <= q < shape (mv_view Cases.mixed_vector_face) 1)%Z ->
  (0 <= i < shape (mv_view Cases.mixed_vector_face) 2)%Z ->
  (0 <= j < shape (mv_view Cases.mixed_vector_face) 3)%Z ->
  vface Cases.mixed_vector_face p q i j
  = (Ci * vface Plate.vector_face p q i j
     + RtoC 2 * vface Cases.sym_vector_face p q i j)%C.
Proof.
  intros Hp Hq Hi Hj.
  change (0 <= p < 2)%Z in Hp. change (0 <= q < 2)%Z in Hq.
  change (0 <= i < 3)%Z in Hi. change (0 <= j < 3)%Z in Hj.
  assert (Ep : p = 0%Z \/ p = 1%Z) by lia.
  assert (Eq : q = 0%Z \/ q = 1%Z) by lia.
  assert (Ei : i = 0%Z \/ i = 1%Z \/ i = 2%Z) by lia.
  assert (Ej : j = 0%Z \/ j = 1%Z \/ j = 2%Z) by lia.
  destruct Ep as [-> | ->]; destruct Eq as [-> | ->];
    destruct Ei as [-> | [-> | ->]]; destruct Ej as [-> | [-> | ->]];
    reflexivity.
Qed.

Lemma mixed_scalar_face_cells (p q : Z) :
  (0 <= p < shape (mv_view Cases.mixed_scalar_face) 0)%Z ->
  (0 <= q < shape (mv_view Cases.mixed_scalar_face) 1)%Z ->
  sface Cases.mixed_scalar_face p q
  = (Ci * sface Plate.scalar_face p q
     + RtoC 2 * sface Cases.sym_scalar_face p q)%C.
Proof.
  intros Hp Hq. change (0 <= p < 2)%Z in Hp. change (0 <= q < 2)%Z in Hq.
  assert (Ep : p = 0%Z \/ p = 1%Z) by lia.
  assert (Eq : q = 0%Z \/ q = 1%Z) by lia.
  destruct Ep as [-> | ->]; destruct Eq as [-> | ->]; reflexivity.
Qed.

Lemma converter_linear_in_the_faces_witness :
  exists vr1 sr1 vr2 sr2 vr sr,
    triangle_face_to_rwg Cases.two_tri_p Cases.two_tri_m
                         Cases.two_node_p Cases.two_node_m
                         Plate.vector_face Plate.scalar_face
                         Plate.junk Plate.junk' = Some (vr1, sr1) /\
    triangle_face_to_rwg Cases.two_tri_p Cases.two_tri_m
                         Cases.two_node_p Cases.two_node_m
                         Cases.sym_vector_face Cases.sym_scalar_face
                         Plate.junk Plate.junk' = Some (vr2, sr2) /\
    triangle_face_to_rwg Cases.two_tri_p Cases.two_tri_m
                         Cases.two_node_p Cases.two_node_m
                         Cases.mixed_vector_face Cases.mixed_scalar_face
                         Plate.junk Plate.junk' = Some (vr, sr) /\
    forall m n, (m < 2)%nat -> (n < 2)%nat ->
      mat_get vr m n = (Ci * mat_get vr1 m n + RtoC 2 * mat_get vr2 m n)%C /\
      mat_get sr m n = (Ci * mat_get sr1 m n + RtoC 2 * mat_get sr2 m n)%C.
Proof.
  apply (converter_linear_in_the_faces
           Cases.two_tri_p Cases.two_tri_m Cases.two_node_p Cases.two_node_m
           Plate.vector_face Plate.scalar_face
           Cases.sym_vector_face Cases.sym_scalar_face
           Cases.mixed_vector_face Cases.mixed_scalar_face
           Ci (RtoC 2) Plate.junk Plate.junk').
  - exact two_table_views_ok.
  - reflexivity.
  - reflexivity.
  - reflexivity.
  - reflexivity.
  - reflexivity.
  - reflexivity.
  - exact plate_two_table_in_range.
  - apply two_table_in_range; reflexivity.
  - apply two_table_in_range; reflexivity.
  - exact mixed_vector_face_cells.
  - exact mixed_scalar_face_cells.
Defined.

(** X12.  A basis function [m] whose plus and minus halves coincide, same
    triangle and same node, excites nothing: column [m] of both matrices is
    zero.  The code evaluates the entry as [((A - A) - B) + B] and
    [((- a + a) + b) - b], which is zero in doubles as well for finite cells
    (row [m] is [((A - B) - A) + B], zero in exact arithmetic only). *)
Theorem converter_degenerate_function_gives_zero
        (tp tm np nm : memview Z) (vf sf : memview C)
        (junk_v junk_s : nat -> nat -> C) (m : nat) :
  table_views_ok tp tm np nm ->
  mv_okb 4 vf = true -> mv_okb 2 sf = true ->
  table_in_range tp tm np nm vf sf ->
  (m < num_basis tp)%nat ->
  tri_plus tp m = tri_minus tm m -> node_plus np m = node_minus nm m ->
  exists vector_rwg scalar_rwg,
    triangle_face_to_rwg tp tm np nm vf sf junk_v junk_s
      = Some (vector_rwg, scalar_rwg) /\
    forall n, (n < num_basis tp)%nat ->
      mat_get vector_rwg n m = C0 /\ mat_get scalar_rwg n m = C0.
Proof.
  intros Htab Hvf Hsf Hin Hm Ht Hn.
  converter_entries tp tm np nm vf sf junk_v junk_s Htab Hvf Hsf Hin vr sr E Hent.
  exists vr, sr. split; [exact E|]. intros n Hlt.
  destruct (Hent n m Hlt Hm) as [V2 S2].
  rewrite V2, S2. unfold vector_rwg_spec, scalar_rwg_spec.
  rewrite Ht, Hn. split; c_ring.
Qed.

Lemma converter_degenerate_function_gives_zero_witness :
  exists vector_rwg scalar_rwg,
    triangle_face_to_rwg Cases.two_tri_p Cases.two_tri_m
                         Cases.two_node_p Cases.two_node_m
                         Plate.vector_face Plate.scalar_face
                         Plate.junk Plate.junk'
      = Some (vector_rwg, scalar_rwg) /\
    forall n, (n < 2)%nat ->
      mat_get vector_rwg n 1 = C0 /\ mat_get scalar_rwg n 1 = C0.
Proof.
  apply (converter_degenerate_function_gives_zero
           Cases.two_tri_p Cases.two_tri_m Cases.two_node_p Cases.two_node_m
           Plate.vector_face Plate.scalar_face Plate.junk Plate.junk' 1%nat).
  - exact two_table_views_ok.
  - reflexivity.
  - reflexivity.
  - exact plate_two_table_in_range.
  - vm_compute. lia.
  - reflexivity.
  - reflexivity.
Defined.

Lemma c_int_wraps (z : Z) :
  (2147483648 <= z < 4294967296)%Z -> c_int z = (z - 4294967296)%Z.
Proof.
  intros H. unfold c_int.
  rewrite <- (Z.mod_unique (z + 2147483648) 4294967296 1 (z - 2147483648)); lia.
Qed.

(** X13.  The number of basis functions is [basis_tri_p.shape[0]] stored into a C
    [int].  For an empty table the converter returns two empty matrices and
    reads nothing, whatever the other arguments; for a table of [2^31] to
    [2^32 - 1] entries the count wraps to a negative number and no result is
    returned. *)
Theorem converter_basis_count_edges
        (tp tm np nm : memview Z) (vf sf : memview C)
        (junk_v junk_s : nat -> nat -> C) :
  (shape (mv_view tp) 0 = 0%Z ->
   triangle_face_to_rwg tp tm np nm vf sf junk_v junk_s = Some ([], [])) /\
  ((2147483648 <= shape (mv_view tp) 0 < 4294967296)%Z ->
   triangle_face_to_rwg tp tm np nm vf sf junk_v junk_s = None).
Proof.
  split; intros H; unfold triangle_face_to_rwg.
  - rewrite H. reflexivity.
  - rewrite (c_int_wraps _ H).
    destruct (shape (mv_view tp) 0 - 4294967296 <? 0)%Z eqn:E; [reflexivity|].
    apply Z.ltb_ge in E. lia.
Qed.

Lemma converter_basis_count_edges_witness :
  triangle_face_to_rwg Cases.no_basis Plate.basis_tri_m
                       Plate.basis_node_p Plate.basis_node_m
                       Plate.vector_face Plate.scalar_face
                       Plate.junk Plate.junk' = Some ([], []) /\
  triangle_face_to_rwg Cases.huge_table Plate.basis_tri_m
                       Plate.basis_node_p Plate.basis_node_m
                       Plate.vector_face Plate.scalar_face
                       Plate.junk Plate.junk' = None.
Proof.
  split.
  - apply (proj1 (converter_basis_count_edges
                    Cases.no_basis Plate.basis_tri_m
                    Plate.basis_node_p Plate.basis_node_m
                    Plate.vector_face Plate.scalar_face
                    Plate.junk Plate.junk')).
    reflexivity.
  - apply (proj2 (converter_basis_count_edges
                    Cases.huge_table Plate.basis_tri_m
                    Plate.basis_node_p Plate.basis_node_m
                    Plate.vector_face Plate.scalar_face
                    Plate.junk Plate.junk')).
    change (2147483648 <= 2147483648 < 4294967296)%Z. lia.
Defined.

(** ** [voltage_plane_wave] *)

(** X14.  The excitation vector is homogeneous in the field amplitude and in the
    quadrature weights: multiplying [e_inc] by a complex number [c] and every
    weight by a real number [s] multiplies every entry of the result by
    [c * s]. *)
Theorem voltage_scales_with_field_and_weights
        (nodes : memview R) (triangle_nodes : memview Z)
        (tp tm np nm : memview Z) (xi_eta weights weights' : memview R)
        (jk_inc e e' : memview C) (c : C) (s : R) (env env' : omp_env) :
  assembler_args_ok nodes triangle_nodes tp tm np nm xi_eta weights e jk_inc ->
  assembler_args_ok nodes triangle_nodes tp tm np nm xi_eta weights' e' jk_inc ->
  (forall b, (b < 3)%nat -> e_amp e' b = (c * e_amp e b)%C) ->
  (forall k, (k < n_quad xi_eta)%nat -> q_w weights' k = (s * q_w weights k)%R) ->
  env_ok (num_triangles triangle_nodes) (num_basis tp) env ->
  env_ok (num_triangles triangle_nodes) (num_basis tp) env' ->
  exists V V',
    voltage_plane_wave nodes triangle_nodes tp tm np nm xi_eta weights
                       e jk_inc env = Some V /\
    voltage_plane_wave nodes triangle_nodes tp tm np nm xi_eta weights'
                       e' jk_inc env' = Some V' /\
    length V = num_basis tp /\ length V' = num_basis tp /\
    forall m, (m < num_basis tp)%nat ->
      exists v, nth_error V m = Some v /\
                nth_error V' m = Some (c * RtoC s * v)%C.
Proof.
  intros H H' He Hw En En'.
  destruct (voltage_char _ _ _ _ _ _ _ _ _ _ H env En) as (V & E & L & HV).
  destruct (voltage_char _ _ _ _ _ _ _ _ _ _ H' env' En') as (V' & E' & L' & HV').
  exists V, V'. repeat (split; [assumption|]).
  intros m Hm. eexists. split; [apply (HV m Hm)|]. rewrite (HV' m Hm). f_equal.
  assert (Hint : forall nodes_o a,
            integral_spec xi_eta weights' nodes_o jk_inc e' a
            = (c * RtoC s * integral_spec xi_eta weights nodes_o jk_inc e a)%C).
  { intros nodes_o a. unfold integral_spec. rewrite Csum_scal.
    apply Csum_ext. intros k Hk. unfold contribution, e_r.
    rewrite (He 0%nat), (He 1%nat), (He 2%nat) by lia.
    rewrite (Hw k Hk). apply C_eq; cbn [Re Im Cmul Cadd RtoC]; ring. }
  unfold V_spec, V_face_spec. rewrite !Hint. c_ring.
Qed.

Lemma plate_weights_one_args_ok :
  assembler_args_ok Plate.nodes Plate.triangle_nodes
                    Plate.basis_tri_p Plate.basis_tri_m
                    Plate.basis_node_p Plate.basis_node_m
                    Plate.xi_eta Plate.weights_one Cases.e_inc_j Plate.jk_inc.
Proof.
  split; [exact plate_mesh_ok|]. split; [exact plate_basis_ok|].
  split; [repeat split|]. apply plate_field_ok. reflexivity.
Qed.

Lemma e_inc_j_amp (b : nat) :
  (b < 3)%nat -> e_amp Cases.e_inc_j b = (Ci * e_amp Plate.e_inc b)%C.
Proof.
  intros Hb. small_nat b; unfold e_amp; eval_reads; c_ring.
Qed.

Lemma weights_one_twice (k : nat) :
  (k < n_quad Plate.xi_eta)%nat ->
  q_w Plate.weights_one k = (2 * q_w Plate.weights k)%R.
Proof.
  intros Hk. change (k < 1)%nat in Hk. assert (k = 0%nat) by lia. subst k.
  unfold q_w. eval_reads. field.
Qed.

Lemma voltage_scales_with_field_and_weights_witness :
  exists V V',
    voltage_plane_wave Plate.nodes Plate.triangle_nodes
                       Plate.basis_tri_p Plate.basis_tri_m
                       Plate.basis_node_p Plate.basis_node_m
                       Plate.xi_eta Plate.weights
                       Plate.e_inc Plate.jk_inc Plate.env = Some V /\
    voltage_plane_wave Plate.nodes Plate.triangle_nodes
                       Plate.basis_tri_p Plate.basis_tri_m
                       Plate.basis_node_p Plate.basis_node_m
                       Plate.xi_eta Plate.weights_one
                       Cases.e_inc_j Plate.jk_inc Plate.env_serial = Some V' /\
    length V = 1%nat /\ length V' = 1%nat /\
    forall m, (m < 1)%nat ->
      exists v, nth_error V m = Some v /\
                nth_error V' m = Some (Ci * RtoC 2 * v)%C.
Proof.
  apply (voltage_scales_with_field_and_weights
           Plate.nodes Plate.triangle_nodes
           Plate.basis_tri_p Plate.basis_tri_m
           Plate.basis_node_p Plate.basis_node_m
           Plate.xi_eta Plate.weights Plate.weights_one
           Plate.jk_inc Plate.e_inc Cases.e_inc_j Ci 2%R
           Plate.env Plate.env_serial).
  - apply (plate_args_ok [C1; C0; C0]). reflexivity.
  - exact plate_weights_one_args_ok.
  - exact e_inc_j_amp.
  - exact weights_one_twice.
  - exact plate_env_ok.
  - exact plate_env_serial_ok.
Defined.

(** ** [voltage_plane_wave], the mesh *)

(** The triangle and node indices of a basis function within the mesh, as
    natural numbers. *)
Lemma basis_ok_nat (triangle_nodes tp tm np nm : memview Z) (m : nat) :
  basis_ok triangle_nodes tp tm np nm -> (m < num_basis tp)%nat ->
  (Z.to_nat (tri_plus tp m) < num_triangles triangle_nodes)%nat /\
  (Z.to_nat (tri_minus tm m) < num_triangles triangle_nodes)%nat /\
  (Z.to_nat (node_plus np m) < 3)%nat /\
  (Z.to_nat (node_minus nm m) < 3)%nat.
Proof.
  intros [_ H] Hm. destruct (H m Hm) as (A & B & C' & D). lia.
Qed.

(** X15.  Translating the mesh by a vector [d] multiplies every entry of the
    excitation vector by the phase factor [cexp (- (jk_inc . d))]. *)
Theorem voltage_translation_is_a_phase
        (nodes1 nodes2 : memview R) (triangle_nodes : memview Z)
        (tp tm np nm : memview Z) (xi_eta weights : memview R)
        (e_inc jk_inc : memview C) (d : nat -> R) (env1 env2 : omp_env) :
  assembler_args_ok nodes1 triangle_nodes tp tm np nm xi_eta weights e_inc jk_inc ->
  assembler_args_ok nodes2 triangle_nodes tp tm np nm xi_eta weights e_inc jk_inc ->
  (forall i b, (0 <= i < shape (mv_view nodes1) 0)%Z -> (b < 3)%nat ->
     mv_at 0%R nodes2 [i; Z.of_nat b]
     = (mv_at 0%R nodes1 [i; Z.of_nat b] + d b)%R) ->
  env_ok (num_triangles triangle_nodes) (num_basis tp) env1 ->
  env_ok (num_triangles triangle_nodes) (num_basis tp) env2 ->
  exists V1 V2,
    voltage_plane_wave nodes1 triangle_nodes tp tm np nm xi_eta weights
                       e_inc jk_inc env1 = Some V1 /\
    voltage_plane_wave nodes2 triangle_nodes tp tm np nm xi_eta weights
                       e_inc jk_inc env2 = Some V2 /\
    length V1 = num_basis tp /\ length V2 = num_basis tp /\
    forall m, (m < num_basis tp)%nat ->
      exists v, nth_error V1 m = Some v /\
                nth_error V2 m
                = Some (cexp (- (jk jk_inc 0 * RtoC (d 0%nat)
                                 + jk jk_inc 1 * RtoC (d 1%nat)
                                 + jk jk_inc 2 * RtoC (d 2%nat))) * v)%C.
Proof.
  intros H1 H2 Hd En1 En2.
  destruct (voltage_char _ _ _ _ _ _ _ _ _ _ H1 env1 En1) as (V1 & E1 & L1 & HV1).
  destruct (voltage_char _ _ _ _ _ _ _ _ _ _ H2 env2 En2) as (V2 & E2 & L2 & HV2).
  exists V1, V2. repeat (split; [assumption|]).
  intros m Hm. eexists. split; [apply (HV1 m Hm)|]. rewrite (HV2 m Hm). f_equal.
  destruct H1 as ((_ & _ & _ & _ & Hmesh) & Hbasis & _).
  destruct (basis_ok_nat _ _ _ _ _ m Hbasis Hm) as (Tp & Tm & Np & Nm).
  assert (Hg : forall p, (p < num_triangles triangle_nodes)%nat ->
            forall i b, (i < 3)%nat -> (b < 3)%nat ->
              node (gather_nodes nodes2 triangle_nodes p) i b
              = (node (gather_nodes nodes1 triangle_nodes p) i b + d b)%R).
  { intros p Hp i b Hi Hb. rewrite !gather_nodes_node by assumption.
    unfold tri_node. apply Hd; [apply Hmesh; assumption|exact Hb]. }
  unfold V_spec, V_face_spec.
  rewrite (integral_spec_translate xi_eta weights
             (gather_nodes nodes1 triangle_nodes (Z.to_nat (tri_plus tp m)))
             (gather_nodes nodes2 triangle_nodes (Z.to_nat (tri_plus tp m)))
             jk_inc e_inc d _ (Hg _ Tp) Np).
  rewrite (integral_spec_translate xi_eta weights
             (gather_nodes nodes1 triangle_nodes (Z.to_nat (tri_minus tm m)))
             (gather_nodes nodes2 triangle_nodes (Z.to_nat (tri_minus tm m)))
             jk_inc e_inc d _ (Hg _ Tm) Nm).
  c_ring.
Qed.

Ltac mesh_ok_by_cases :=
  split; [reflexivity|]; split; [reflexivity|]; split; [reflexivity|];
  split; [reflexivity|];
  let p := fresh "p" in
  let m := fresh "m" in
  let Hp := fresh "Hp" in
  let Hm := fresh "Hm" in
  intros p m Hp Hm; change (p < 2)%nat in Hp;
  small_nat p; small_nat m; try lia; vm_compute; intuition discriminate.

Lemma shifted_mesh_ok : mesh_ok Cases.nodes_shifted Plate.triangle_nodes.
Proof. mesh_ok_by_cases. Qed.

Lemma shifted_args_ok :
  assembler_args_ok Cases.nodes_shifted Plate.triangle_nodes
                    Plate.basis_tri_p Plate.basis_tri_m
                    Plate.basis_node_p Plate.basis_node_m
                    Plate.xi_eta Plate.weights Plate.e_inc Plate.jk_inc.
Proof.
  split; [exact shifted_mesh_ok|]. split; [exact plate_basis_ok|].
  split; [exact plate_quadrature_ok|]. apply plate_field_ok. reflexivity.
Qed.

Lemma nodes_shifted_cells (i : Z) (b : nat) :
  (0 <= i < shape (mv_view Plate.nodes) 0)%Z -> (b < 3)%nat ->
  mv_at 0%R Cases.nodes_shifted [i; Z.of_nat b]
  = (mv_at 0%R Plate.nodes [i; Z.of_nat b] + Cases.shift b)%R.
Proof.
  intros Hi Hb. change (0 <= i < 4)%Z in Hi.
  assert (Ei : i = 0%Z \/ i = 1%Z \/ i = 2%Z \/ i = 3%Z) by lia.
  destruct Ei as [-> | [-> | [-> | ->]]]; small_nat b; eval_reads;
    cbv [IPR_2 IPR Cases.shift]; lra.
Qed.

Lemma voltage_translation_is_a_phase_witness :
  exists V1 V2,
    voltage_plane_wave Plate.nodes Plate.triangle_nodes
                       Plate.basis_tri_p Plate.basis_tri_m
                       Plate.basis_node_p Plate.basis_node_m
                       Plate.xi_eta Plate.weights
                       Plate.e_inc Plate.jk_inc Plate.env = Some V1 /\
    voltage_plane_wave Cases.nodes_shifted Plate.triangle_nodes
                       Plate.basis_tri_p Plate.basis_tri_m
                       Plate.basis_node_p Plate.basis_node_m
                       Plate.xi_eta Plate.weights
                       Plate.e_inc Plate.jk_inc Plate.env_serial = Some V2 /\
    length V1 = 1%nat /\ length V2 = 1%nat /\
    forall m, (m < 1)%nat ->
      exists v, nth_error V1 m = Some v /\
                nth_error V2 m
                = Some (cexp (- (jk Plate.jk_inc 0 * RtoC (Cases.shift 0%nat)
                                 + jk Plate.jk_inc 1 * RtoC (Cases.shift 1%nat)
                                 + jk Plate.jk_inc 2 * RtoC (Cases.shift 2%nat)))
                        * v)%C.
Proof.
  apply (voltage_translation_is_a_phase
           Plate.nodes Cases.nodes_shifted Plate.triangle_nodes
           Plate.basis_tri_p Plate.basis_tri_m
           Plate.basis_node_p Plate.basis_node_m
           Plate.xi_eta Plate.weights Plate.e_inc Plate.jk_inc
           Cases.shift Plate.env Plate.env_serial).
  - apply (plate_args_ok [C1; C0; C0]). reflexivity.
  - exact shifted_args_ok.
  - exact nodes_shifted_cells.
  - exact plate_env_ok.
  - exact plate_env_serial_ok.
Defined.

(** X16.  The entry [V[m]] depends on the mesh only through the coordinates of the
    nodes of the two triangles of basis function [m]: two meshes that agree
    there give the same [V[m]], however they differ elsewhere. *)
Theorem voltage_entry_depends_on_its_two_triangles
        (nodes1 nodes2 : memview R) (tn1 tn2 : memview Z)
        (tp tm np nm : memview Z) (xi_eta weights : memview R)
        (e_inc jk_inc : memview C) (env1 env2 : omp_env) (m : nat) :
  assembler_args_ok nodes1 tn1 tp tm np nm xi_eta weights e_inc jk_inc ->
  assembler_args_ok nodes2 tn2 tp tm np nm xi_eta weights e_inc jk_inc ->
  env_ok (num_triangles tn1) (num_basis tp) env1 ->
  env_ok (num_triangles tn2) (num_basis tp) env2 ->
  (m < num_basis tp)%nat ->
  (forall a b, (a < 3)%nat -> (b < 3)%nat ->
     tri_node nodes2 tn2 (Z.to_nat (tri_plus tp m)) a b
     = tri_node nodes1 tn1 (Z.to_nat (tri_plus tp m)) a b /\
     tri_node nodes2 tn2 (Z.to_nat (tri_minus tm m)) a b
     = tri_node nodes1 tn1 (Z.to_nat (tri_minus tm m)) a b) ->
  exists V1 V2 v,
    voltage_plane_wave nodes1 tn1 tp tm np nm xi_eta weights
                       e_inc jk_inc env1 = Some V1 /\
    voltage_plane_wave nodes2 tn2 tp tm np nm xi_eta weights
                       e_inc jk_inc env2 = Some V2 /\
    nth_error V1 m = Some v /\ nth_error V2 m = Some v.
Proof.
  intros H1 H2 En1 En2 Hm Hsame.
  destruct (voltage_char _ _ _ _ _ _ _ _ _ _ H1 env1 En1) as (V1 & E1 & L1 & HV1).
  destruct (voltage_char _ _ _ _ _ _ _ _ _ _ H2 env2 En2) as (V2 & E2 & L2 & HV2).
  exists V1, V2. eexists. split; [exact E1|]. split; [exact E2|].
  split; [apply (HV1 m Hm)|]. rewrite (HV2 m Hm). f_equal.
  destruct H1 as (_ & Hbasis & _).
  destruct (basis_ok_nat _ _ _ _ _ m Hbasis Hm) as (_ & _ & Np & Nm).
  unfold V_spec, V_face_spec.
  rewrite (integral_spec_ext xi_eta weights
             (gather_nodes nodes2 tn2 (Z.to_nat (tri_plus tp m)))
             (gather_nodes nodes1 tn1 (Z.to_nat (tri_plus tp m)))
             jk_inc e_inc (Z.to_nat (node_plus np m))); [|
    intros i b Hi Hb; rewrite !gather_nodes_node by assumption;
    apply (Hsame i b Hi Hb) | exact Np].
  rewrite (integral_spec_ext xi_eta weights
             (gather_nodes nodes2 tn2 (Z.to_nat (tri_minus tm m)))
             (gather_nodes nodes1 tn1 (Z.to_nat (tri_minus tm m)))
             jk_inc e_inc (Z.to_nat (node_minus nm m))); [|
    intros i b Hi Hb; rewrite !gather_nodes_node by assumption;
    apply (Hsame i b Hi Hb) | exact Nm].
  reflexivity.
Qed.

Lemma moved_mesh_ok : mesh_ok Cases.nodes_moved Plate.triangle_nodes.
Proof. mesh_ok_by_cases. Qed.

Lemma inner_basis_ok :
  basis_ok Plate.triangle_nodes Cases.inner_tri Cases.inner_tri
           Cases.inner_node_p Cases.inner_node_m.
Proof.
  split; [repeat split|].
  intros m Hm. change (m < 1)%nat in Hm. assert (m = 0%nat) by lia. subst m.
  vm_compute. intuition discriminate.
Qed.

Lemma inner_args_ok (nodes : memview R) :
  mesh_ok nodes Plate.triangle_nodes ->
  assembler_args_ok nodes Plate.triangle_nodes
                    Cases.inner_tri Cases.inner_tri
                    Cases.inner_node_p Cases.inner_node_m
                    Plate.xi_eta Plate.weights Plate.e_inc Plate.jk_inc.
Proof.
  intros H. split; [exact H|]. split; [exact inner_basis_ok|].
  split; [exact plate_quadrature_ok|]. apply plate_field_ok. reflexivity.
Qed.

Lemma moved_same_triangle (a b : nat) :
  (a < 3)%nat -> (b < 3)%nat ->
  tri_node Cases.nodes_moved Plate.triangle_nodes
           (Z.to_nat (tri_plus Cases.inner_tri 0)) a b
  = tri_node Plate.nodes Plate.triangle_nodes
             (Z.to_nat (tri_plus Cases.inner_tri 0)) a b /\
  tri_node Cases.nodes_moved Plate.triangle_nodes
           (Z.to_nat (tri_minus Cases.inner_tri 0)) a b
  = tri_node Plate.nodes Plate.triangle_nodes
             (Z.to_nat (tri_minus Cases.inner_tri 0)) a b.
Proof.
  intros Ha Hb. small_nat a; small_nat b; split; reflexivity.
Qed.

Lemma voltage_entry_depends_on_its_two_triangles_witness :
  exists V1 V2 v,
    voltage_plane_wave Plate.nodes Plate.triangle_nodes
                       Cases.inner_tri Cases.inner_tri
                       Cases.inner_node_p Cases.inner_node_m
                       Plate.xi_eta Plate.weights
                       Plate.e_inc Plate.jk_inc Plate.env = Some V1 /\
    voltage_plane_wave Cases.nodes_moved Plate.triangle_nodes
                       Cases.inner_tri Cases.inner_tri
                       Cases.inner_node_p Cases.inner_node_m
                       Plate.xi_eta Plate.weights
                       Plate.e_inc Plate.jk_inc Plate.env_serial = Some V2 /\
    nth_error V1 0 = Some v /\ nth_error V2 0 = Some v.
Proof.
  apply (voltage_entry_depends_on_its_two_triangles
           Plate.nodes Cases.nodes_moved
           Plate.triangle_nodes Plate.triangle_nodes
           Cases.inner_tri Cases.inner_tri
           Cases.inner_node_p Cases.inner_node_m
           Plate.xi_eta Plate.weights Plate.e_inc Plate.jk_inc
           Plate.env Plate.env_serial 0%nat).
  - apply inner_args_ok. exact plate_mesh_ok.
  - apply inner_args_ok. exact moved_mesh_ok.
  - exact plate_env_ok.
  - exact plate_env_serial_ok.
  - vm_compute. lia.
  - exact moved_same_triangle.
Defined.

Lemma dsub_self (a : Ieee.double) :
  Ieee.dsub a a = if Ieee.is_finite a then Ieee.zero else Ieee.nan.
Proof.
  destruct a as [[|]|[|]| |s m e]; try reflexivity.
  unfold Ieee.dsub, SFsub. rewrite Z.sub_diag. reflexivity.
Qed.

(** [x - x] is zero for a finite [x] and NaN for an infinite or NaN one. *)
Lemma csub_self (x : Ieee.complex) :
  Ieee.zero_or_nan (Ieee.csub x x) = true /\
  (Ieee.cfinite x = true -> Ieee.czero (Ieee.csub x x) = true).
Proof.
  destruct x as [a b].
  unfold Ieee.csub, Ieee.zero_or_nan, Ieee.zero_or_nan_part, Ieee.czero,
    Ieee.cfinite. cbn [Ieee.re Ieee.im]. rewrite !dsub_self.
  destruct (Ieee.is_finite a), (Ieee.is_finite b); split;
    try reflexivity; discriminate.
Qed.

Lemma buf_write_inv {X : Type} (buf buf' : list X) (off : Z) (x : X) :
  buf_write buf off x = Some buf' ->
  buf' = list_set buf (Z.to_nat off) x /\ (Z.to_nat off < length buf)%nat.
Proof.
  unfold buf_write.
  destruct ((0 <=? off) && (off <? Z.of_nat (length buf)))%Z eqn:E;
    [|discriminate].
  intros H. injection H as <-. split; [reflexivity|].
  apply andb_prop in E. destruct E as [E1 E2].
  apply Z.leb_le in E1. apply Z.ltb_lt in E2. lia.
Qed.

(** The second loop, for a basis function [m] whose two halves coincide:
    whatever the arithmetic, [V[m]] stays of the form [x - x]. *)
Lemma basis_loop_degenerate (A : arith) (tp tm np nm : memview Z)
      (num_triangles : Z) (V_face : list (cpx A Field)) (m : nat) :
  tri_plus tp m = tri_minus tm m -> node_plus np m = node_minus nm m ->
  forall (sched : list nat) (V V' : list (cpx A Field)),
    (exists x, nth_error V m = Some (c_sub A Field x x)) ->
    foldM (Gen.basis_iter A tp tm np nm num_triangles V_face) sched V = Some V' ->
    exists x, nth_error V' m = Some (c_sub A Field x x).
Proof.
  intros Ht Hn sched. induction sched as [|k sched IH]; intros V V' Hinv E.
  - simpl in E. injection E as <-. exact Hinv.
  - simpl in E. apply bind_inv in E. destruct E as (V1 & E1 & E2).
    apply (IH V1 V'); [|exact E2]. clear IH E2.
    unfold Gen.basis_iter in E1.
    apply bind_inv in E1. destruct E1 as (p_p & R1 & E1).
    apply bind_inv in E1. destruct E1 as (p_m & R2 & E1).
    apply bind_inv in E1. destruct E1 as (ip_p & R3 & E1).
    apply bind_inv in E1. destruct E1 as (ip_m & R4 & E1).
    apply bind_inv in E1. destruct E1 as (a & Ra & E1).
    apply bind_inv in E1. destruct E1 as (b & Rb & E1).
    apply buf_write_inv in E1. destruct E1 as [-> Hlt].
    rewrite Nat2Z.id in *.
    destruct (Nat.eq_dec k m) as [->|Hkm].
    + rewrite nth_error_list_set_eq by exact Hlt.
      unfold tri_plus, tri_minus in Ht. unfold node_plus, node_minus in Hn.
      rewrite (mv_at_some 0%Z tp _ _ R1), (mv_at_some 0%Z tm _ _ R2) in Ht.
      rewrite (mv_at_some 0%Z np _ _ R3), (mv_at_some 0%Z nm _ _ R4) in Hn.
      subst p_m ip_m. rewrite Ra in Rb. injection Rb as <-.
      exists a. reflexivity.
    + rewrite nth_error_list_set_neq by (intros E; apply Hkm; symmetry; exact E).
      exact Hinv.
Qed.

Lemma two_basis_ok :
  basis_ok Plate.triangle_nodes Cases.two_tri_p Cases.two_tri_m
           Cases.two_node_p Cases.two_node_m.
Proof.
  split; [exact two_table_views_ok|].
  intros m Hm. change (m < 2)%nat in Hm.
  destruct m as [|[|m]]; [| |lia]; vm_compute; intuition discriminate.
Qed.

Lemma two_args_ok :
  assembler_args_ok Plate.nodes Plate.triangle_nodes
                    Cases.two_tri_p Cases.two_tri_m
                    Cases.two_node_p Cases.two_node_m
                    Plate.xi_eta Plate.weights Plate.e_inc Plate.jk_inc.
Proof.
  split; [exact plate_mesh_ok|]. split; [exact two_basis_ok|].
  split; [exact plate_quadrature_ok|]. apply plate_field_ok. reflexivity.
Qed.



Lemma buf_read_nil {A : Type} (off : Z) : buf_read (@nil A) off = None.
Proof.
  unfold buf_read. destruct (off <? 0)%Z; [reflexivity|].
  destruct (Z.to_nat off); reflexivity.
Qed.

(** X18.  A mesh without triangles and a table with at least one basis function:
    with bounds checking off, the second loop reads [V_face], which has no
    cell, and the call has no defined result. *)
Theorem voltage_without_triangles_is_undefined
        (nodes : memview R) (triangle_nodes : memview Z)
        (tp tm np nm : memview Z) (xi_eta weights : memview R)
        (e_inc jk_inc : memview C) (env : omp_env) :
  shape (mv_view triangle_nodes) 0 = 0%Z ->
  (0 < shape (mv_view tp) 0 < 2147483648)%Z ->
  env_ok 0 (num_basis tp) env ->
  voltage_plane_wave nodes triangle_nodes tp tm np nm xi_eta weights
                     e_inc jk_inc env = None.
Proof.
  intros HT HB (_ & _ & Ptri & _ & Pbas).
  unfold voltage_plane_wave. rewrite HT.
  rewrite (c_int_small (shape (mv_view tp) 0)) by lia.
  change (c_int 0) with 0%Z.
  destruct (shape (mv_view tp) 0 <? 0)%Z eqn:E; [apply Z.ltb_lt in E; lia|].
  cbn [orb Z.ltb Z.compare].
  apply Permutation_sym, Permutation_nil, map_eq_nil in Ptri. rewrite Ptri.
  cbn [foldM bind snd].
  apply (foldM_fails _ _ 0%nat).
  - apply (Permutation_in _ (Permutation_sym Pbas)). apply in_seq.
    unfold num_basis. lia.
  - intros V. unfold basis_iter.
    destruct (mv_get tp [Z.of_nat 0]); [|reflexivity]. cbn [bind].
    destruct (mv_get tm [Z.of_nat 0]); [|reflexivity]. cbn [bind].
    destruct (mv_get np [Z.of_nat 0]); [|reflexivity]. cbn [bind].
    destruct (mv_get nm [Z.of_nat 0]); [|reflexivity]. cbn [bind].
    unfold mv_get at 1. cbn [mv_buf]. change (Z.to_nat 0 * 3)%nat with 0%nat.
    cbn [np_zeros repeat]. rewrite buf_read_nil. reflexivity.
Qed.

Lemma voltage_without_triangles_is_undefined_witness :
  voltage_plane_wave Plate.nodes Cases.no_triangles
                     Plate.basis_tri_p Plate.basis_tri_m
                     Plate.basis_node_p Plate.basis_node_m
                     Plate.xi_eta Plate.weights
                     Plate.e_inc Plate.jk_inc Cases.env_no_triangles = None.
Proof.
  apply (voltage_without_triangles_is_undefined
           Plate.nodes Cases.no_triangles
           Plate.basis_tri_p Plate.basis_tri_m
           Plate.basis_node_p Plate.basis_node_m
           Plate.xi_eta Plate.weights Plate.e_inc Plate.jk_inc
           Cases.env_no_triangles).
  - reflexivity.
  - change (0 < 1 < 2147483648)%Z. lia.
  - split; [reflexivity|]. split; [reflexivity|].
    split; [apply Permutation_refl|]. split; [constructor|apply Permutation_refl].
Defined.

(** ** Witnesses on the plate *)

Lemma dot_product_bounds_witness :
  dot_product_complex_real (-1) (local_ptr []) (local_ptr []) = Some C0 /\
  dot_product_complex_real 3 (local_ptr [C1; Ci; C0]) (local_ptr [2%R; 3%R])
  = None.
Proof.
  split.
  - apply (proj1 (dot_product_bounds (-1) (local_ptr []) (local_ptr []))). lia.
  - apply (proj2 (dot_product_bounds 3 (local_ptr [C1; Ci; C0])
                                     (local_ptr [2%R; 3%R])) 2%Z).
    + lia.
    + right. reflexivity.
Defined.

Lemma tri_iter_commute_witness :
  (st <- tri_iter Plate.nodes Plate.triangle_nodes Plate.xi_eta Plate.weights
                  Plate.e_inc Plate.jk_inc 2
                  (Z.of_nat (num_triangles Plate.triangle_nodes)) (0%nat, 0%Z)
                  (repeat 7%R 18, repeat C0 6) ;;
   tri_iter Plate.nodes Plate.triangle_nodes Plate.xi_eta Plate.weights
            Plate.e_inc Plate.jk_inc 2
            (Z.of_nat (num_triangles Plate.triangle_nodes)) (1%nat, 1%Z) st)
  = (st <- tri_iter Plate.nodes Plate.triangle_nodes Plate.xi_eta Plate.weights
                    Plate.e_inc Plate.jk_inc 2
                    (Z.of_nat (num_triangles Plate.triangle_nodes)) (1%nat, 1%Z)
                    (repeat 7%R 18, repeat C0 6) ;;
     tri_iter Plate.nodes Plate.triangle_nodes Plate.xi_eta Plate.weights
              Plate.e_inc Plate.jk_inc 2
              (Z.of_nat (num_triangles Plate.triangle_nodes)) (0%nat, 0%Z) st).
Proof.
  apply (tri_iter_commute
           Plate.nodes Plate.triangle_nodes
           Plate.basis_tri_p Plate.basis_tri_m
           Plate.basis_node_p Plate.basis_node_m
           Plate.xi_eta Plate.weights Plate.e_inc Plate.jk_inc
           2 0%nat 1%nat 0%Z 1%Z (repeat 7%R 18) (repeat C0 6)).
  - apply (plate_args_ok [C1; C0; C0]). reflexivity.
  - vm_compute. lia.
  - vm_compute. lia.
  - lia.
  - lia.
  - discriminate.
  - discriminate.
  - reflexivity.
  - reflexivity.
Defined.
